(** * Space cargo stowage engine: a shallow embedding of the JS/TS sources

    The development follows the repository's own layering:
    - [Models]: the TypeScript [Item] model (usage budget, waste flag);
    - [Orientation]: the six axis permutations of basic-operations.js;
    - the occupancy grid (the base class SpatialGrid, whose file is not part
      of the sources: every definition taken from the specification instead
      says so in its doc comment);
    - [EnhancedSpatialGrid] operations: placement, visibility, blockers,
      accessibility score, retrieval plan;
    - [Container] operations: adding, removal and fragmentation analysis;
    - the priority multiplier of the placement ranker.

    JavaScript numbers are doubles.  They are modelled by [Z] where the code
    only counts cells, and by exact rationals [Q] where it divides: the code
    rounds each quotient, product and sum to the nearest double, which the
    rationals do not.  Rounding keeps the order of two numbers and leaves a
    result that is itself a double unchanged, so the properties of such
    numbers are stated as bounds by integers, or as an equation where every
    intermediate result is an integer.  [Coordinate.distanceTo] adds integer
    coordinates without a bound on their size and is modelled with the
    rounding written out.  A division by zero yields [NaN] (standing for any
    non-finite result). *)

From Stdlib Require Import ZArith QArith Qminmax Lia Lqa.
From stdpp Require Import base option list list_numbers strings gmap.

Local Open Scope Z_scope.

(** ** Exceptions

    A JavaScript call either returns a value or throws.  [Throw] carries the
    message of the [Error] (or the name of the built-in exception). *)

Inductive outcome (A : Type) : Type :=
| Ok (a : A)
| Throw (msg : string).
Arguments Ok {A} a.
Arguments Throw {A} msg.

#[global] Instance outcome_ret : MRet outcome := @Ok.
#[global] Instance outcome_bind : MBind outcome := λ A B f m,
  match m with
  | Ok a => f a
  | Throw msg => Throw msg
  end.

(** ** Geometry records (Position and Dimensions of the grid module)

    The fields [x], [y], [z] of a position are named [px], [py], [pz], so
    that loop variables can keep the names they have in the sources. *)

Record Position := mkPosition { px : Z; py : Z; pz : Z }.
Record Dimensions := mkDimensions { width : Z; depth : Z; height : Z }.

#[global] Instance Position_eq_dec : EqDecision Position.
Proof. solve_decision. Defined.
#[global] Instance Dimensions_eq_dec : EqDecision Dimensions.
Proof. solve_decision. Defined.

Definition positive_dims (d : Dimensions) : Prop :=
  0 < width d ∧ 0 < depth d ∧ 0 < height d.

(** ** models/Item.ts *)

Module Models.

(** Dates are compared through their time value (milliseconds).  The
    fields [width], [depth], [height] of an item carry the prefix [item_]. *)
Definition Date := Z.

Record Item := mkItem {
  itemId : string;
  name : string;
  item_width : Z;
  item_depth : Z;
  item_height : Z;
  mass : Q;
  priority : Z;
  expiryDate : option Date;
  usageLimit : option Z;
  preferredZone : string;
  usageCount : Z;
  isWaste : bool;
  currentContainerId : option string
}.

(** [new Item(...)]: the constructor validates priority, dimensions and
    mass, and starts with [usageCount = 0], [isWaste = false]. *)
Definition new_Item (id nm : string) (w d h : Z) (m : Q) (prio : Z)
    (expiry : option Date) (limit : option Z) (zone : string) : outcome Item :=
  if bool_decide (prio < 1 ∨ prio > 100) then
    Throw "Priority must be between 1 and 100"
  else if bool_decide (w ≤ 0 ∨ d ≤ 0 ∨ h ≤ 0) then
    Throw "Dimensions must be positive"
  else if Qle_bool m 0 then
    Throw "Mass must be positive"
  else
    Ok (mkItem id nm w d h m prio expiry limit zone 0 false None).

Definition set_usageCount (n : Z) (it : Item) : Item :=
  mkItem (itemId it) (name it) (item_width it) (item_depth it) (item_height it)
         (mass it) (priority it) (expiryDate it) (usageLimit it)
         (preferredZone it) n (isWaste it) (currentContainerId it).

Definition set_isWaste (b : bool) (it : Item) : Item :=
  mkItem (itemId it) (name it) (item_width it) (item_depth it) (item_height it)
         (mass it) (priority it) (expiryDate it) (usageLimit it)
         (preferredZone it) (usageCount it) b (currentContainerId it).

(** [hasExpired(currentDate)] *)
Definition hasExpired (it : Item) (currentDate : Date) : bool :=
  match expiryDate it with
  | None => false
  | Some e => bool_decide (e ≤ currentDate)
  end.

(** [usageLimit !== null && usageCount >= usageLimit] *)
Definition limitReached (it : Item) : bool :=
  match usageLimit it with
  | None => false
  | Some l => bool_decide (l ≤ usageCount it)
  end.

(** [use()]: a method call is a function from the object before the call
    to the result and the object after it.  The exception is thrown before
    any field is written. *)
Definition use (it : Item) : outcome bool * Item :=
  if isWaste it then
    (Throw "Cannot use an item that is already waste", it)
  else
    let it1 := set_usageCount (usageCount it + 1) it in
    if limitReached it1 then (Ok true, set_isWaste true it1)
    else (Ok false, it1).

(** [checkIfWaste(currentDate)] *)
Definition checkIfWaste (it : Item) (currentDate : Date) : bool * Item :=
  if isWaste it then (true, it)
  else if hasExpired it currentDate then (true, set_isWaste true it)
  else if limitReached it then (true, set_isWaste true it)
  else (false, it).

(** [getWasteStatus()] *)
Definition getWasteStatus (it : Item) : bool := isWaste it.

(** The object after [n] further calls to [use()], whatever they return. *)
Definition after_uses (n : nat) (it : Item) : Item :=
  Nat.iter n (λ s, snd (use s)) it.

End Models.

(** ** Orientation (basic-operations.js) *)

Record Orientation := mkOrientation {
  widthAxis : Z;
  depthAxis : Z;
  heightAxis : Z
}.

#[global] Instance Orientation_eq_dec : EqDecision Orientation.
Proof. solve_decision. Defined.

(** [Array.prototype.sort()] on three numbers.  The default comparator orders
    by the decimal strings; the constructor only asks whether the result is
    [0, 1, 2], which any sorting order answers alike on a permutation of
    {0, 1, 2} and on no other triple. *)
Fixpoint sort_insert (a : Z) (l : list Z) : list Z :=
  match l with
  | [] => [a]
  | b :: l' => if Z.leb a b then a :: l else b :: sort_insert a l'
  end.

Definition array_sort (l : list Z) : list Z := foldr sort_insert [] l.

(** [new Orientation(widthAxis, depthAxis, heightAxis)] *)
Definition new_Orientation (w d h : Z) : outcome Orientation :=
  match array_sort [w; d; h] with
  | [a0; a1; a2] =>
      if bool_decide (a0 ≠ 0 ∨ a1 ≠ 1 ∨ a2 ≠ 2) then
        Throw "Invalid orientation: must be a permutation of [0,1,2]"
      else Ok (mkOrientation w d h)
  | _ => Throw "Invalid orientation: must be a permutation of [0,1,2]"
  end.

(** [dims[axis]] for the three-element array [dims].  An index other than
    0, 1, 2 reads [undefined] in JavaScript; the constructor above excludes
    it, and the model returns 0 there. *)
Definition dims_at (dims : Dimensions) (axis : Z) : Z :=
  match axis with
  | 0 => width dims
  | 1 => depth dims
  | 2 => height dims
  | _ => 0
  end.

(** [orientation.getEffectiveDimensions(originalDimensions)] *)
Definition getEffectiveDimensions (o : Orientation) (originalDimensions : Dimensions)
    : Dimensions :=
  mkDimensions (dims_at originalDimensions (widthAxis o))
               (dims_at originalDimensions (depthAxis o))
               (dims_at originalDimensions (heightAxis o)).

(** Sequencing a list of fallible constructions, left to right. *)
Fixpoint sequence {A} (l : list (outcome A)) : outcome (list A) :=
  match l with
  | [] => Ok []
  | m :: l' => a ← m; r ← sequence l'; mret (a :: r)
  end.

(** [Orientation.getAllOrientations()] *)
Definition getAllOrientations : outcome (list Orientation) :=
  sequence [ new_Orientation 0 1 2; new_Orientation 0 2 1;
             new_Orientation 1 0 2; new_Orientation 1 2 0;
             new_Orientation 2 0 1; new_Orientation 2 1 0 ].

Definition valid_orientation (o : Orientation) : Prop :=
  new_Orientation (widthAxis o) (depthAxis o) (heightAxis o) = Ok o.

(** ** JavaScript values and numbers *)

(** What an array read [grid[x][y][z]] can produce. *)
Inductive jsval :=
| JUndefined
| JNull
| JString (s : string).

#[global] Instance jsval_eq_dec : EqDecision jsval.
Proof. solve_decision. Defined.

(** Template-literal interpolation of a value. *)
Definition to_string (v : jsval) : string :=
  match v with
  | JUndefined => "undefined"
  | JNull => "null"
  | JString s => s
  end.

(** A number that went through a division: a rational, or [NaN] after a
    division by zero.  The quotient is the exact one; the double of the code
    is the nearest double to it. *)
Inductive num :=
| Fin (q : Q)
| NaN.

Definition num_lift2 (f : Q → Q → Q) (a b : num) : num :=
  match a, b with
  | Fin x, Fin y => Fin (f x y)
  | _, _ => NaN
  end.

Definition num_div (a b : num) : num :=
  match a, b with
  | Fin x, Fin y => if Qeq_bool y 0 then NaN else Fin (x / y)
  | _, _ => NaN
  end.

Definition num_add := num_lift2 Qplus.
Definition num_sub := num_lift2 Qminus.
Definition num_mul := num_lift2 Qmult.
(** [Math.max(a, b)] *)
Definition num_max := num_lift2 Qmax.
Definition num_of_Z (z : Z) : num := Fin (inject_Z z).

(** ** Occupancy grid: [this.grid], an array of arrays of arrays

    A cell is [null] ([None]) or the id of the item occupying it. *)

Abbreviation cell := (option string).
Abbreviation Grid := (list (list (list cell))).

Definition cell_val (c : cell) : jsval :=
  match c with
  | None => JNull
  | Some s => JString s
  end.

(** [a[i]] on an array: [undefined] ([None]) outside [0 .. length-1]. *)
Definition array_at {A} (l : list A) (i : Z) : option A :=
  if bool_decide (0 ≤ i) then l !! Z.to_nat i else None.

(** The cell at a position, when the position is inside the array. *)
Definition cellAt (g : Grid) (p : Position) : option cell :=
  plane ← array_at g (px p); col ← array_at plane (py p); array_at col (pz p).

(** [this.grid[x][y][z]] as an expression: indexing [undefined] throws a
    TypeError, a missing last index reads [undefined]. *)
Definition grid_read (g : Grid) (x y z : Z) : outcome jsval :=
  match array_at g x with
  | None => Throw "TypeError"
  | Some plane =>
      match array_at plane y with
      | None => Throw "TypeError"
      | Some col =>
          match array_at col z with
          | None => Ok JUndefined
          | Some c => Ok (cell_val c)
          end
      end
  end.

(** [this.grid[x][y][z] = v].  Every write in the sources is guarded by a
    bounds check; outside the array the model leaves the grid as it is. *)
Definition grid_write (g : Grid) (p : Position) (v : cell) : Grid :=
  if bool_decide (0 ≤ px p ∧ 0 ≤ py p ∧ 0 ≤ pz p) then
    alter (alter (<[Z.to_nat (pz p) := v]>) (Z.to_nat (py p))) (Z.to_nat (px p)) g
  else g.

(** [for (i = lo; i < hi; i++)] *)
Definition range (lo hi : Z) : list Z := seqZ lo (hi - lo).

(** [for (i = lo; i <= hi; i++)] *)
Definition range_incl (lo hi : Z) : list Z := seqZ lo (hi - lo + 1).

(** The cells of the box at [pos] with size [dims], in the order of the
    three nested loops over x, y and z. *)
Definition box_cells (pos : Position) (dims : Dimensions) : list Position :=
  x ← range (px pos) (px pos + width dims);
  y ← range (py pos) (py pos + depth dims);
  z ← range (pz pos) (pz pos + height dims);
  [mkPosition x y z].

(** ** Items and the container object *)

(** [openFace]: one of the strings "front", "back", "left", "right", "top",
    "bottom". *)
Inductive Face := Front | Back | Left | Right | Top | Bottom.

#[global] Instance Face_eq_dec : EqDecision Face.
Proof. solve_decision. Defined.

(** [item.priority]: a tier name in the container code, a number in the
    item model. *)
Inductive jsprio :=
| PrioStr (s : string)
| PrioNum (n : Z).

#[global] Instance jsprio_eq_dec : EqDecision jsprio.
Proof. solve_decision. Defined.

Record ItemData := mkItemData {
  item_id : string;
  item_name : string;
  item_dimensions : Dimensions;
  item_mass : Q;
  item_priority : jsprio;
  item_expiryDate : option Z;
  item_preferredZone : option string
}.

(** An entry of [itemsData]: [{...itemData, position, orientation,
    effectiveDimensions}]; [data] holds the spread fields. *)
Record PlacedItem := mkPlacedItem {
  data : ItemData;
  position : Position;
  orientation : Orientation;
  effectiveDimensions : Dimensions
}.

(** A [Set] of item ids, in insertion order. *)
Abbreviation IdSet := (list string).

(** [set.add(id)] *)
Definition ids_add (id : string) (s : IdSet) : IdSet :=
  if bool_decide (id ∈ s) then s else s ++ [id].

(** [set.delete(id)] *)
Definition ids_delete (id : string) (s : IdSet) : IdSet :=
  filter (λ x, x ≠ id) s.

(** [this.priorityItems]: the object literal
    [{ high: new Set(), medium: new Set(), low: new Set() }].  No method
    adds or removes a property, so the object is the three sets. *)
Record PriorityItems := mkPriorityItems {
  high : IdSet;
  medium : IdSet;
  low : IdSet
}.

(** The container object: the fields of SpatialGrid, EnhancedSpatialGrid and
    Container that the modelled methods read or write ([cid] is the field
    [id], [tempState] the field [_tempState]).  The keys of [itemsByExpiry]
    are the strings [expiryDate.toISOString().split('T')[0]], one for each
    UTC day; the model uses the number of the day for the key. *)
Record Container := mkContainer {
  cid : string;
  zone : string;
  dimensions : Dimensions;
  openFace : Face;
  grid : Grid;
  itemsData : gmap string PlacedItem;
  totalVolume : Z;
  usedVolume : Z;
  priorityItems : PriorityItems;
  itemsByExpiry : gmap Z IdSet;
  accessHistory : list (string * string);
  tempState : option Grid
}.

Definition set_grid (g : Grid) (c : Container) : Container :=
  mkContainer (cid c) (zone c) (dimensions c) (openFace c) g (itemsData c)
              (totalVolume c) (usedVolume c) (priorityItems c) (itemsByExpiry c)
              (accessHistory c) (tempState c).

Definition set_itemsData (m : gmap string PlacedItem) (c : Container) : Container :=
  mkContainer (cid c) (zone c) (dimensions c) (openFace c) (grid c) m
              (totalVolume c) (usedVolume c) (priorityItems c) (itemsByExpiry c)
              (accessHistory c) (tempState c).

Definition set_usedVolume (v : Z) (c : Container) : Container :=
  mkContainer (cid c) (zone c) (dimensions c) (openFace c) (grid c) (itemsData c)
              (totalVolume c) v (priorityItems c) (itemsByExpiry c)
              (accessHistory c) (tempState c).

Definition set_priorityItems (p : PriorityItems) (c : Container) : Container :=
  mkContainer (cid c) (zone c) (dimensions c) (openFace c) (grid c) (itemsData c)
              (totalVolume c) (usedVolume c) p (itemsByExpiry c)
              (accessHistory c) (tempState c).

Definition set_itemsByExpiry (m : gmap Z IdSet) (c : Container) : Container :=
  mkContainer (cid c) (zone c) (dimensions c) (openFace c) (grid c) (itemsData c)
              (totalVolume c) (usedVolume c) (priorityItems c) m
              (accessHistory c) (tempState c).

Definition set_accessHistory (h : list (string * string)) (c : Container) : Container :=
  mkContainer (cid c) (zone c) (dimensions c) (openFace c) (grid c) (itemsData c)
              (totalVolume c) (usedVolume c) (priorityItems c) (itemsByExpiry c)
              h (tempState c).

Definition set_tempState (t : option Grid) (c : Container) : Container :=
  mkContainer (cid c) (zone c) (dimensions c) (openFace c) (grid c) (itemsData c)
              (totalVolume c) (usedVolume c) (priorityItems c) (itemsByExpiry c)
              (accessHistory c) t.

Definition volume (d : Dimensions) : Z := width d * depth d * height d.

(** ** SpatialGrid: the base class *)

(** Modelled from the spec: the SpatialGrid constructor, whose file is
    missing.  "Logical array G[x][y][z] sized to container dims", every cell
    empty. *)
Definition empty_grid (dims : Dimensions) : Grid :=
  replicate (Z.to_nat (width dims))
    (replicate (Z.to_nat (depth dims))
      (replicate (Z.to_nat (height dims)) None)).

(** Modelled from the spec: SpatialGrid.isWithinBounds, whose file is
    missing.  A cell is inside the container when each coordinate is
    non-negative and below the container's size on that axis. *)
Definition isWithinBounds (dims : Dimensions) (p : Position) : bool :=
  bool_decide (0 ≤ px p < width dims ∧ 0 ≤ py p < depth dims ∧ 0 ≤ pz p < height dims).

(** Modelled from the spec: SpatialGrid.isPositionOccupied, whose file is
    missing.  "cellAt(pos) → id | empty": a position is occupied when it is
    inside the container and its cell holds an id. *)
Definition isPositionOccupied (c : Container) (p : Position) : bool :=
  isWithinBounds (dimensions c) p &&
  match cellAt (grid c) p with
  | Some (Some _) => true
  | _ => false
  end.

(** Modelled from the spec: SpatialGrid.isSpaceFree, whose file is missing.
    "isFree(pos, dims) → bool: true iff every cell of the box is inside the
    container and empty." *)
Definition isSpaceFree (c : Container) (pos : Position) (dims : Dimensions) : bool :=
  forallb (λ p, isWithinBounds (dimensions c) p &&
                bool_decide (cellAt (grid c) p = Some None))
          (box_cells pos dims).

(** Filling a list of cells with one value, one write after the other. *)
Definition fill_cells (v : cell) (cells : list Position) (g : Grid) : Grid :=
  foldl (λ g p, grid_write g p v) g cells.

(** Modelled from the spec: SpatialGrid.occupySpace, whose file is missing.
    "occupy(pos, dims, id): precondition isFree holds; fills the box with
    id." *)
Definition occupySpace (c : Container) (pos : Position) (dims : Dimensions)
    (id : string) : Container :=
  set_grid (fill_cells (Some id) (box_cells pos dims) (grid c)) c.

Definition clear_id (id : string) (c : cell) : cell :=
  if bool_decide (c = Some id) then None else c.

(** Rewriting every cell of the grid. *)
Definition grid_map (f : cell → cell) (g : Grid) : Grid :=
  (λ plane : list (list cell), (λ col : list cell, f <$> col) <$> plane) <$> g.

(** Modelled from the spec: SpatialGrid.releaseSpace, whose file is missing.
    "release(id): clears every cell currently holding id.  Idempotent for an
    unknown id (returns a not-found signal instead)."  The boolean tells
    whether some cell held the id. *)
Definition releaseSpace (c : Container) (id : string) : bool * Container :=
  (bool_decide (Exists (Exists (Exists (λ x, x = Some id))) (grid c)),
   set_grid (grid_map (clear_id id) (grid c)) c).

(** ** EnhancedSpatialGrid (basic-operations.js) *)

(** A monadic left fold: the body of a loop that may throw. *)
Fixpoint foldM {A B} (f : B → A → outcome B) (acc : B) (l : list A) : outcome B :=
  match l with
  | [] => Ok acc
  | a :: l' => b ← f acc a; foldM f b l'
  end.

(** [new Container(id, dimensions, zone, openFace)], through the three
    constructors of the inheritance chain. *)
Definition new_Container (id : string) (dims : Dimensions) (zn : string)
    (face : Face) : Container :=
  mkContainer id zn dims face (empty_grid dims) ∅ (volume dims) 0
              (mkPriorityItems [] [] []) ∅ [] None.

(** [placeItem(itemData, position, orientation)] *)
Definition placeItem (c : Container) (itemData : ItemData) (pos : Position)
    (o : Orientation) : bool * Container :=
  let effectiveDims := getEffectiveDimensions o (item_dimensions itemData) in
  if negb (isSpaceFree c pos effectiveDims) then (false, c)
  else
    let c1 := occupySpace c pos effectiveDims (item_id itemData) in
    (true, set_itemsData
             (<[item_id itemData := mkPlacedItem itemData pos o effectiveDims]>
                (itemsData c1)) c1).

Definition not_found (itemId : string) : string :=
  "Item with ID " +:+ itemId +:+ " not found".

(** [if (!this.itemsData.has(itemId)) throw ...; this.itemsData.get(itemId)] *)
Definition get_item (c : Container) (itemId : string) (msg : string)
    : outcome PlacedItem :=
  match itemsData c !! itemId with
  | Some it => Ok it
  | None => Throw msg
  end.

(** The [switch (this.openFace)] of [isItemVisible]. *)
Definition touches_open_face (c : Container) (it : PlacedItem) : bool :=
  let pos := position it in
  let dims := effectiveDimensions it in
  match openFace c with
  | Front => bool_decide (py pos = 0)
  | Back => bool_decide (py pos + depth dims - 1 = depth (dimensions c) - 1)
  | Left => bool_decide (px pos = 0)
  | Right => bool_decide (px pos + width dims - 1 = width (dimensions c) - 1)
  | Top => bool_decide (pz pos + height dims - 1 = height (dimensions c) - 1)
  | Bottom => bool_decide (pz pos = 0)
  end.

(** [isItemVisible(itemId)] *)
Definition isItemVisible (c : Container) (itemId : string) : outcome bool :=
  it ← get_item c itemId (not_found itemId);
  mret (touches_open_face c it).

(** The cells that [isCellVisible(x, y, z)] walks through, in loop order. *)
Definition sight_line (c : Container) (p : Position) : list Position :=
  match openFace c with
  | Front => (λ checkY, mkPosition (px p) checkY (pz p)) <$> range 0 (py p)
  | Back => (λ checkY, mkPosition (px p) checkY (pz p))
              <$> range (py p + 1) (depth (dimensions c))
  | Left => (λ checkX, mkPosition checkX (py p) (pz p)) <$> range 0 (px p)
  | Right => (λ checkX, mkPosition checkX (py p) (pz p))
               <$> range (px p + 1) (width (dimensions c))
  | Top => (λ checkZ, mkPosition (px p) (py p) checkZ)
             <$> range (pz p + 1) (height (dimensions c))
  | Bottom => (λ checkZ, mkPosition (px p) (py p) checkZ) <$> range 0 (pz p)
  end.

(** The loop of [isCellVisible]: [return false] at the first cell that is
    occupied by another item, [return true] after the last one. *)
Fixpoint clear_path (c : Container) (itemId : string) (path : list Position)
    : outcome bool :=
  match path with
  | [] => Ok true
  | p :: rest =>
      if isPositionOccupied c p then
        v ← grid_read (grid c) (px p) (py p) (pz p);
        if bool_decide (v ≠ JString itemId) then Ok false
        else clear_path c itemId rest
      else clear_path c itemId rest
  end.

Definition isCellVisible (c : Container) (itemId : string) (p : Position)
    : outcome bool :=
  clear_path c itemId (sight_line c p).

(** The cells of an item, enumerated by the offsets dx, dy, dz. *)
Definition item_cells (pos : Position) (dims : Dimensions) : list Position :=
  dx ← range 0 (width dims);
  dy ← range 0 (depth dims);
  dz ← range 0 (height dims);
  [mkPosition (px pos + dx) (py pos + dy) (pz pos + dz)].

Definition count_visible (c : Container) (itemId : string)
    (cells : list Position) : outcome Z :=
  foldM (λ visibleCells p,
           v ← isCellVisible c itemId p;
           mret (if v : bool then visibleCells + 1 else visibleCells))
        0 cells.

(** [calculateVisibilityScore(itemId)] *)
Definition calculateVisibilityScore (c : Container) (itemId : string) : outcome num :=
  it ← get_item c itemId (not_found itemId);
  let itemPos := position it in
  let itemDims := effectiveDimensions it in
  let totalCells := width itemDims * depth itemDims * height itemDims in
  visibleCells ← count_visible c itemId (item_cells itemPos itemDims);
  mret (num_mul (num_div (num_of_Z visibleCells) (num_of_Z totalCells))
                (num_of_Z 100)).

(** [blockingItems.add(v)] on a [Set], kept in insertion order. *)
Definition set_add (v : jsval) (s : list jsval) : list jsval :=
  if bool_decide (v ∈ s) then s else s ++ [v].

(** The three nested loops of [checkCellsInPath], bounds included. *)
Definition cells_between (startX startY startZ endX endY endZ : Z) : list Position :=
  x ← range_incl startX endX;
  y ← range_incl startY endY;
  z ← range_incl startZ endZ;
  [mkPosition x y z].

(** The arguments of [checkCellsInPath] for each open face. *)
Definition corridor (c : Container) (it : PlacedItem) : list Position :=
  let itemPos := position it in
  let itemDims := effectiveDimensions it in
  match openFace c with
  | Front =>
      cells_between (px itemPos) 0 (pz itemPos)
        (px itemPos + width itemDims - 1) (py itemPos - 1)
        (pz itemPos + height itemDims - 1)
  | Back =>
      cells_between (px itemPos) (py itemPos + depth itemDims) (pz itemPos)
        (px itemPos + width itemDims - 1) (depth (dimensions c) - 1)
        (pz itemPos + height itemDims - 1)
  | Left =>
      cells_between 0 (py itemPos) (pz itemPos)
        (px itemPos - 1) (py itemPos + depth itemDims - 1)
        (pz itemPos + height itemDims - 1)
  | Right =>
      cells_between (px itemPos + width itemDims) (py itemPos) (pz itemPos)
        (width (dimensions c) - 1) (py itemPos + depth itemDims - 1)
        (pz itemPos + height itemDims - 1)
  | Top =>
      cells_between (px itemPos) (py itemPos) (pz itemPos + height itemDims)
        (px itemPos + width itemDims - 1) (py itemPos + depth itemDims - 1)
        (height (dimensions c) - 1)
  | Bottom =>
      cells_between (px itemPos) (py itemPos) 0
        (px itemPos + width itemDims - 1) (py itemPos + depth itemDims - 1)
        (pz itemPos - 1)
  end.

(** The body of the innermost loop of [checkCellsInPath]. *)
Definition check_cell (g : Grid) (itemId : string) (blockingItems : list jsval)
    (p : Position) : outcome (list jsval) :=
  cellContent ← grid_read g (px p) (py p) (pz p);
  mret (if bool_decide (cellContent ≠ JNull) && bool_decide (cellContent ≠ JString itemId)
        then set_add cellContent blockingItems
        else blockingItems).

(** [findBlockingItems(itemId)]: [Array.from] of the set. *)
Definition findBlockingItems (c : Container) (itemId : string)
    : outcome (list jsval) :=
  it ← get_item c itemId (not_found itemId);
  foldM (check_cell (grid c) itemId) [] (corridor c it).

(** The two [switch] statements of [calculateAccessibilityScore]. *)
Definition distance_to_face (c : Container) (it : PlacedItem) : Z :=
  let itemPos := position it in
  let dims := effectiveDimensions it in
  match openFace c with
  | Front => py itemPos
  | Back => depth (dimensions c) - (py itemPos + depth dims)
  | Left => px itemPos
  | Right => width (dimensions c) - (px itemPos + width dims)
  | Top => height (dimensions c) - (pz itemPos + height dims)
  | Bottom => pz itemPos
  end.

Definition maxDistance (c : Container) : Z :=
  match openFace c with
  | Front | Back => depth (dimensions c)
  | Left | Right => width (dimensions c)
  | Top | Bottom => height (dimensions c)
  end.

(** [calculateAccessibilityScore(itemId)] *)
Definition calculateAccessibilityScore (c : Container) (itemId : string)
    : outcome num :=
  it ← get_item c itemId (not_found itemId);
  visibilityScore ← calculateVisibilityScore c itemId;
  let visibilityComponent :=
    num_mul (num_div visibilityScore (num_of_Z 100)) (num_of_Z 40) in
  blockingItems ← findBlockingItems c itemId;
  let blockingComponent :=
    num_of_Z (Z.max 0 (40 - Z.of_nat (length blockingItems) * 10)) in
  let distance := distance_to_face c it in
  let distanceComponent :=
    num_max (num_of_Z 0)
      (num_sub (num_of_Z 20)
         (num_mul (num_div (num_of_Z distance) (num_of_Z (maxDistance c)))
                  (num_of_Z 20))) in
  mret (num_add (num_add visibilityComponent blockingComponent) distanceComponent).

Record Plan := mkPlan {
  targetItem : string;
  itemsToMove : list jsval;
  steps : list string
}.

(** The body of [for (const blockingItemId of blockingItems)]: one push on
    each of the two arrays. *)
Definition plan_step (targetItemId : string) (acc : list jsval * list string)
    (blockingItemId : jsval) : list jsval * list string :=
  (acc.1 ++ [blockingItemId],
   acc.2 ++ ["Move item " +:+ to_string blockingItemId
             +:+ " to access " +:+ targetItemId]).

(** [generateRetrievalPlan(targetItemId)] *)
Definition generateRetrievalPlan (c : Container) (targetItemId : string)
    : outcome Plan :=
  _ ← get_item c targetItemId
        ("Target item with ID " +:+ targetItemId +:+ " not found");
  visible ← isItemVisible c targetItemId;
  direct ← (if visible : bool then
              b ← findBlockingItems c targetItemId;
              mret (bool_decide (length b = 0%nat))
            else mret false);
  if direct : bool then
    mret (mkPlan targetItemId []
            ["Retrieve item " +:+ targetItemId +:+ " directly"])
  else
    blockingItems ← findBlockingItems c targetItemId;
    let '(itemsToMove, steps) := foldl (plan_step targetItemId) ([], []) blockingItems in
    mret (mkPlan targetItemId itemsToMove
            (steps ++ ["Retrieve item " +:+ targetItemId])).

(** ** Container (container management) *)

(** A method that writes to the container and may throw is a function from
    the object before the call to the result, or the exception, and the
    object after the call: what was written before a [throw] stays
    written. *)

(** The property names that an object literal inherits from
    [Object.prototype]. *)
Definition object_prototype_names : list string :=
  [ "constructor"; "__defineGetter__"; "__defineSetter__"; "hasOwnProperty";
    "__lookupGetter__"; "__lookupSetter__"; "isPrototypeOf";
    "propertyIsEnumerable"; "toString"; "valueOf"; "__proto__";
    "toLocaleString" ].

Inductive Tier := High | Medium | Low.

(** What the property read [this.priorityItems[priority]] finds: one of the
    three sets, a function or object inherited from [Object.prototype], or
    [undefined]. *)
Inductive PriorityProperty :=
| OwnSet (tier : Tier)
| Inherited
| Undefined.

(** [this.priorityItems[priority]].  A number is read under its decimal
    string, which names no property. *)
Definition priorityItems_at (priority : jsprio) : PriorityProperty :=
  match priority with
  | PrioStr s =>
      if bool_decide (s = "high") then OwnSet High
      else if bool_decide (s = "medium") then OwnSet Medium
      else if bool_decide (s = "low") then OwnSet Low
      else if bool_decide (s ∈ object_prototype_names) then Inherited
      else Undefined
  | PrioNum _ => Undefined
  end.

(** Rewriting one of the three sets in place. *)
Definition tier_update (t : Tier) (f : IdSet → IdSet) (p : PriorityItems)
    : PriorityItems :=
  match t with
  | High => mkPriorityItems (f (high p)) (medium p) (low p)
  | Medium => mkPriorityItems (high p) (f (medium p)) (low p)
  | Low => mkPriorityItems (high p) (medium p) (f (low p))
  end.

(** [if (this.priorityItems[priority]) this.priorityItems[priority].add(id)],
    and the same with [delete]: an inherited property is truthy and has no
    method [add] or [delete], so the call throws a TypeError. *)
Definition update_priorityItems (f : string → IdSet → IdSet) (c : Container)
    (priority : jsprio) (id : string) : outcome Container :=
  match priorityItems_at priority with
  | OwnSet t => Ok (set_priorityItems (tier_update t (f id) (priorityItems c)) c)
  | Inherited => Throw "TypeError"
  | Undefined => Ok c
  end.

(** The largest time value of a [Date], in milliseconds on either side of
    the epoch. *)
Definition maxTime : Z := 8640000000000000.

(** [expiryDate.toISOString().split('T')[0]]: the UTC day of the date, as
    the number of days since the epoch.  A time value outside the range of
    [Date] stands for an invalid date, on which [toISOString] throws a
    RangeError. *)
Definition toISODate (t : Z) : outcome Z :=
  if bool_decide (- maxTime ≤ t ≤ maxTime) then Ok (t `div` 86400000)
  else Throw "RangeError: Invalid time value".

(** The expiry part of [updateContainerMetricsAfterAdd]. *)
Definition track_expiry (c : Container) (expiryDate : option Z) (id : string)
    : outcome Container :=
  match expiryDate with
  | Some t =>
      expiryStr ← toISODate t;
      let ids := default [] (itemsByExpiry c !! expiryStr) in
      mret (set_itemsByExpiry (<[expiryStr := ids_add id ids]> (itemsByExpiry c)) c)
  | None => mret c
  end.

(** The expiry part of [updateContainerMetricsAfterRemove]: the set of the
    day loses the id, and the day is dropped when its set becomes empty. *)
Definition untrack_expiry (c : Container) (expiryDate : option Z) (id : string)
    : outcome Container :=
  match expiryDate with
  | Some t =>
      expiryStr ← toISODate t;
      match itemsByExpiry c !! expiryStr with
      | Some ids =>
          let ids := ids_delete id ids in
          if bool_decide (length ids = 0%nat)
          then mret (set_itemsByExpiry (delete expiryStr (itemsByExpiry c)) c)
          else mret (set_itemsByExpiry (<[expiryStr := ids]> (itemsByExpiry c)) c)
      | None => mret c
      end
  | None => mret c
  end.

(** [updateContainerMetricsAfterAdd(item)]: the priority index, the expiry
    index, then the used volume. *)
Definition updateContainerMetricsAfterAdd (c : Container) (item : ItemData)
    : outcome unit * Container :=
  match update_priorityItems ids_add c (item_priority item) (item_id item) with
  | Throw msg => (Throw msg, c)
  | Ok c1 =>
      match track_expiry c1 (item_expiryDate item) (item_id item) with
      | Throw msg => (Throw msg, c1)
      | Ok c2 =>
          (Ok (), set_usedVolume (usedVolume c2 + volume (item_dimensions item)) c2)
      end
  end.

(** [updateContainerMetricsAfterRemove(itemData)] *)
Definition updateContainerMetricsAfterRemove (c : Container) (itemData : PlacedItem)
    : outcome unit * Container :=
  let item := data itemData in
  match update_priorityItems ids_delete c (item_priority item) (item_id item) with
  | Throw msg => (Throw msg, c)
  | Ok c1 =>
      match untrack_expiry c1 (item_expiryDate item) (item_id item) with
      | Throw msg => (Throw msg, c1)
      | Ok c2 =>
          (Ok (), set_usedVolume (usedVolume c2 - volume (item_dimensions item)) c2)
      end
  end.

(** The exception that the two metrics updates throw for an item, if any:
    a TypeError when its priority names an inherited property, a RangeError
    when its expiry date is invalid. *)
Definition metrics_error (item : ItemData) : option string :=
  match priorityItems_at (item_priority item) with
  | Inherited => Some "TypeError"
  | _ =>
      match item_expiryDate item with
      | Some t =>
          if bool_decide (- maxTime ≤ t ≤ maxTime) then None
          else Some "RangeError: Invalid time value"
      | None => None
      end
  end.

(** The result of a method that returns nothing, given its exception. *)
Definition completes (e : option string) : outcome unit :=
  match e with
  | Some msg => Throw msg
  | None => Ok ()
  end.

(** [recordAccess(itemId, operation)], without the wall-clock timestamp. *)
Definition recordAccess (c : Container) (itemId operation : string) : Container :=
  set_accessHistory (accessHistory c ++ [(itemId, operation)]) c.

(** [isItemAccessible(itemId)]: [&&] evaluates its right operand only when
    the left one is true. *)
Definition isItemAccessible (c : Container) (itemId : string) : outcome bool :=
  visible ← isItemVisible c itemId;
  if visible : bool then
    b ← findBlockingItems c itemId;
    mret (bool_decide (length b = 0%nat))
  else mret false.

Inductive RemoveResult :=
| Removed (item : PlacedItem)
| RemoveFailed (reason : string) (retrievalPlan : option Plan).

(** [removeItem(itemId)].  The two queries do not write to the container;
    an exception of the metrics update leaves the space released. *)
Definition removeItem (c : Container) (itemId : string)
    : outcome RemoveResult * Container :=
  match itemsData c !! itemId with
  | None => (Ok (RemoveFailed (not_found itemId) None), c)
  | Some itemData =>
      match isItemAccessible c itemId with
      | Throw msg => (Throw msg, c)
      | Ok isAccessible =>
          if negb isAccessible then
            match generateRetrievalPlan c itemId with
            | Throw msg => (Throw msg, c)
            | Ok plan =>
                (Ok (RemoveFailed "Item is not directly accessible" (Some plan)), c)
            end
          else
            let c1 := (releaseSpace c itemId).2 in
            match updateContainerMetricsAfterRemove c1 itemData with
            | (Throw msg, c2) => (Throw msg, c2)
            | (Ok _, c2) => (Ok (Removed itemData), recordAccess c2 itemId "remove")
            end
      end
  end.

(** [JSON.parse(JSON.stringify(grid))]: a deep copy.  A grid of [null] and
    strings survives the round trip unchanged, and values of the model are
    never aliased, so the copy is the grid itself. *)
Definition json_copy (g : Grid) : Grid := g.

(** [temporarilyOccupySpace(position, dimensions)] *)
Definition temporarilyOccupySpace (c : Container) (pos : Position)
    (dims : Dimensions) : Container :=
  let c1 := match tempState c with
            | None => set_tempState (Some (json_copy (grid c))) c
            | Some _ => c
            end in
  foldl (λ c p,
           if isWithinBounds (dimensions c) p
           then set_grid (grid_write (grid c) p (Some "TEMP_OCCUPIED")) c
           else c)
        c1 (box_cells pos dims).

(** [restoreTemporaryState()] *)
Definition restoreTemporaryState (c : Container) : Container :=
  match tempState c with
  | Some saved => set_tempState None (set_grid (json_copy saved) c)
  | None => c
  end.

Record Space := mkSpace {
  space_position : Position;
  space_dimensions : Dimensions
}.

Record EmptySpace := mkEmptySpace {
  es_position : Position;
  es_dimensions : Dimensions;
  es_volume : Z
}.

(** The object returned by [analyzeSpaceFragmentation]; the index is kept
    as a number, before [toFixed(2)]. *)
Record FragmentationReport := mkReport {
  fragmentationIndex : num;
  largestEmptyVolume : Z;
  emptySpaces : nat;
  contiguousSpaces : list EmptySpace
}.

Section Fragmentation.

(** SpatialGrid.findLargestEmptySpace is not part of the sources.  The
    analysis below is modelled for any query that computes its answer
    (a space, or [null]) from the object without writing to it. *)
Variable findLargestEmptySpace : Container → option Space.

(** The [while] loop of [analyzeSpaceFragmentation].  It stops when the
    condition fails or at the [break] after the eleventh space; [fuel]
    bounds the number of iterations and [None] means it ran out. *)
Fixpoint frag_loop (fuel : nat) (c : Container) (spaces : list EmptySpace)
    (totalEmptyVolume : Z) (largestSpace : option Space)
    : option (Container * list EmptySpace) :=
  match largestSpace with
  | None => Some (c, spaces)
  | Some sp =>
      if bool_decide (totalEmptyVolume < totalVolume c - usedVolume c) then
        match fuel with
        | O => None
        | S fuel' =>
            let spaceVolume := volume (space_dimensions sp) in
            let spaces' := spaces ++ [mkEmptySpace (space_position sp)
                                        (space_dimensions sp) spaceVolume] in
            let total' := totalEmptyVolume + spaceVolume in
            let c' := temporarilyOccupySpace c (space_position sp)
                        (space_dimensions sp) in
            let largest' := findLargestEmptySpace c' in
            if bool_decide (10 < length spaces')%nat then Some (c', spaces')
            else frag_loop fuel' c' spaces' total' largest'
        end
      else Some (c, spaces)
  end.

(** [analyzeSpaceFragmentation()]: the report and the object afterwards. *)
Definition analyzeSpaceFragmentation (c : Container)
    : option (FragmentationReport * Container) :=
  match frag_loop 11 c [] 0 (findLargestEmptySpace c) with
  | None => None
  | Some (c1, spaces) =>
      let c2 := restoreTemporaryState c1 in
      let largestEmptyVolume :=
        match spaces with
        | [] => 0
        | s :: _ => es_volume s
        end in
      let fragmentationIndex :=
        num_div (num_of_Z largestEmptyVolume)
                (num_of_Z (totalVolume c2 - usedVolume c2)) in
      Some (mkReport fragmentationIndex largestEmptyVolume (length spaces) spaces,
            c2)
  end.

End Fragmentation.

(** ** The placement ranker: priority adjustment of [recommendPlacement] *)

(** [(expiry - now) / (1000 * 60 * 60 * 24)] *)
Definition daysUntilExpiry (expiry now : Z) : Q :=
  (inject_Z (expiry - now) / inject_Z (1000 * 60 * 60 * 24))%Q.

(** Step 4 of the scoring function: the value of [priorityMultiplier] when
    the weighted score is computed, [now] being the result of [new Date()]. *)
Definition priorityMultiplier (item : ItemData) (now : Z) : Q :=
  let m0 : Q := 1.0%Q in
  let m1 : Q :=
    if bool_decide (item_priority item = PrioStr "high") then 1.5%Q
    else if bool_decide (item_priority item = PrioStr "low") then 0.8%Q
    else m0 in
  match item_expiryDate item with
  | Some expiry =>
      if Qlt_le_dec (daysUntilExpiry expiry now) 30 then (m1 + 0.5)%Q else m1
  | None => m1
  end.

(** The weighted score of a candidate, from its three component scores. *)
Definition weightedScore (item : ItemData) (now : Z)
    (accessibilityScore utilizationScore compatibilityScore : Q) : Q :=
  ((accessibilityScore * 0.5 + utilizationScore * 0.3 + compatibilityScore * 0.2)
   * priorityMultiplier item now)%Q.



(** ** Container states *)

(** The grid is the array the constructor allocated: [width] planes of
    [depth] columns of [height] cells. *)
Definition grid_shape (dims : Dimensions) (g : Grid) : Prop :=
  length g = Z.to_nat (width dims) ∧
  Forall (λ plane : list (list cell),
            length plane = Z.to_nat (depth dims) ∧
            Forall (λ col : list cell, length col = Z.to_nat (height dims)) plane) g.

(** The half-open box at [pos] of size [d] lies inside the container. *)
Definition box_inside (dims : Dimensions) (pos : Position) (d : Dimensions) : Prop :=
  (0 ≤ px pos ∧ px pos + width d ≤ width dims) ∧
  (0 ≤ py pos ∧ py pos + depth d ≤ depth dims) ∧
  (0 ≤ pz pos ∧ pz pos + height d ≤ height dims).

Definition item_ok (dims : Dimensions) (it : PlacedItem) : Prop :=
  positive_dims (effectiveDimensions it) ∧
  box_inside dims (position it) (effectiveDimensions it).

(** The invariant of the container object. *)
Definition wf (c : Container) : Prop :=
  grid_shape (dimensions c) (grid c) ∧
  map_Forall (λ _ it, item_ok (dimensions c) it) (itemsData c) ∧
  tempState c = None.

(** States reachable from a fresh container by accepted placements (with
    or without the metrics update that [addItem] performs afterwards) and by
    [removeItem] calls, whether these calls return or throw. *)
Inductive reachable : Container → Prop :=
| reach_new id dims zn face :
    positive_dims dims →
    reachable (new_Container id dims zn face)
| reach_place c itemData pos o c' :
    reachable c →
    positive_dims (item_dimensions itemData) →
    valid_orientation o →
    placeItem c itemData pos o = (true, c') →
    reachable c'
| reach_metrics c item r c' :
    reachable c →
    updateContainerMetricsAfterAdd c item = (r, c') →
    reachable c'
| reach_remove c itemId r c' :
    reachable c →
    removeItem c itemId = (r, c') →
    reachable c'.

(** An item is placed when the catalogue has its record and every cell of
    its box holds its id.  ([removeItem] clears the cells and keeps the
    record.) *)
Definition placed (c : Container) (itemId : string) (it : PlacedItem) : Prop :=
  itemsData c !! itemId = Some it ∧
  ∀ p, p ∈ box_cells (position it) (effectiveDimensions it) →
       cellAt (grid c) p = Some (Some itemId).

(** The metrics updates write to the two indexes and to the used volume,
    and to nothing else. *)
Definition same_store (c c' : Container) : Prop :=
  cid c' = cid c ∧ zone c' = zone c ∧ dimensions c' = dimensions c ∧
  openFace c' = openFace c ∧ grid c' = grid c ∧ itemsData c' = itemsData c ∧
  totalVolume c' = totalVolume c ∧ accessHistory c' = accessHistory c ∧
  tempState c' = tempState c.

(** The accessible case of removeItem: the space is released, the metrics
    are updated and, unless that update throws, the access is recorded. *)
Definition removed (c : Container) (itemId : string) (it : PlacedItem)
    (r : outcome RemoveResult) (c' : Container) : Prop :=
  ∃ c2, updateContainerMetricsAfterRemove (releaseSpace c itemId).2 it
          = (completes (metrics_error (data it)), c2) ∧
        same_store (releaseSpace c itemId).2 c2 ∧
        match metrics_error (data it) with
        | None =>
            r = Ok (Removed it) ∧ c' = recordAccess c2 itemId "remove" ∧
            usedVolume c2 = usedVolume c - volume (item_dimensions (data it))
        | Some msg =>
            r = Throw msg ∧ c' = c2 ∧ usedVolume c2 = usedVolume c
        end.

(** No cell of the grid holds the id. *)
Definition id_absent (g : Grid) (itemId : string) : Prop :=
  Forall (Forall (Forall (λ v : cell, v ≠ Some itemId))) g.

(** The footprint of an item: the positions whose two coordinates
    perpendicular to the extraction axis fall inside the item's box. *)
Definition in_footprint (c : Container) (it : PlacedItem) (p : Position) : Prop :=
  let pos := position it in
  let d := effectiveDimensions it in
  let inx := px pos ≤ px p < px pos + width d in
  let iny := py pos ≤ py p < py pos + depth d in
  let inz := pz pos ≤ pz p < pz pos + height d in
  match openFace c with
  | Front | Back => inx ∧ inz
  | Left | Right => iny ∧ inz
  | Top | Bottom => inx ∧ iny
  end.

(** The cells strictly between the item's near face and the open face,
    along the extraction axis. *)
Definition in_front_of (c : Container) (it : PlacedItem) (p : Position) : Prop :=
  let pos := position it in
  let d := effectiveDimensions it in
  match openFace c with
  | Front => 0 ≤ py p < py pos
  | Back => py pos + depth d ≤ py p < depth (dimensions c)
  | Left => 0 ≤ px p < px pos
  | Right => px pos + width d ≤ px p < width (dimensions c)
  | Top => pz pos + height d ≤ pz p < height (dimensions c)
  | Bottom => 0 ≤ pz p < pz pos
  end.

(** The extraction corridor: the item's box projected along the extraction
    axis onto the open face, from the near face to the open face. *)
Definition in_corridor (c : Container) (it : PlacedItem) (p : Position) : Prop :=
  in_footprint c it p ∧ in_front_of c it p.

(** The grid obtained by rewriting every cell as a function of its
    position and content. *)
Definition grid_imap (f : Position → cell → cell) (g : Grid) : Grid :=
  imap (λ x (plane : list (list cell)),
          imap (λ y (col : list cell),
                  imap (λ z (v : cell),
                          f (mkPosition (Z.of_nat x) (Z.of_nat y) (Z.of_nat z)) v)
                       col)
               plane)
       g.

(** ** models/Position.ts and models/Container.ts *)

Module TSModels.

(** [Coordinate]: a point, with one number per axis. *)
Record Coordinate := mkCoordinate { width : Z; depth : Z; height : Z }.

#[global] Instance Coordinate_eq_dec : EqDecision Coordinate.
Proof. solve_decision. Defined.

(** The double nearest to an integer, ties going to the even significand:
    an integer below 2^53 in size is a double; a larger one keeps its 53
    leading bits.  (Integers beyond the largest double, near 2^1024, are
    outside the model.) *)
Definition round_double (z : Z) : Z :=
  let a := Z.abs z in
  if bool_decide (a < 2 ^ 53) then z
  else
    let e := Z.log2 a - 52 in
    let q := a `div` 2 ^ e in
    let r := a `mod` 2 ^ e in
    let half := 2 ^ (e - 1) in
    let q' := if bool_decide (r < half) then q
              else if bool_decide (half < r) then q + 1
              else if Z.even q then q else q + 1 in
    Z.sgn z * (q' * 2 ^ e).

(** [distanceTo(other)]: the Manhattan distance.  Each of the three
    differences and each of the two sums is rounded to a double;
    [Math.abs] is exact. *)
Definition distanceTo (a other : Coordinate) : Z :=
  let dw := Z.abs (round_double (width a - width other)) in
  let dd := Z.abs (round_double (depth a - depth other)) in
  let dh := Z.abs (round_double (height a - height other)) in
  round_double (round_double (dw + dd) + dh).

(** Coordinates of at most 2^49 in size on each axis: all the sums of
    [distanceTo], and the sum of two distances, stay below 2^53. *)
Definition small (a : Coordinate) : Prop :=
  Z.abs (width a) ≤ 2 ^ 49 ∧ Z.abs (depth a) ≤ 2 ^ 49 ∧ Z.abs (height a) ≤ 2 ^ 49.

(** [Position]: a box given by its start and end corners. *)
Record Position := mkPosition {
  startCoordinates : Coordinate;
  endCoordinates : Coordinate
}.

#[global] Instance Position_eq_dec : EqDecision Position.
Proof. solve_decision. Defined.

(** [overlaps(other)] *)
Definition overlaps (a other : Position) : bool :=
  negb (bool_decide (width (endCoordinates a) ≤ width (startCoordinates other))
        || bool_decide (width (endCoordinates other) ≤ width (startCoordinates a))
        || bool_decide (depth (endCoordinates a) ≤ depth (startCoordinates other))
        || bool_decide (depth (endCoordinates other) ≤ depth (startCoordinates a))
        || bool_decide (height (endCoordinates a) ≤ height (startCoordinates other))
        || bool_decide (height (endCoordinates other) ≤ height (startCoordinates a))).

(** [getVolume()] of a position *)
Definition getVolume (p : Position) : Z :=
  (width (endCoordinates p) - width (startCoordinates p))
  * (depth (endCoordinates p) - depth (startCoordinates p))
  * (height (endCoordinates p) - height (startCoordinates p)).

(** [isVisibleFromOpenFace()] *)
Definition isVisibleFromOpenFace (p : Position) : bool :=
  bool_decide (depth (startCoordinates p) = 0).

(** [distanceFromOpenFace()] *)
Definition distanceFromOpenFace (p : Position) : Z := depth (startCoordinates p).

(** The point lies in the half-open box of the position. *)
Definition inside (q : Coordinate) (p : Position) : Prop :=
  width (startCoordinates p) ≤ width q < width (endCoordinates p) ∧
  depth (startCoordinates p) ≤ depth q < depth (endCoordinates p) ∧
  height (startCoordinates p) ≤ height q < height (endCoordinates p).

(** The box has a positive extent on each axis. *)
Definition proper (p : Position) : Prop :=
  width (startCoordinates p) < width (endCoordinates p) ∧
  depth (startCoordinates p) < depth (endCoordinates p) ∧
  height (startCoordinates p) < height (endCoordinates p).

(** An [Item] object: the fields of [Models.Item] and the private field
    [currentPosition], which [Models.Item] leaves out.

    Items are objects: [placeItem] writes the location into the caller's
    object and stores that object, [removeItem] clears the location of the
    object it returns.  A value of this type is the state of such an object
    at one moment, and a container value is the content of the container at
    the moment of a call, every stored object read through.  A call is a
    function from that content to the content after the call.  What other
    code does to a stored object between two calls (another container
    placing the same object, say) changes the content of this container
    without a call on it; so the properties of this container are stated
    for a call, or for consecutive calls, on any content. *)
Record Item := mkItem {
  fields : Models.Item;
  currentPosition : option Position
}.

Definition itemId (it : Item) : string := Models.itemId (fields it).

Definition set_currentContainerId (cid : option string) (f : Models.Item) : Models.Item :=
  Models.mkItem (Models.itemId f) (Models.name f) (Models.item_width f)
    (Models.item_depth f) (Models.item_height f) (Models.mass f) (Models.priority f)
    (Models.expiryDate f) (Models.usageLimit f) (Models.preferredZone f)
    (Models.usageCount f) (Models.isWaste f) cid.

(** [setLocation(containerId, position)]; the position is cloned. *)
Definition setLocation (it : Item) (containerId : string) (position : Position) : Item :=
  mkItem (set_currentContainerId (Some containerId) (fields it)) (Some position).

(** [clearLocation()] *)
Definition clearLocation (it : Item) : Item :=
  mkItem (set_currentContainerId None (fields it)) None.

(** [getPosition()] *)
Definition getPosition (it : Item) : option Position := currentPosition it.

(** [getVolume()] of an item: from its own dimensions. *)
Definition itemVolume (it : Item) : Z :=
  Models.item_width (fields it) * Models.item_depth (fields it)
  * Models.item_height (fields it).

(** [getRemainingUses()] *)
Definition getRemainingUses (f : Models.Item) : option Z :=
  match Models.usageLimit f with
  | None => None
  | Some l => Some (Z.max 0 (l - Models.usageCount f))
  end.

(** [markAsWaste(reason)] *)
Definition markAsWaste (f : Models.Item) (reason : string) : Models.Item :=
  Models.set_isWaste true f.

(** [getPossibleOrientations()]: the six [width, depth, height] triples. *)
Definition getPossibleOrientations (f : Models.Item) : list (list Z) :=
  let w := Models.item_width f in
  let d := Models.item_depth f in
  let h := Models.item_height f in
  [ [w; d; h]; [w; h; d]; [d; w; h]; [d; h; w]; [h; w; d]; [h; d; w] ].

(** A [Map<string, Item>]: the entries in insertion order.  [set] on a key
    already present keeps its place and replaces its value. *)
Fixpoint map_get (m : list (string * Item)) (k : string) : option Item :=
  match m with
  | [] => None
  | (k', v) :: m' => if decide (k' = k) then Some v else map_get m' k
  end.

Fixpoint map_set (m : list (string * Item)) (k : string) (v : Item)
    : list (string * Item) :=
  match m with
  | [] => [(k, v)]
  | (k', v') :: m' =>
      if decide (k' = k) then (k, v) :: m' else (k', v') :: map_set m' k v
  end.

Fixpoint map_delete (m : list (string * Item)) (k : string) : list (string * Item) :=
  match m with
  | [] => []
  | (k', v') :: m' => if decide (k' = k) then m' else (k', v') :: map_delete m' k
  end.

(** The [Container] of models/Container.ts. *)
Record Container := mkContainer {
  containerId : string;
  zone : string;
  cwidth : Z;
  cdepth : Z;
  cheight : Z;
  items : list (string * Item)
}.

Definition set_items (m : list (string * Item)) (c : Container) : Container :=
  mkContainer (containerId c) (zone c) (cwidth c) (cdepth c) (cheight c) m.

(** [new Container(containerId, zone, width, depth, height)] *)
Definition new_Container (id zn : string) (w d h : Z) : outcome Container :=
  if bool_decide (w ≤ 0 ∨ d ≤ 0 ∨ h ≤ 0) then
    Throw "Container dimensions must be positive"
  else Ok (mkContainer id zn w d h []).

(** [isPositionInBounds(position)] *)
Definition isPositionInBounds (c : Container) (position : Position) : bool :=
  bool_decide (0 ≤ width (startCoordinates position))
  && bool_decide (0 ≤ depth (startCoordinates position))
  && bool_decide (0 ≤ height (startCoordinates position))
  && bool_decide (width (endCoordinates position) ≤ cwidth c)
  && bool_decide (depth (endCoordinates position) ≤ cdepth c)
  && bool_decide (height (endCoordinates position) ≤ cheight c).

(** [excludeItemId && itemId === excludeItemId]: an absent or empty id
    excludes nothing. *)
Definition excluded (excludeItemId : option string) (id : string) : bool :=
  match excludeItemId with
  | None => false
  | Some e => bool_decide (e ≠ "") && bool_decide (id = e)
  end.

(** [positionCollides(position, excludeItemId)] *)
Definition positionCollides (c : Container) (position : Position)
    (excludeItemId : option string) : bool :=
  existsb (λ entry : string * Item,
             if excluded excludeItemId entry.1 then false
             else match getPosition entry.2 with
                  | Some itemPosition => overlaps position itemPosition
                  | None => false
                  end)
          (items c).

(** [placeItem(item, position)]: the result and the container afterwards.
    On success the stored item is the argument with its location set, which
    is also the state of the caller's object after the call. *)
Definition placeItem (c : Container) (item : Item) (position : Position)
    : bool * Container :=
  if negb (isPositionInBounds c position) then (false, c)
  else if positionCollides c position (Some (itemId item)) then (false, c)
  else (true, set_items (map_set (items c) (itemId item)
                           (setLocation item (containerId c) position)) c).

(** [removeItem(itemId)]: the removed item with its location cleared, or
    [null]. *)
Definition removeItem (c : Container) (id : string) : option Item * Container :=
  match map_get (items c) id with
  | Some item => (Some (clearLocation item), set_items (map_delete (items c) id) c)
  | None => (None, c)
  end.

(** [getItem(itemId)] *)
Definition getItem (c : Container) (id : string) : option Item := map_get (items c) id.

(** [getUsedVolume()] *)
Definition getUsedVolume (c : Container) : Z :=
  foldl (λ totalVolume entry, totalVolume + itemVolume entry.2) 0 (items c).

(** [getTotalVolume()] *)
Definition getTotalVolume (c : Container) : Z := cwidth c * cdepth c * cheight c.

(** [getUtilizationPercentage()] *)
Definition getUtilizationPercentage (c : Container) : num :=
  num_mul (num_div (num_of_Z (getUsedVolume c)) (num_of_Z (getTotalVolume c)))
          (num_of_Z 100).

(** The test of the loop body of [findBlockingItems]. *)
Definition blocks (itemPosition targetPosition : Position) : bool :=
  let widthOverlap :=
    negb (bool_decide (width (endCoordinates itemPosition)
                       ≤ width (startCoordinates targetPosition))
          || bool_decide (width (endCoordinates targetPosition)
                          ≤ width (startCoordinates itemPosition))) in
  let heightOverlap :=
    negb (bool_decide (height (endCoordinates itemPosition)
                       ≤ height (startCoordinates targetPosition))
          || bool_decide (height (endCoordinates targetPosition)
                          ≤ height (startCoordinates itemPosition))) in
  let isInFront :=
    bool_decide (depth (startCoordinates itemPosition)
                 < depth (startCoordinates targetPosition)) in
  widthOverlap && heightOverlap && isInFront.

(** The loop body of [findBlockingItems]: is the entry pushed? *)
Definition is_blocker (targetItemId : string) (targetPosition : Position)
    (entry : string * Item) : bool :=
  if decide (entry.1 = targetItemId) then false
  else match getPosition entry.2 with
       | Some itemPosition => blocks itemPosition targetPosition
       | None => false
       end.

(** [findBlockingItems(targetItemId)] *)
Definition findBlockingItems (c : Container) (targetItemId : string) : list Item :=
  match map_get (items c) targetItemId with
  | None => []
  | Some targetItem =>
      match getPosition targetItem with
      | None => []
      | Some targetPosition =>
          (λ entry : string * Item, entry.2) <$>
          filter (λ entry, is_blocker targetItemId targetPosition entry) (items c)
      end
  end.

(** [findVisiblePositions(width, height, depth)] *)
Definition findVisiblePositions (c : Container) (w h d : Z) : list Position :=
  wi ← range_incl 0 (cwidth c - w);
  hi ← range_incl 0 (cheight c - h);
  let position := mkPosition (mkCoordinate wi 0 hi) (mkCoordinate (wi + w) d (hi + h)) in
  if positionCollides c position None then [] else [position].

(** [Item.clone()]: a new item through the constructor, then the private
    fields copied. *)
Definition cloneItem (it : Item) : outcome Item :=
  let f := fields it in
  clone ← Models.new_Item (Models.itemId f) (Models.name f) (Models.item_width f)
             (Models.item_depth f) (Models.item_height f) (Models.mass f)
             (Models.priority f) (Models.expiryDate f) (Models.usageLimit f)
             (Models.preferredZone f);
  let clone := Models.set_usageCount (Models.usageCount f) clone in
  let clone := Models.set_isWaste (Models.isWaste f) clone in
  let clone := set_currentContainerId (Models.currentContainerId f) clone in
  mret (mkItem clone (currentPosition it)).

(** [Container.clone()]: a new container, and every stored item that has a
    position cloned and placed again. *)
Definition clone (c : Container) : outcome Container :=
  clonedContainer ← new_Container (containerId c) (zone c) (cwidth c) (cdepth c)
                      (cheight c);
  foldM (λ clonedContainer (entry : string * Item),
           clonedItem ← cloneItem entry.2;
           match getPosition entry.2 with
           | Some position => mret (placeItem clonedContainer clonedItem position).2
           | None => mret clonedContainer
           end)
        clonedContainer (items c).

(** The arguments the [Item] constructor accepts. *)
Definition valid_fields (f : Models.Item) : Prop :=
  1 ≤ Models.priority f ≤ 100 ∧
  (0 < Models.item_width f ∧ 0 < Models.item_depth f ∧ 0 < Models.item_height f) ∧
  (0 < Models.mass f)%Q.

End TSModels.

(** ** Further operations of EnhancedSpatialGrid *)

Record BoundingBox := mkBox {
  minX : Z; minY : Z; minZ : Z; maxX : Z; maxY : Z; maxZ : Z
}.

(** The bounding box that [doItemsCollide] builds for an item. *)
Definition bounding_box (it : PlacedItem) : BoundingBox :=
  mkBox (px (position it)) (py (position it)) (pz (position it))
        (px (position it) + width (effectiveDimensions it) - 1)
        (py (position it) + depth (effectiveDimensions it) - 1)
        (pz (position it) + height (effectiveDimensions it) - 1).

(** [doItemsCollide(itemId1, itemId2)] *)
Definition doItemsCollide (c : Container) (itemId1 itemId2 : string) : outcome bool :=
  match itemsData c !! itemId1, itemsData c !! itemId2 with
  | Some item1, Some item2 =>
      let box1 := bounding_box item1 in
      let box2 := bounding_box item2 in
      Ok (bool_decide (minX box1 ≤ maxX box2) && bool_decide (minX box2 ≤ maxX box1)
          && bool_decide (minY box1 ≤ maxY box2) && bool_decide (minY box2 ≤ maxY box1)
          && bool_decide (minZ box1 ≤ maxZ box2) && bool_decide (minZ box2 ≤ maxZ box1))
  | _, _ => Throw "One or both items not found"
  end.

Record Placement := mkPlacement {
  pl_position : Position;
  pl_orientation : Orientation;
  pl_effectiveDimensions : Dimensions
}.

Section Placements.

(** SpatialGrid.findEmptySpaces is not part of the sources: the positions it
    returns for a container and a box size are a parameter. *)
Variable findEmptySpaces : Container → Dimensions → list Position.

(** [findValidPlacements(itemDimensions)] *)
Definition findValidPlacements (c : Container) (itemDimensions : Dimensions)
    : outcome (list Placement) :=
  orientations ← getAllOrientations;
  mret (o ← orientations;
        let effectiveDims := getEffectiveDimensions o itemDimensions in
        (λ position, mkPlacement position o effectiveDims)
          <$> findEmptySpaces c effectiveDims).

End Placements.

(** ** Example states

    The seed scenarios of the specification: a 10×8×5 front-open container
    with ITEM001 at the origin, and a 4×4×4 front-open container with ITEM_A
    in front of ITEM_B. *)

Definition ex_container : Container :=
  new_Container "CONT001" (mkDimensions 10 8 5) "science" Front.

Definition ex_item1 : ItemData :=
  mkItemData "ITEM001" "First Aid Kit" (mkDimensions 3 2 2) 2.5 (PrioStr "high")
             None None.

Definition ex_container1 : Container :=
  (placeItem ex_container ex_item1 (mkPosition 0 0 0) (mkOrientation 0 1 2)).2.

Definition ex_placed1 : PlacedItem :=
  mkPlacedItem ex_item1 (mkPosition 0 0 0) (mkOrientation 0 1 2) (mkDimensions 3 2 2).

Definition ex_small : Container :=
  new_Container "CONT002" (mkDimensions 4 4 4) "general" Front.

Definition ex_itemA : ItemData :=
  mkItemData "ITEM_A" "A" (mkDimensions 2 2 2) 1 (PrioStr "medium") None None.

Definition ex_itemB : ItemData :=
  mkItemData "ITEM_B" "B" (mkDimensions 2 2 2) 1 (PrioStr "medium") None None.

Definition ex_smallA : Container :=
  (placeItem ex_small ex_itemA (mkPosition 0 0 0) (mkOrientation 0 1 2)).2.

Definition ex_smallAB : Container :=
  (placeItem ex_smallA ex_itemB (mkPosition 0 2 0) (mkOrientation 0 1 2)).2.

Definition ex_placedA : PlacedItem :=
  mkPlacedItem ex_itemA (mkPosition 0 0 0) (mkOrientation 0 1 2) (mkDimensions 2 2 2).

Definition ex_placedB : PlacedItem :=
  mkPlacedItem ex_itemB (mkPosition 0 2 0) (mkOrientation 0 1 2) (mkDimensions 2 2 2).

(** An item placed behind the open face of the empty 4×4×4 container. *)
Definition ex_itemC : ItemData :=
  mkItemData "ITEM_C" "C" (mkDimensions 1 1 1) 1 (PrioStr "low") None None.

Definition ex_smallC : Container :=
  (placeItem ex_small ex_itemC (mkPosition 0 1 0) (mkOrientation 0 1 2)).2.

(** A 1×4×1 item removed from a 1×4×1 container, then a unit item placed
    in its first cell: the catalogue still has the removed item's record. *)
Definition ex_row : Container :=
  new_Container "CONT003" (mkDimensions 1 4 1) "general" Front.

Definition ex_itemLong : ItemData :=
  mkItemData "LONG" "long" (mkDimensions 1 4 1) 1 (PrioStr "low") None None.

Definition ex_itemUnit : ItemData :=
  mkItemData "UNIT" "unit" (mkDimensions 1 1 1) 1 (PrioStr "low") None None.

Definition ex_row_after : outcome Container :=
  let c1 := (placeItem ex_row ex_itemLong (mkPosition 0 0 0) (mkOrientation 0 1 2)).2 in
  match removeItem c1 "LONG" with
  | (Ok _, c2) =>
      mret (placeItem c2 ex_itemUnit (mkPosition 0 0 0) (mkOrientation 0 1 2)).2
  | (Throw msg, _) => Throw msg
  end.

(** An item whose priority is the name of a property that every object
    inherits, placed on the open face of the empty 4×4×4 container. *)
Definition ex_itemK : ItemData :=
  mkItemData "ITEM_K" "K" (mkDimensions 1 1 1) 1 (PrioStr "constructor") None None.

Definition ex_smallK : Container :=
  (placeItem ex_small ex_itemK (mkPosition 0 0 0) (mkOrientation 0 1 2)).2.

Definition ex_placedC : PlacedItem :=
  mkPlacedItem ex_itemC (mkPosition 0 1 0) (mkOrientation 0 1 2)
    (getEffectiveDimensions (mkOrientation 0 1 2) (item_dimensions ex_itemC)).


(** A stand-in for the largest-empty-space query: the first empty cell in
    scan order, as a unit box. *)
Definition first_empty_cell (c : Container) : option Space :=
  (λ p, mkSpace p (mkDimensions 1 1 1)) <$>
  head (filter (λ p, cellAt (grid c) p = Some None)
               (box_cells (mkPosition 0 0 0) (dimensions c))).

(** An item of the item model that expired at time 100. *)
Definition ex_expired : Models.Item :=
  Models.mkItem "item-2" "Ration" 1 1 1 1 50 (Some 100) None "A" 0 false None.

(** ** Container.addItem (container management) *)

(** The options of [addItem] after the merge with the default options. *)
Record AddOptions := mkAddOptions {
  prioritizeAccessibility : bool;
  preferredOrientation : option Orientation;
  preferredPosition : option Position;
  useRecommendation : bool
}.

Definition defaultOptions : AddOptions := mkAddOptions true None None true.

Inductive AddResult :=
| Added (pos : Position) (o : Orientation)
| NotAdded (reason : string).

(** [!item.priority]: the empty string and the number 0 are falsy. *)
Definition priority_falsy (p : jsprio) : bool :=
  match p with
  | PrioStr s => bool_decide (s = "")
  | PrioNum n => bool_decide (n = 0)
  end.

Section AddItem.

(** SpatialGrid.findEmptySpaces is not part of the sources.  The two
    choosers findBestAccessiblePlacement and recommendPlacement replay the
    catalogue in the insertion order of the Map and take square roots, which
    the catalogue and the numbers of this model do not record: addItem is
    modelled for any choosers, which return a placement or throw. *)
Variable findEmptySpaces : Container → Dimensions → list Position.
Variable findBestAccessiblePlacement :
  Container → list Placement → ItemData → outcome Placement.
Variable recommendPlacement :
  Container → list Placement → ItemData → outcome Placement.

(** [this.updateContainerMetricsAfterAdd(item); return { success: true,
    position, orientation }] *)
Definition added (c : Container) (item : ItemData) (pos : Position)
    (o : Orientation) : outcome AddResult * Container :=
  match updateContainerMetricsAfterAdd c item with
  | (Throw msg, c') => (Throw msg, c')
  | (Ok _, c') => (Ok (Added pos o), c')
  end.

(** [bestPlacement] of [addItem], given the non-empty list of valid
    placements and its first element. *)
Definition choose_placement (c : Container) (item : ItemData) (opts : AddOptions)
    (first : Placement) (validPlacements : list Placement) : outcome Placement :=
  if prioritizeAccessibility opts then
    findBestAccessiblePlacement c validPlacements item
  else if useRecommendation opts then
    recommendPlacement c validPlacements item
  else mret first.

(** The second half of [addItem]: the search among all valid placements.
    Nothing is written before the call of [placeItem]. *)
Definition addItem_search (c : Container) (item : ItemData) (opts : AddOptions)
    : outcome AddResult * Container :=
  match findValidPlacements findEmptySpaces c (item_dimensions item) with
  | Throw msg => (Throw msg, c)
  | Ok [] => (Ok (NotAdded "No valid placement found"), c)
  | Ok (first :: rest) =>
      match choose_placement c item opts first (first :: rest) with
      | Throw msg => (Throw msg, c)
      | Ok bestPlacement =>
          let '(success, c1) :=
            placeItem c item (pl_position bestPlacement)
                      (pl_orientation bestPlacement) in
          if success : bool then
            added c1 item (pl_position bestPlacement) (pl_orientation bestPlacement)
          else (Ok (NotAdded "Failed to place item"), c1)
      end
  end.

(** [addItem(item, options)] *)
Definition addItem (c : Container) (item : ItemData) (opts : AddOptions)
    : outcome AddResult * Container :=
  if bool_decide (item_id item = "") || priority_falsy (item_priority item) then
    (Throw "Item must have id, dimensions, and priority properties", c)
  else if bool_decide (is_Some (itemsData c !! item_id item)) then
    (Throw ("Item with ID " +:+ item_id item +:+ " is already in the container"), c)
  else
    match preferredOrientation opts, preferredPosition opts with
    | Some o, Some pos =>
        let effectiveDims := getEffectiveDimensions o (item_dimensions item) in
        if isSpaceFree c pos effectiveDims then
          let '(success, c1) := placeItem c item pos o in
          if success : bool then added c1 item pos o
          else addItem_search c1 item opts
        else addItem_search c item opts
    | _, _ => addItem_search c item opts
    end.

End AddItem.

(** What a returning addItem did, once the placement is known. *)
Definition add_effect (c : Container) (item : ItemData) (res : AddResult)
    (c' : Container) : Prop :=
  match res with
  | Added pos o =>
      ∃ c1, placeItem c item pos o = (true, c1) ∧
            updateContainerMetricsAfterAdd c1 item = (Ok (), c') ∧
            usedVolume c' = usedVolume c + volume (item_dimensions item)
  | NotAdded _ => c' = c
  end.

(** A call on an item object of the item model. *)
Inductive item_call :=
| CallUse
| CallCheckIfWaste (currentDate : Models.Date)
| CallMarkAsWaste (reason : string).

(** The object after a call, whatever the call returns or throws. *)
Definition after_call (f : Models.Item) (call : item_call) : Models.Item :=
  match call with
  | CallUse => (Models.use f).2
  | CallCheckIfWaste currentDate => (Models.checkIfWaste f currentDate).2
  | CallMarkAsWaste reason => TSModels.markAsWaste f reason
  end.

Definition after_calls (f : Models.Item) (calls : list item_call) : Models.Item :=
  foldl after_call f calls.

(** Two unit boxes side by side, and a box that covers both. *)
Definition ex_boxA : TSModels.Position :=
  TSModels.mkPosition (TSModels.mkCoordinate 0 0 0) (TSModels.mkCoordinate 1 1 1).

Definition ex_boxB : TSModels.Position :=
  TSModels.mkPosition (TSModels.mkCoordinate 1 0 0) (TSModels.mkCoordinate 2 1 1).

Definition ex_boxAB : TSModels.Position :=
  TSModels.mkPosition (TSModels.mkCoordinate 0 0 0) (TSModels.mkCoordinate 2 1 1).

(** An item of the item model with a usage limit of 5. *)
Definition ex_five : Models.Item :=
  Models.mkItem "item-5" "Filter" 2 1 1 1 50 None (Some 5) "A" 0 false None.

(** The invariant of the container of models/Container.ts: positive
    dimensions; one entry per key, stored under the item's own id; every
    stored item located in this container, inside its bounds; and no two
    stored items overlapping. *)
Definition ts_wf (c : TSModels.Container) : Prop :=
  (0 < TSModels.cwidth c ∧ 0 < TSModels.cdepth c ∧ 0 < TSModels.cheight c) ∧
  NoDup (fst <$> TSModels.items c) ∧
  (∀ k v, (k, v) ∈ TSModels.items c →
     TSModels.itemId v = k ∧
     Models.currentContainerId (TSModels.fields v) = Some (TSModels.containerId c) ∧
     ∃ p, TSModels.getPosition v = Some p ∧ TSModels.isPositionInBounds c p = true) ∧
  (∀ k1 v1 k2 v2 p1 p2,
     (k1, v1) ∈ TSModels.items c → (k2, v2) ∈ TSModels.items c → k1 ≠ k2 →
     TSModels.getPosition v1 = Some p1 → TSModels.getPosition v2 = Some p2 →
     TSModels.overlaps p1 p2 = false).

(** A 4×4×4 container of the item model with one 2×1×2 item at the origin. *)
Definition ex_ts_container : TSModels.Container :=
  TSModels.mkContainer "container-1" "A" 4 4 4 [].

Definition ex_ts_item : TSModels.Item :=
  TSModels.mkItem ex_five None.

Definition ex_ts_box : TSModels.Position :=
  TSModels.mkPosition (TSModels.mkCoordinate 0 0 0) (TSModels.mkCoordinate 2 1 2).

Definition ex_ts_container1 : TSModels.Container :=
  (TSModels.placeItem ex_ts_container ex_ts_item ex_ts_box).2.

(** A second item, placed right behind the first one. *)
Definition ex_six : Models.Item :=
  Models.mkItem "item-6" "Pump" 2 1 2 3 80 None None "A" 0 false None.

Definition ex_ts_item6 : TSModels.Item :=
  TSModels.mkItem ex_six None.

Definition ex_ts_box6 : TSModels.Position :=
  TSModels.mkPosition (TSModels.mkCoordinate 0 1 0) (TSModels.mkCoordinate 2 2 2).

Definition ex_ts_two : TSModels.Container :=
  (TSModels.placeItem ex_ts_container1 ex_ts_item6 ex_ts_box6).2.

(** Stand-ins for the missing position search and for the two choosers of
    addItem: the origin as the only candidate, and the first valid
    placement. *)
Definition ex_findEmptySpaces (c : Container) (d : Dimensions) : list Position :=
  [mkPosition 0 0 0].

Definition ex_chooser (c : Container) (l : list Placement) (item : ItemData)
    : outcome Placement :=
  match l with
  | first :: _ => Ok first
  | [] => Throw "Cannot read properties of null"
  end.

(** Options that ask for a position and an orientation. *)
Definition ex_preferred : AddOptions :=
  mkAddOptions true (Some (mkOrientation 2 0 1)) (Some (mkPosition 1 1 1)) true.

(** The 4×4×4 container with items A and B after item A has been removed. *)
Definition ex_smallAB_removed : Container := (removeItem ex_smallAB "ITEM_A").2.

(** * Properties *)

(** ** The error monad *)

Lemma bind_Ok {A B} (m : outcome A) (f : A → outcome B) (b : B) :
  m ≫= f = Ok b ↔ ∃ a, m = Ok a ∧ f a = Ok b.
Proof.
  destruct m as [a|msg]; simpl.
  - split; [eauto | by intros (a' & [= <-] & ?)].
  - split; [done | by intros (a' & ? & ?)].
Qed.

Lemma foldM_app {A B} (f : B → A → outcome B) acc l1 l2 :
  foldM f acc (l1 ++ l2) = foldM f acc l1 ≫= λ b, foldM f b l2.
Proof.
  revert acc. induction l1 as [|a l1 IH]; intros acc; simpl; [done|].
  destruct (f acc a) as [b|msg]; simpl; [apply IH | done].
Qed.

(** ** Arrays and the grid *)

Lemma array_at_Some {A} (l : list A) i a :
  array_at l i = Some a ↔ 0 ≤ i ∧ l !! Z.to_nat i = Some a.
Proof.
  unfold array_at. case_bool_decide; [tauto | split; [done | lia]].
Qed.

Lemma array_at_of_nat {A} (l : list A) (n : nat) : array_at l (Z.of_nat n) = l !! n.
Proof.
  unfold array_at. rewrite bool_decide_eq_true_2 by lia. by rewrite Nat2Z.id.
Qed.

Lemma array_at_lt {A} (l : list A) i :
  0 ≤ i < Z.of_nat (length l) → is_Some (array_at l i).
Proof.
  intros Hi. unfold array_at. rewrite bool_decide_eq_true_2 by lia.
  apply lookup_lt_is_Some. lia.
Qed.

Lemma array_at_bound {A} (l : list A) i a :
  array_at l i = Some a → 0 ≤ i < Z.of_nat (length l).
Proof.
  intros [Hi Hl]%array_at_Some. apply lookup_lt_Some in Hl. lia.
Qed.

Lemma cellAt_Some g p v :
  cellAt g p = Some v ↔
  ∃ plane col, array_at g (px p) = Some plane ∧
               array_at plane (py p) = Some col ∧
               array_at col (pz p) = Some v.
Proof.
  unfold cellAt. rewrite bind_Some. setoid_rewrite bind_Some. split.
  - intros (plane & ? & col & ? & ?). by exists plane, col.
  - intros (plane & col & ? & ? & ?). exists plane. split; [done|]. by exists col.
Qed.

Lemma grid_read_cellAt g p v :
  cellAt g p = Some v → grid_read g (px p) (py p) (pz p) = Ok (cell_val v).
Proof.
  intros (plane & col & H1 & H2 & H3)%cellAt_Some.
  unfold grid_read. by rewrite H1, H2, H3.
Qed.

Lemma grid_shape_cellAt dims g p :
  grid_shape dims g →
  isWithinBounds dims p = true → is_Some (cellAt g p).
Proof.
  intros [Hlen Hall] Hin. apply bool_decide_eq_true in Hin as (Hx & Hy & Hz).
  destruct (array_at_lt g (px p)) as [plane Hpl]; [lia|].
  pose proof Hpl as [_ Hpl']%array_at_Some.
  rewrite Forall_forall in Hall.
  destruct (Hall plane) as [Hlen2 Hall2]; [by eapply list_elem_of_lookup_2|].
  destruct (array_at_lt plane (py p)) as [col Hcol]; [lia|].
  pose proof Hcol as [_ Hcol']%array_at_Some.
  rewrite Forall_forall in Hall2.
  pose proof (Hall2 col ltac:(by eapply list_elem_of_lookup_2)) as Hlen3.
  destruct (array_at_lt col (pz p)) as [v Hv]; [lia|].
  exists v. apply cellAt_Some. eauto.
Qed.

Lemma cellAt_within dims g p v :
  grid_shape dims g → cellAt g p = Some v → isWithinBounds dims p = true.
Proof.
  intros [Hlen Hall] (plane & col & H1 & H2 & H3)%cellAt_Some.
  pose proof H1 as [_ H1']%array_at_Some.
  pose proof H2 as [_ H2']%array_at_Some.
  rewrite Forall_forall in Hall.
  destruct (Hall plane) as [Hlen2 Hall2]; [by eapply list_elem_of_lookup_2|].
  rewrite Forall_forall in Hall2.
  pose proof (Hall2 col ltac:(by eapply list_elem_of_lookup_2)) as Hlen3.
  apply array_at_bound in H1, H2, H3.
  apply bool_decide_eq_true. lia.
Qed.

(** ** Rewriting the grid cell by cell *)

Lemma imap_imap {A B C} (f : nat → B → C) (h : nat → A → B) (l : list A) :
  imap f (imap h l) = imap (λ i x, f i (h i x)) l.
Proof.
  apply list_eq; intros i. rewrite !list_lookup_imap.
  by destruct (l !! i).
Qed.

Lemma imap_fixed {A} (f : nat → A → A) (l : list A) :
  (∀ i x, l !! i = Some x → f i x = x) → imap f l = l.
Proof.
  intros Hf. rewrite <-(list_fmap_id l) at 2. rewrite <-imap_const.
  by apply imap_ext.
Qed.

Lemma alter_imap {A} (f : A → A) (i : nat) (l : list A) :
  alter f i l = imap (λ j x, if decide (j = i) then f x else x) l.
Proof.
  apply list_eq; intros j. rewrite list_lookup_alter, list_lookup_imap.
  destruct (decide (i = j)) as [->|Hne].
  - destruct (l !! j); simpl; [|done]. by rewrite decide_True.
  - destruct (l !! j); simpl; [|done]. by rewrite decide_False.
Qed.

Lemma array_at_imap {A B} (f : nat → A → B) (l : list A) i :
  array_at (imap f l) i = f (Z.to_nat i) <$> array_at l i.
Proof.
  unfold array_at. case_bool_decide; [apply list_lookup_imap | done].
Qed.

Lemma cellAt_imap f g p : cellAt (grid_imap f g) p = f p <$> cellAt g p.
Proof.
  destruct p as [x y z]. unfold cellAt, grid_imap; simpl.
  rewrite array_at_imap.
  destruct (array_at g x) as [plane|] eqn:H1; simpl; [|done].
  rewrite array_at_imap.
  destruct (array_at plane y) as [col|] eqn:H2; simpl; [|done].
  rewrite array_at_imap.
  destruct (array_at col z) as [v|] eqn:H3; simpl; [|done].
  apply array_at_bound in H1, H2, H3.
  by rewrite !Z2Nat.id by lia.
Qed.

Lemma grid_imap_ext f f' g :
  (∀ p v, cellAt g p = Some v → f p v = f' p v) →
  grid_imap f g = grid_imap f' g.
Proof.
  intros Hf. unfold grid_imap.
  apply imap_ext; intros x plane Hx.
  apply imap_ext; intros y col Hy.
  apply imap_ext; intros z v Hz.
  apply Hf, cellAt_Some; simpl. exists plane, col.
  by rewrite !array_at_of_nat.
Qed.

Lemma grid_imap_id g : grid_imap (λ _ v, v) g = g.
Proof.
  unfold grid_imap.
  apply imap_fixed; intros x plane _.
  apply imap_fixed; intros y col _.
  by apply imap_fixed.
Qed.

Lemma grid_imap_fixed f g :
  (∀ p v, cellAt g p = Some v → f p v = v) → grid_imap f g = g.
Proof.
  intros Hf. rewrite <-(grid_imap_id g) at 2. by apply grid_imap_ext.
Qed.

Lemma grid_imap_imap f f' g :
  grid_imap f (grid_imap f' g) = grid_imap (λ p v, f p (f' p v)) g.
Proof.
  unfold grid_imap. rewrite imap_imap.
  apply imap_ext; intros x plane _. rewrite imap_imap.
  apply imap_ext; intros y col _. by rewrite imap_imap.
Qed.

Lemma grid_map_imap f g : grid_map f g = grid_imap (λ _, f) g.
Proof.
  unfold grid_map, grid_imap.
  rewrite <-imap_const. apply imap_ext; intros x plane _. unfold const.
  rewrite <-imap_const. apply imap_ext; intros y col _. unfold const.
  by rewrite <-imap_const.
Qed.

Lemma grid_shape_imap dims f g :
  grid_shape dims g → grid_shape dims (grid_imap f g).
Proof.
  intros [Hlen Hall]. split; [by unfold grid_imap; rewrite length_imap|].
  rewrite Forall_lookup in Hall. apply Forall_lookup.
  intros x plane'. unfold grid_imap. rewrite list_lookup_imap.
  intros (plane & Hpl & ->)%fmap_Some.
  destruct (Hall _ _ Hpl) as [Hlen2 Hall2].
  split; [by rewrite length_imap|].
  rewrite Forall_lookup in Hall2. apply Forall_lookup.
  intros y col'. rewrite list_lookup_imap.
  intros (col & Hcol & ->)%fmap_Some.
  rewrite length_imap. eauto.
Qed.

Lemma grid_write_imap g p v :
  grid_write g p v = grid_imap (λ q c, if decide (q = p) then v else c) g.
Proof.
  unfold grid_write. case_bool_decide as Hnn.
  - destruct p as [x y z]; simpl in *. destruct Hnn as (Hx & Hy & Hz).
    unfold grid_imap. rewrite alter_imap.
    apply imap_ext; intros i plane _.
    destruct (decide (i = Z.to_nat x)) as [->|Hi].
    + rewrite alter_imap. apply imap_ext; intros j col _.
      destruct (decide (j = Z.to_nat y)) as [->|Hj].
      * rewrite list_insert_alter, alter_imap.
        apply imap_ext; intros k c _.
        rewrite !Z2Nat.id by done.
        destruct (decide (k = Z.to_nat z)) as [->|Hk].
        -- rewrite Z2Nat.id by done. by rewrite decide_True.
        -- rewrite decide_False; [done|]. intros [= ?]. lia.
      * symmetry. apply imap_fixed; intros k c _.
        rewrite decide_False; [done|]. intros [= ? ?]. lia.
    + symmetry. apply imap_fixed; intros j col _.
      apply imap_fixed; intros k c _.
      rewrite decide_False; [done|]. intros [= ? ? ?]. lia.
  - symmetry. apply grid_imap_fixed; intros q c Hq.
    rewrite decide_False; [done|]. intros ->.
    apply cellAt_Some in Hq as (plane & col & H1 & H2 & H3).
    apply array_at_bound in H1, H2, H3. lia.
Qed.

Lemma fill_cells_imap v cells g :
  fill_cells v cells g =
  grid_imap (λ q c, if bool_decide (q ∈ cells) then v else c) g.
Proof.
  unfold fill_cells. revert g. induction cells as [|p cells IH]; intros g; simpl.
  - symmetry. by apply grid_imap_fixed.
  - rewrite IH, grid_write_imap, grid_imap_imap.
    apply grid_imap_ext; intros q c _.
    destruct (decide (q = p)) as [->|Hne].
    + rewrite (bool_decide_eq_true_2 (p ∈ p :: cells)) by left.
      by destruct (bool_decide (p ∈ cells)).
    + destruct (bool_decide (q ∈ cells)) eqn:Hq.
      * apply bool_decide_eq_true in Hq.
        by rewrite bool_decide_eq_true_2 by by right.
      * apply bool_decide_eq_false in Hq.
        rewrite bool_decide_eq_false_2; [done|].
        by intros [?|?]%elem_of_cons.
Qed.

(** ** Loops over boxes *)

Lemma elem_of_range i lo hi : i ∈ range lo hi ↔ lo ≤ i < hi.
Proof. unfold range. rewrite elem_of_seqZ. lia. Qed.

Lemma elem_of_range_incl i lo hi : i ∈ range_incl lo hi ↔ lo ≤ i ≤ hi.
Proof. unfold range_incl. rewrite elem_of_seqZ. lia. Qed.

Lemma elem_of_box_cells p pos dims :
  p ∈ box_cells pos dims ↔
  px pos ≤ px p < px pos + width dims ∧
  py pos ≤ py p < py pos + depth dims ∧
  pz pos ≤ pz p < pz pos + height dims.
Proof.
  unfold box_cells. rewrite list_elem_of_bind. split.
  - intros (x & Hp & Hx%elem_of_range).
    apply list_elem_of_bind in Hp as (y & Hp & Hy%elem_of_range).
    apply list_elem_of_bind in Hp as (z & Hp & Hz%elem_of_range).
    apply list_elem_of_singleton in Hp as ->. simpl. lia.
  - intros (Hx & Hy & Hz). exists (px p). rewrite elem_of_range. split; [|done].
    apply list_elem_of_bind. exists (py p). rewrite elem_of_range. split; [|done].
    apply list_elem_of_bind. exists (pz p). rewrite elem_of_range. split; [|done].
    destruct p. apply list_elem_of_singleton. done.
Qed.

Lemma elem_of_item_cells p pos dims :
  p ∈ item_cells pos dims ↔ p ∈ box_cells pos dims.
Proof.
  rewrite elem_of_box_cells. unfold item_cells. rewrite list_elem_of_bind. split.
  - intros (x & Hp & Hx%elem_of_range).
    apply list_elem_of_bind in Hp as (y & Hp & Hy%elem_of_range).
    apply list_elem_of_bind in Hp as (z & Hp & Hz%elem_of_range).
    apply list_elem_of_singleton in Hp as ->. simpl. lia.
  - intros (Hx & Hy & Hz). exists (px p - px pos). rewrite elem_of_range.
    split; [|lia].
    apply list_elem_of_bind. exists (py p - py pos). rewrite elem_of_range.
    split; [|lia].
    apply list_elem_of_bind. exists (pz p - pz pos). rewrite elem_of_range.
    split; [|lia].
    destruct p; simpl. apply list_elem_of_singleton. f_equal; lia.
Qed.

Lemma elem_of_cells_between p sx sy sz ex ey ez :
  p ∈ cells_between sx sy sz ex ey ez ↔
  sx ≤ px p ≤ ex ∧ sy ≤ py p ≤ ey ∧ sz ≤ pz p ≤ ez.
Proof.
  unfold cells_between. rewrite list_elem_of_bind. split.
  - intros (x & Hp & Hx%elem_of_range_incl).
    apply list_elem_of_bind in Hp as (y & Hp & Hy%elem_of_range_incl).
    apply list_elem_of_bind in Hp as (z & Hp & Hz%elem_of_range_incl).
    apply list_elem_of_singleton in Hp as ->. simpl. lia.
  - intros (Hx & Hy & Hz). exists (px p). rewrite elem_of_range_incl. split; [|done].
    apply list_elem_of_bind. exists (py p). rewrite elem_of_range_incl. split; [|done].
    apply list_elem_of_bind. exists (pz p). rewrite elem_of_range_incl. split; [|done].
    destruct p. apply list_elem_of_singleton. done.
Qed.

Lemma length_bind_const {A B} (f : A → list B) (l : list A) (k : nat) :
  (∀ x, length (f x) = k) → length (l ≫= f) = (length l * k)%nat.
Proof.
  intros Hf. induction l as [|x l IH]; csimpl; [done|].
  rewrite length_app, Hf, IH. lia.
Qed.

Lemma length_item_cells pos dims :
  0 ≤ width dims → 0 ≤ depth dims → 0 ≤ height dims →
  Z.of_nat (length (item_cells pos dims)) = width dims * depth dims * height dims.
Proof.
  intros Hw Hd Hh. unfold item_cells.
  rewrite (length_bind_const _ _ (Z.to_nat (depth dims) * Z.to_nat (height dims))).
  - unfold range. rewrite length_seqZ. lia.
  - intros x. rewrite (length_bind_const _ _ (Z.to_nat (height dims))).
    + unfold range. rewrite length_seqZ. lia.
    + intros y. rewrite (length_bind_const _ _ 1%nat); [|done].
      unfold range. rewrite length_seqZ. lia.
Qed.

(** ** Orientations *)

Lemma valid_orientation_cases o :
  valid_orientation o →
  o ∈ [ mkOrientation 0 1 2; mkOrientation 0 2 1; mkOrientation 1 0 2;
        mkOrientation 1 2 0; mkOrientation 2 0 1; mkOrientation 2 1 0 ].
Proof.
  destruct o as [a b c]. unfold valid_orientation, new_Orientation, array_sort.
  simpl. intros H.
  assert (Hperm : (a = 0 ∨ a = 1 ∨ a = 2) ∧ (b = 0 ∨ b = 1 ∨ b = 2) ∧
                  (c = 0 ∨ c = 1 ∨ c = 2) ∧ a ≠ b ∧ b ≠ c ∧ a ≠ c).
  { destruct (Z.leb_spec b c); simpl in H;
      repeat (match type of H with
              | context [Z.leb ?u ?v] => destruct (Z.leb_spec u v); simpl in H
              end);
      case_bool_decide; try discriminate; lia. }
  destruct Hperm as (Ha & Hb & Hc & ? & ? & ?).
  repeat rewrite elem_of_cons.
  destruct Ha as [->| [->| ->]], Hb as [->| [->| ->]], Hc as [->| [->| ->]];
    try lia; tauto.
Qed.

Lemma effective_dims_positive o d :
  valid_orientation o → positive_dims d →
  positive_dims (getEffectiveDimensions o d).
Proof.
  intros Ho%valid_orientation_cases (Hw & Hd & Hh).
  repeat (apply elem_of_cons in Ho as [->|Ho]);
    [unfold positive_dims; simpl; lia .. | by apply elem_of_nil in Ho].
Qed.

(** ** The container invariant *)

Lemma isSpaceFree_spec c pos dims :
  isSpaceFree c pos dims = true ↔
  ∀ p, p ∈ box_cells pos dims →
       isWithinBounds (dimensions c) p = true ∧ cellAt (grid c) p = Some None.
Proof.
  unfold isSpaceFree. rewrite forallb_forall. split.
  - intros H p Hp%list_elem_of_In. apply H in Hp.
    apply andb_true_iff in Hp as [? ?%bool_decide_eq_true]. done.
  - intros H p Hp%list_elem_of_In. destruct (H p Hp) as [-> ->]. done.
Qed.

Lemma isSpaceFree_inside c pos dims :
  positive_dims dims → isSpaceFree c pos dims = true →
  box_inside (dimensions c) pos dims.
Proof.
  intros (Hw & Hd & Hh) Hfree. rewrite isSpaceFree_spec in Hfree.
  destruct (Hfree pos) as [Hlo _]; [apply elem_of_box_cells; lia|].
  destruct (Hfree (mkPosition (px pos + width dims - 1) (py pos + depth dims - 1)
                              (pz pos + height dims - 1))) as [Hhi _];
    [apply elem_of_box_cells; simpl; lia|].
  apply bool_decide_eq_true in Hlo, Hhi. simpl in Hhi.
  unfold box_inside. lia.
Qed.

Lemma new_Container_wf id dims zn face : wf (new_Container id dims zn face).
Proof.
  split; [|split]; simpl; [|apply map_Forall_empty|done].
  unfold grid_shape, empty_grid. rewrite length_replicate. split; [done|].
  apply Forall_replicate. rewrite length_replicate. split; [done|].
  apply Forall_replicate. by rewrite length_replicate.
Qed.

Lemma placeItem_rejected c itemData pos o c' :
  placeItem c itemData pos o = (false, c') → c' = c.
Proof.
  unfold placeItem. destruct (isSpaceFree _ _ _); simpl; congruence.
Qed.

Lemma placeItem_accepted c itemData pos o c' :
  placeItem c itemData pos o = (true, c') →
  let eff := getEffectiveDimensions o (item_dimensions itemData) in
  isSpaceFree c pos eff = true ∧
  grid c' = fill_cells (Some (item_id itemData)) (box_cells pos eff) (grid c) ∧
  itemsData c' = <[item_id itemData := mkPlacedItem itemData pos o eff]> (itemsData c) ∧
  dimensions c' = dimensions c ∧ openFace c' = openFace c ∧
  tempState c' = tempState c.
Proof.
  unfold placeItem. destruct (isSpaceFree _ _ _) eqn:Hfree; simpl; [|congruence].
  intros [= <-]. simpl. done.
Qed.

Lemma placeItem_wf c itemData pos o c' :
  wf c → positive_dims (item_dimensions itemData) → valid_orientation o →
  placeItem c itemData pos o = (true, c') → wf c'.
Proof.
  intros (Hshape & Hitems & Htemp) Hpos Ho
         (Hfree & Hg & Hm & Hd & _ & Ht)%placeItem_accepted.
  split; [|split].
  - rewrite Hd, Hg, fill_cells_imap. by apply grid_shape_imap.
  - rewrite Hd, Hm. apply map_Forall_insert_2; [|done].
    split; simpl.
    + by apply effective_dims_positive.
    + apply isSpaceFree_inside; [by apply effective_dims_positive | done].
  - congruence.
Qed.

Lemma same_store_refl c : same_store c c.
Proof. by repeat split. Qed.

Lemma same_store_trans c1 c2 c3 : same_store c1 c2 → same_store c2 c3 → same_store c1 c3.
Proof. unfold same_store. intros ? ?. intuition congruence. Qed.

Lemma update_priorityItems_inv f c priority id :
  match priorityItems_at priority with
  | Inherited => update_priorityItems f c priority id = Throw "TypeError"
  | _ => ∃ c1, update_priorityItems f c priority id = Ok c1 ∧ same_store c c1 ∧
               usedVolume c1 = usedVolume c
  end.
Proof.
  unfold update_priorityItems. destruct (priorityItems_at priority); [|done|].
  - eexists. split; [done|]. split; [by repeat split | done].
  - eexists. split; [done|]. split; [by repeat split | done].
Qed.

Lemma toISODate_inv t :
  toISODate t = if bool_decide (- maxTime ≤ t ≤ maxTime) then Ok (t `div` 86400000)
                else Throw "RangeError: Invalid time value".
Proof. done. Qed.

Lemma track_expiry_inv c expiry id :
  match expiry with
  | Some t =>
      if bool_decide (- maxTime ≤ t ≤ maxTime)
      then ∃ c1, track_expiry c expiry id = Ok c1 ∧ same_store c c1 ∧
                 usedVolume c1 = usedVolume c
      else track_expiry c expiry id = Throw "RangeError: Invalid time value"
  | None => track_expiry c expiry id = Ok c
  end.
Proof.
  destruct expiry as [t|]; [|done]. unfold track_expiry, toISODate.
  case_bool_decide; [|done]. simpl. eexists. split; [done|].
  split; [by repeat split | done].
Qed.

Lemma untrack_expiry_inv c expiry id :
  match expiry with
  | Some t =>
      if bool_decide (- maxTime ≤ t ≤ maxTime)
      then ∃ c1, untrack_expiry c expiry id = Ok c1 ∧ same_store c c1 ∧
                 usedVolume c1 = usedVolume c
      else untrack_expiry c expiry id = Throw "RangeError: Invalid time value"
  | None => untrack_expiry c expiry id = Ok c
  end.
Proof.
  destruct expiry as [t|]; [|done]. unfold untrack_expiry, toISODate.
  case_bool_decide; [|done]. simpl.
  destruct (itemsByExpiry c !! (t `div` 86400000)) as [ids|].
  - case_bool_decide; simpl; eexists; (split; [done|]);
      (split; [by repeat split | done]).
  - eexists. split; [done|]. split; [apply same_store_refl | done].
Qed.

(** Both metrics updates throw exactly the exception [metrics_error] names,
    leave everything but the indexes and the used volume as it was, and
    change the used volume only when they return. *)
Lemma updateContainerMetricsAfterAdd_inv c item :
  ∃ c', updateContainerMetricsAfterAdd c item = (completes (metrics_error item), c') ∧
        same_store c c' ∧
        usedVolume c' = match metrics_error item with
                        | None => usedVolume c + volume (item_dimensions item)
                        | Some _ => usedVolume c
                        end.
Proof.
  unfold updateContainerMetricsAfterAdd, metrics_error.
  pose proof (update_priorityItems_inv ids_add c (item_priority item) (item_id item))
    as Hp.
  destruct (priorityItems_at (item_priority item));
    [destruct Hp as (c1 & -> & Hs1 & Hu1) | rewrite Hp; eexists;
       (split; [done|]); (split; [apply same_store_refl | done])
     | destruct Hp as (c1 & -> & Hs1 & Hu1)].
  all: pose proof (track_expiry_inv c1 (item_expiryDate item) (item_id item)) as He.
  all: destruct (item_expiryDate item) as [t|];
    [case_bool_decide; [destruct He as (c2 & -> & Hs2 & Hu2)|rewrite He] | rewrite He].
  all: simpl; eexists; (split; [done|]).
  all: try (split; [by eapply same_store_trans; [done | eapply same_store_trans;
                      [done | by repeat split]] | simpl; congruence]).
  all: try (split; [done | congruence]).
  all: split; [by eapply same_store_trans; [done | by repeat split] | simpl; congruence].
Qed.

Lemma updateContainerMetricsAfterRemove_inv c it :
  ∃ c', updateContainerMetricsAfterRemove c it
          = (completes (metrics_error (data it)), c') ∧
        same_store c c' ∧
        usedVolume c' = match metrics_error (data it) with
                        | None => usedVolume c - volume (item_dimensions (data it))
                        | Some _ => usedVolume c
                        end.
Proof.
  unfold updateContainerMetricsAfterRemove, metrics_error.
  pose proof (update_priorityItems_inv ids_delete c (item_priority (data it))
                (item_id (data it))) as Hp.
  destruct (priorityItems_at (item_priority (data it)));
    [destruct Hp as (c1 & -> & Hs1 & Hu1) | rewrite Hp; eexists;
       (split; [done|]); (split; [apply same_store_refl | done])
     | destruct Hp as (c1 & -> & Hs1 & Hu1)].
  all: pose proof (untrack_expiry_inv c1 (item_expiryDate (data it)) (item_id (data it)))
    as He.
  all: destruct (item_expiryDate (data it)) as [t|];
    [case_bool_decide; [destruct He as (c2 & -> & Hs2 & Hu2)|rewrite He] | rewrite He].
  all: simpl; eexists; (split; [done|]).
  all: try (split; [by eapply same_store_trans; [done | eapply same_store_trans;
                      [done | by repeat split]] | simpl; congruence]).
  all: try (split; [done | congruence]).
  all: split; [by eapply same_store_trans; [done | by repeat split] | simpl; congruence].
Qed.

Lemma updateContainerMetricsAfterAdd_same c item r c' :
  updateContainerMetricsAfterAdd c item = (r, c') → same_store c c'.
Proof.
  destruct (updateContainerMetricsAfterAdd_inv c item) as (c2 & -> & Hsame & _).
  by intros [= _ <-].
Qed.

Lemma same_store_wf c c' : same_store c c' → wf c → wf c'.
Proof.
  intros (_ & _ & Hd & _ & Hg & Hm & _ & _ & Ht) (Hshape & Hitems & Htemp).
  unfold wf. by rewrite Hd, Hg, Hm, Ht.
Qed.

Lemma removeItem_inv c itemId r c' :
  removeItem c itemId = (r, c') →
  (c' = c ∧ ∀ it, r ≠ Ok (Removed it)) ∨
  (∃ it, itemsData c !! itemId = Some it ∧
         isItemAccessible c itemId = Ok true ∧
         removed c itemId it r c').
Proof.
  unfold removeItem. destruct (itemsData c !! itemId) as [it|] eqn:Hit.
  - destruct (isItemAccessible c itemId) as [acc|msg] eqn:Hacc.
    + destruct acc; simpl.
      * destruct (updateContainerMetricsAfterRemove_inv (releaseSpace c itemId).2 it)
          as (c2 & Hupd & Hsame & Hvol).
        simpl in Hupd, Hsame, Hvol. rewrite Hupd.
        intros H. right. exists it. split; [done|]. split; [done|].
        exists c2. split; [done|]. split; [done|].
        destruct (metrics_error (data it)); simpl in H; by injection H as <- <-.
      * destruct (generateRetrievalPlan c itemId); intros [= <- <-]; by left.
    + intros [= <- <-]. by left.
  - intros [= <- <-]. by left.
Qed.

Lemma removed_grid c itemId it r c' :
  removed c itemId it r c' →
  grid c' = grid_map (clear_id itemId) (grid c) ∧ itemsData c' = itemsData c ∧
  dimensions c' = dimensions c ∧ openFace c' = openFace c ∧
  tempState c' = tempState c.
Proof.
  intros (c2 & _ & (_ & _ & Hd & Hf & Hg & Hm & _ & _ & Ht) & H).
  simpl in *. destruct (metrics_error (data it)); destruct H as (_ & -> & _); done.
Qed.

Lemma removeItem_wf c itemId r c' :
  wf c → removeItem c itemId = (r, c') → wf c'.
Proof.
  intros Hwf [[-> _]|(it & _ & _ & Hrem)]%removeItem_inv; [done|].
  apply removed_grid in Hrem as (Hg & Hm & Hd & _ & Ht).
  destruct Hwf as (Hshape & Hitems & Htemp).
  unfold wf. rewrite Hg, Hm, Hd, Ht. split; [|done].
  rewrite grid_map_imap. by apply grid_shape_imap.
Qed.

Theorem reachable_wf c : reachable c → wf c.
Proof.
  induction 1 as [id dims zn face _ | c itemData pos o c' _ IH Hpos Ho Hplace
                 | c item r c' _ IH Hupd | c itemId r c' _ IH Hrem].
  - apply new_Container_wf.
  - by eapply placeItem_wf.
  - destruct (updateContainerMetricsAfterAdd_inv c item) as (c2 & Hc2 & Hsame & _).
    rewrite Hupd in Hc2. injection Hc2 as _ <-. by eapply same_store_wf.
  - by eapply removeItem_wf.
Qed.

(** ** Blocking items *)

Lemma elem_of_set_add v x s : v ∈ set_add x s ↔ v = x ∨ v ∈ s.
Proof.
  unfold set_add. case_bool_decide as Hx.
  - split; [by right | by intros [->|?]].
  - rewrite elem_of_app, list_elem_of_singleton. tauto.
Qed.

Lemma NoDup_set_add x s : NoDup s → NoDup (set_add x s).
Proof.
  intros Hs. unfold set_add. case_bool_decide as Hx; [done|].
  apply NoDup_app. split; [done|]. split; [|apply NoDup_singleton].
  intros y Hy ->%list_elem_of_singleton. done.
Qed.

Lemma elem_of_corridor c it p : p ∈ corridor c it ↔ in_corridor c it p.
Proof.
  unfold corridor, in_corridor, in_footprint, in_front_of.
  destruct (openFace c); rewrite elem_of_cells_between; lia.
Qed.

Lemma in_corridor_within c it p :
  item_ok (dimensions c) it → in_corridor c it p →
  isWithinBounds (dimensions c) p = true.
Proof.
  intros [(Hw & Hd & Hh) (Hx & Hy & Hz)]. unfold in_corridor, in_footprint, in_front_of.
  intros Hc. apply bool_decide_eq_true. destruct (openFace c); lia.
Qed.

Lemma check_cell_cellAt g itemId acc p content :
  cellAt g p = Some content →
  check_cell g itemId acc p =
  Ok (match content with
      | Some b => if decide (b = itemId) then acc else set_add (JString b) acc
      | None => acc
      end).
Proof.
  intros Hc. unfold check_cell. rewrite (grid_read_cellAt _ _ _ Hc). simpl.
  destruct content as [b|]; simpl; [|done].
  destruct (decide (b = itemId)) as [->|Hne].
  - by rewrite bool_decide_eq_false_2 by (intros ?; done).
  - by rewrite bool_decide_eq_true_2 by congruence.
Qed.

(** One pass of [checkCellsInPath] over cells that all lie inside the grid:
    it cannot throw, and it adds exactly the ids it meets. *)
Lemma foldM_check_cell g itemId cells acc :
  (∀ p, p ∈ cells → is_Some (cellAt g p)) → NoDup acc →
  ∃ l, foldM (check_cell g itemId) acc cells = Ok l ∧ NoDup l ∧
       ∀ v, v ∈ l ↔
            v ∈ acc ∨
            ∃ b p, v = JString b ∧ b ≠ itemId ∧ p ∈ cells ∧
                   cellAt g p = Some (Some b).
Proof.
  revert acc. induction cells as [|p cells IH]; intros acc Hin Hnd; cbn [foldM].
  - exists acc. split; [done|]. split; [done|]. intros v. split; [auto|].
    intros [?|(b & q & _ & _ & Hq & _)]; [done|]. by apply elem_of_nil in Hq.
  - destruct (Hin p) as [content Hcontent]; [left|].
    rewrite (check_cell_cellAt _ _ _ _ _ Hcontent). simpl.
    destruct content as [b|]; simpl.
    + destruct (decide (b = itemId)) as [->|Hne].
      * destruct (IH acc) as (l & Hl & Hnd' & Hmem); [by intros; apply Hin; right|done|].
        exists l. split; [done|]. split; [done|]. intros v. rewrite Hmem.
        split; intros [?|(b & q & -> & Hb & Hq & Hcell)]; eauto.
        -- right. exists b, q. split; [done|]. split; [done|]. split; [by right|done].
        -- apply elem_of_cons in Hq as [->|Hq].
           ++ rewrite Hcontent in Hcell. congruence.
           ++ right. by exists b, q.
      * destruct (IH (set_add (JString b) acc)) as (l & Hl & Hnd' & Hmem);
          [by intros; apply Hin; right | by apply NoDup_set_add |].
        exists l. split; [done|]. split; [done|]. intros v. rewrite Hmem.
        rewrite elem_of_set_add.
        split; intros [H|(b' & q & -> & Hb & Hq & Hcell)]; eauto.
        -- destruct H as [->|?]; [|by left]. right. exists b, p.
           split; [done|]. split; [done|]. split; [by left|done].
        -- right. exists b', q. split; [done|]. split; [done|]. split; [by right|done].
        -- apply elem_of_cons in Hq as [->|Hq].
           ++ rewrite Hcontent in Hcell. injection Hcell as <-. auto.
           ++ right. by exists b', q.
    + destruct (IH acc) as (l & Hl & Hnd' & Hmem); [by intros; apply Hin; right|done|].
      exists l. split; [done|]. split; [done|]. intros v. rewrite Hmem.
      split; intros [?|(b & q & -> & Hb & Hq & Hcell)]; eauto.
      * right. exists b, q. split; [done|]. split; [done|]. split; [by right|done].
      * apply elem_of_cons in Hq as [->|Hq].
        -- rewrite Hcontent in Hcell. congruence.
        -- right. by exists b, q.
Qed.

(** In a well-formed container [findBlockingItems] returns normally, with
    the distinct ids found in the corridor. *)
Lemma findBlockingItems_ok c itemId it :
  wf c → itemsData c !! itemId = Some it →
  ∃ l, findBlockingItems c itemId = Ok l ∧ NoDup l ∧
       ∀ v, v ∈ l ↔
            ∃ b, v = JString b ∧ b ≠ itemId ∧
                 ∃ p, in_corridor c it p ∧ cellAt (grid c) p = Some (Some b).
Proof.
  intros (Hshape & Hitems & _) Hit.
  pose proof (Hitems _ _ Hit) as Hok. simpl in Hok.
  destruct (foldM_check_cell (grid c) itemId (corridor c it) []) as (l & Hl & Hnd & Hmem).
  - intros p Hp%elem_of_corridor.
    eapply grid_shape_cellAt; [done|]. by eapply in_corridor_within.
  - constructor.
  - exists l. unfold findBlockingItems, get_item. rewrite Hit. simpl.
    split; [done|]. split; [done|]. intros v. rewrite Hmem. split.
    + intros [Hv|(b & p & -> & Hb & Hp%elem_of_corridor & Hcell)];
        [by apply elem_of_nil in Hv|].
      exists b. split; [done|]. split; [done|]. by exists p.
    + intros (b & -> & Hb & p & Hp%elem_of_corridor & Hcell).
      right. by exists b, p.
Qed.

(** ** Visibility *)

Lemma clear_path_ok c itemId path : ∃ b, clear_path c itemId path = Ok b.
Proof.
  induction path as [|p path IH]; simpl; [by exists true|].
  destruct (isPositionOccupied c p) eqn:Hocc; [|done].
  unfold isPositionOccupied in Hocc. apply andb_true_iff in Hocc as [_ Hcell].
  destruct (cellAt (grid c) p) as [[b|]|] eqn:Hc; try discriminate.
  rewrite (grid_read_cellAt _ _ _ Hc). simpl.
  case_bool_decide; [by exists false | done].
Qed.

Lemma clear_path_own c itemId path :
  (∀ p b, p ∈ path → cellAt (grid c) p = Some (Some b) → b = itemId) →
  clear_path c itemId path = Ok true.
Proof.
  induction path as [|p path IH]; intros Hown; simpl; [done|].
  assert (clear_path c itemId path = Ok true) as Hrest.
  { apply IH. intros q b Hq. apply Hown. by right. }
  destruct (isPositionOccupied c p) eqn:Hocc; [|done].
  unfold isPositionOccupied in Hocc. apply andb_true_iff in Hocc as [_ Hcell].
  destruct (cellAt (grid c) p) as [[b|]|] eqn:Hc; try discriminate.
  rewrite (grid_read_cellAt _ _ _ Hc). simpl.
  rewrite (Hown p b) by (done || by left).
  by rewrite bool_decide_eq_false_2 by (intros ?; done).
Qed.

Lemma count_visible_from c itemId cells n :
  ∃ v, foldM (λ visibleCells p,
                vis ← isCellVisible c itemId p;
                mret (if vis : bool then visibleCells + 1 else visibleCells))
             n cells = Ok v ∧
       n ≤ v ≤ n + Z.of_nat (length cells).
Proof.
  revert n. induction cells as [|p cells IH]; intros n; cbn [foldM].
  - exists n. simpl. split; [done | lia].
  - destruct (clear_path_ok c itemId (sight_line c p)) as [b Hb].
    change (isCellVisible c itemId p) with (clear_path c itemId (sight_line c p)).
    rewrite Hb. simpl.
    destruct (IH (if b then n + 1 else n)) as (v & Hv & Hbound).
    exists v. split; [done|]. destruct b; simpl length; lia.
Qed.

Lemma count_visible_bounds c itemId cells :
  ∃ v, count_visible c itemId cells = Ok v ∧ 0 ≤ v ≤ Z.of_nat (length cells).
Proof. apply (count_visible_from c itemId cells 0). Qed.

Lemma count_visible_all_from c itemId cells n :
  (∀ p, p ∈ cells → isCellVisible c itemId p = Ok true) →
  foldM (λ visibleCells p,
           vis ← isCellVisible c itemId p;
           mret (if vis : bool then visibleCells + 1 else visibleCells))
        n cells = Ok (n + Z.of_nat (length cells)).
Proof.
  revert n. induction cells as [|p cells IH]; intros n Hall; cbn [foldM].
  - simpl. f_equal. lia.
  - rewrite (Hall p) by left. simpl. rewrite IH by (intros; apply Hall; by right).
    f_equal. simpl length. lia.
Qed.

Lemma sight_line_in_box c it p q :
  touches_open_face c it = true →
  p ∈ box_cells (position it) (effectiveDimensions it) →
  q ∈ sight_line c p →
  q ∈ box_cells (position it) (effectiveDimensions it).
Proof.
  unfold touches_open_face, sight_line. rewrite !elem_of_box_cells.
  intros Htouch Hp Hq.
  destruct (openFace c); apply bool_decide_eq_true in Htouch;
    apply list_elem_of_fmap in Hq as (i & -> & Hi%elem_of_range); simpl; lia.
Qed.

(** A placed item that touches the open face hides none of its cells. *)
Lemma count_visible_touching c itemId it :
  placed c itemId it → touches_open_face c it = true →
  count_visible c itemId (item_cells (position it) (effectiveDimensions it)) =
  Ok (Z.of_nat (length (item_cells (position it) (effectiveDimensions it)))).
Proof.
  intros [_ Hcells] Htouch. unfold count_visible.
  rewrite count_visible_all_from; [done|].
  intros p Hp%elem_of_item_cells. unfold isCellVisible.
  apply clear_path_own. intros q b Hq Hb.
  rewrite (Hcells q) in Hb by by eapply sight_line_in_box.
  congruence.
Qed.

(** ** Arithmetic of the accessibility score *)

Lemma inject_Z_nonzero z : z ≠ 0 → Qeq_bool (inject_Z z) 0 = false.
Proof.
  intros Hz. destruct (Qeq_bool (inject_Z z) 0) eqn:H; [|done].
  apply Qeq_bool_iff in H. unfold Qeq in H. simpl in H. lia.
Qed.

Lemma num_div_Z a b :
  b ≠ 0 → num_div (num_of_Z a) (num_of_Z b) = Fin (inject_Z a / inject_Z b).
Proof. intros Hb. unfold num_div, num_of_Z. by rewrite inject_Z_nonzero. Qed.

Lemma ratio_bounds a b :
  0 ≤ a ≤ b → 0 < b → (0 <= inject_Z a / inject_Z b)%Q ∧ (inject_Z a / inject_Z b <= 1)%Q.
Proof.
  intros Ha Hb.
  assert (0 < inject_Z b)%Q as Hb' by (unfold Qlt; simpl; lia).
  split.
  - apply Qle_shift_div_l; [done|]. rewrite Qmult_0_l.
    unfold Qle; simpl; lia.
  - apply Qle_shift_div_r; [done|]. rewrite Qmult_1_l.
    unfold Qle; simpl; lia.
Qed.

Lemma ratio_nonneg a b :
  0 ≤ a → 0 < b → (0 <= inject_Z a / inject_Z b)%Q.
Proof.
  intros Ha Hb.
  assert (0 < inject_Z b)%Q as Hb' by (unfold Qlt; simpl; lia).
  apply Qle_shift_div_l; [done|]. rewrite Qmult_0_l.
  unfold Qle; simpl; lia.
Qed.

Lemma blocking_component_bounds (n : nat) :
  (0 <= inject_Z (Z.max 0 (40 - Z.of_nat n * 10)))%Q ∧
  (inject_Z (Z.max 0 (40 - Z.of_nat n * 10)) <= 40)%Q.
Proof.
  split.
  - unfold Qle; simpl; lia.
  - unfold Qle; simpl; lia.
Qed.

Lemma distance_component_bounds (r : Q) :
  (0 <= r)%Q →
  (0 <= Qmax 0 (20 - r * 20))%Q ∧ (Qmax 0 (20 - r * 20) <= 20)%Q.
Proof.
  intros Hr. split; [apply Q.le_max_l|].
  apply Q.max_lub; lra.
Qed.

(** ** The accessibility score *)

(** The value of the score once its three queries have returned. *)
Lemma accessibility_eval c itemId it v l :
  itemsData c !! itemId = Some it →
  count_visible c itemId (item_cells (position it) (effectiveDimensions it)) = Ok v →
  findBlockingItems c itemId = Ok l →
  volume (effectiveDimensions it) ≠ 0 →
  maxDistance c ≠ 0 →
  calculateAccessibilityScore c itemId =
  Ok (Fin (inject_Z v / inject_Z (volume (effectiveDimensions it)) * 100 / 100 * 40
           + inject_Z (Z.max 0 (40 - Z.of_nat (length l) * 10))
           + Qmax 0 (20 - inject_Z (distance_to_face c it)
                          / inject_Z (maxDistance c) * 20))%Q).
Proof.
  intros Hit Hv Hl Ht Hm.
  unfold calculateAccessibilityScore, calculateVisibilityScore, get_item, volume in *.
  rewrite Hit. cbn [mbind outcome_bind mret outcome_ret].
  rewrite Hv, Hl. cbn [mbind outcome_bind mret outcome_ret].
  by rewrite !num_div_Z by done.
Qed.

Lemma item_ok_measures c it :
  item_ok (dimensions c) it →
  0 < volume (effectiveDimensions it) ∧ 0 < maxDistance c ∧
  0 ≤ distance_to_face c it.
Proof.
  intros [(Hw & Hd & Hh) (Hx & Hy & Hz)].
  unfold volume, maxDistance, distance_to_face. split; [|destruct (openFace c); lia].
  apply Z.mul_pos_pos; [apply Z.mul_pos_pos|]; done.
Qed.

Lemma accessibility_in_range c itemId it :
  wf c → itemsData c !! itemId = Some it →
  ∃ q, calculateAccessibilityScore c itemId = Ok (Fin q) ∧
       (0 <= q)%Q ∧ (q <= 100)%Q.
Proof.
  intros Hwf Hit. pose proof Hwf as (_ & Hitems & _).
  pose proof (Hitems _ _ Hit) as Hok. simpl in Hok.
  destruct (item_ok_measures c it Hok) as (Hvol & Hmax & Hdist).
  destruct Hok as [(Hw & Hd & Hh) _].
  destruct (count_visible_bounds c itemId
              (item_cells (position it) (effectiveDimensions it))) as (v & Hv & Hvb).
  rewrite length_item_cells in Hvb by lia. fold (volume (effectiveDimensions it)) in Hvb.
  destruct (findBlockingItems_ok c itemId it Hwf Hit) as (l & Hl & _).
  eexists. split; [apply (accessibility_eval c itemId it v l); (done || lia)|].
  destruct (ratio_bounds v (volume (effectiveDimensions it))) as [Hr0 Hr1]; [lia|done|].
  destruct (blocking_component_bounds (length l)) as [Hb0 Hb1].
  destruct (distance_component_bounds
              (inject_Z (distance_to_face c it) / inject_Z (maxDistance c)))
    as [Hd0 Hd1]; [by apply ratio_nonneg|].
  set (r := (inject_Z v / inject_Z (volume (effectiveDimensions it)))%Q) in *.
  set (b := inject_Z (Z.max 0 (40 - Z.of_nat (length l) * 10))) in *.
  set (d := Qmax 0 (20 - inject_Z (distance_to_face c it)
                        / inject_Z (maxDistance c) * 20)) in *.
  assert (r * 100 / 100 * 40 == r * 40)%Q as -> by (field; discriminate).
  split; lra.
Qed.

(** C1. In every container state reachable by accepted place and remove
    operations, the accessibility score of every placed item is a number
    between 0 and 100; and when the item touches the open face and
    findBlockingItems returns the empty set, the score is at least 80. *)
Theorem accessibility_score_bounds c itemId it :
  reachable c → placed c itemId it →
  ∃ q, calculateAccessibilityScore c itemId = Ok (Fin q) ∧
       ((0 <= q)%Q ∧ (q <= 100)%Q) ∧
       (isItemVisible c itemId = Ok true →
        findBlockingItems c itemId = Ok [] →
        (80 <= q)%Q).
Proof.
  intros Hwf%reachable_wf Hplaced. pose proof Hplaced as [Hit _].
  destruct (accessibility_in_range c itemId it Hwf Hit) as (q & Hq & Hrange).
  exists q. split; [done|]. split; [done|].
  intros Hvis Hblock.
  unfold isItemVisible, get_item in Hvis. rewrite Hit in Hvis.
  injection Hvis as Htouch.
  pose proof Hwf as (_ & Hitems & _).
  pose proof (Hitems _ _ Hit) as Hok. simpl in Hok.
  destruct (item_ok_measures c it Hok) as (Hvol & Hmax & Hdist).
  destruct Hok as [(Hw & Hd & Hh) _].
  pose proof (count_visible_touching c itemId it Hplaced Htouch) as Hv.
  rewrite length_item_cells in Hv by lia. fold (volume (effectiveDimensions it)) in Hv.
  rewrite (accessibility_eval c itemId it _ [] Hit Hv Hblock) in Hq by lia.
  injection Hq as <-. simpl length.
  destruct (distance_component_bounds
              (inject_Z (distance_to_face c it) / inject_Z (maxDistance c)))
    as [Hd0 _]; [by apply ratio_nonneg|].
  set (d := Qmax 0 (20 - inject_Z (distance_to_face c it)
                        / inject_Z (maxDistance c) * 20)) in *.
  assert (inject_Z (volume (effectiveDimensions it))
          / inject_Z (volume (effectiveDimensions it)) * 100 / 100 * 40 == 40)%Q as ->.
  { field. unfold Qeq; simpl. lia. }
  change (inject_Z (Z.max 0 (40 - Z.of_nat 0 * 10))) with 40%Q.
  lra.
Qed.

(** ** Blockers, corridor and retrieval plan *)

(** C3. For every item of a reachable container, findBlockingItems returns
    exactly the distinct ids, other than the target's, that occupy at least
    one cell of the target's extraction corridor; an item none of whose
    cells lies in the target's projected footprint is never returned. *)
Theorem findBlockingItems_exact c itemId it :
  reachable c → itemsData c !! itemId = Some it →
  ∃ l, findBlockingItems c itemId = Ok l ∧ NoDup l ∧
       (∀ v, v ∈ l ↔
             ∃ b, v = JString b ∧ b ≠ itemId ∧
                  ∃ p, in_corridor c it p ∧ cellAt (grid c) p = Some (Some b)) ∧
       (∀ b, (∀ p, cellAt (grid c) p = Some (Some b) → ¬ in_footprint c it p) →
             JString b ∉ l).
Proof.
  intros Hwf%reachable_wf Hit.
  destruct (findBlockingItems_ok c itemId it Hwf Hit) as (l & Hl & Hnd & Hmem).
  exists l. split; [done|]. split; [done|]. split; [done|].
  intros b Hout (b' & [= <-] & _ & p & [Hfoot _] & Hcell)%Hmem.
  by apply (Hout p).
Qed.

Lemma corridor_nil_touching c it :
  touches_open_face c it = true → corridor c it = [].
Proof.
  intros Htouch. apply elem_of_nil_inv. intros p Hp%elem_of_corridor.
  unfold in_corridor, in_front_of, touches_open_face in *.
  destruct Hp as [_ Hp].
  destruct (openFace c); apply bool_decide_eq_true in Htouch; lia.
Qed.

(** C9. When the near face of an item lies on the open face (for instance
    y = 0 in a front-open container, where the upper loop bound is -1), the
    corridor scanned by findBlockingItems has no cell: no cell is read, no
    error is raised, and the result is the empty set. *)
Theorem findBlockingItems_at_open_face c itemId it :
  itemsData c !! itemId = Some it →
  isItemVisible c itemId = Ok true →
  corridor c it = [] ∧ findBlockingItems c itemId = Ok [].
Proof.
  intros Hit Hvis. unfold isItemVisible, get_item in Hvis. rewrite Hit in Hvis.
  injection Hvis as Htouch.
  pose proof (corridor_nil_touching c it Htouch) as Hnil.
  split; [done|]. unfold findBlockingItems, get_item. rewrite Hit. simpl.
  by rewrite Hnil.
Qed.

Lemma plan_steps_foldl target blockers moved steps0 :
  foldl (plan_step target) (moved, steps0) blockers =
  (moved ++ blockers,
   steps0 ++ ((λ b, "Move item " +:+ to_string b +:+ " to access " +:+ target)
                <$> blockers)).
Proof.
  revert moved steps0.
  induction blockers as [|b blockers IH]; intros moved steps0; cbn [foldl fmap list_fmap].
  - by rewrite !app_nil_r.
  - unfold plan_step at 2. cbn [fst snd]. rewrite IH. by rewrite <-!app_assoc.
Qed.

(** The plan computed in a well-formed container. *)
Lemma generateRetrievalPlan_spec c itemId it :
  wf c → itemsData c !! itemId = Some it →
  ∃ l plan,
    findBlockingItems c itemId = Ok l ∧
    generateRetrievalPlan c itemId = Ok plan ∧
    targetItem plan = itemId ∧
    itemsToMove plan = l ∧
    (isItemVisible c itemId = Ok true → l = [] →
     steps plan = ["Retrieve item " +:+ itemId +:+ " directly"]) ∧
    (¬ (isItemVisible c itemId = Ok true ∧ l = []) →
     steps plan =
       ((λ b, "Move item " +:+ to_string b +:+ " to access " +:+ itemId) <$> l)
       ++ ["Retrieve item " +:+ itemId]).
Proof.
  intros Hwf Hit.
  destruct (findBlockingItems_ok c itemId it Hwf Hit) as (l & Hl & _).
  exists l. unfold generateRetrievalPlan, isItemVisible, get_item.
  rewrite Hit. cbn [mbind outcome_bind mret outcome_ret].
  destruct (touches_open_face c it) eqn:Htouch.
  - rewrite Hl. cbn [mbind outcome_bind mret outcome_ret].
    destruct l as [|b l].
    + simpl. eexists. split; [done|]. split; [done|]. split; [done|]. split; [done|].
      split; [done|]. intros []. done.
    + rewrite bool_decide_eq_false_2 by done.
      cbn [mbind outcome_bind mret outcome_ret].
      rewrite plan_steps_foldl. simpl.
      eexists. split; [done|]. split; [done|]. split; [done|]. split; [done|].
      split; [done|]. done.
  - rewrite Hl. cbn [mbind outcome_bind mret outcome_ret].
    rewrite plan_steps_foldl. simpl.
    eexists. split; [done|]. split; [done|]. split; [done|]. split; [done|].
    split; [intros [=]|]. done.
Qed.

(** C4. For every item of a reachable container, generateRetrievalPlan
    returns a plan whose items to move are those of findBlockingItems, in
    the same order, each with its move step, followed by the step retrieving
    the target; when the target is visible and has no blocker the plan is
    the single direct-retrieve step with an empty move list. *)
Theorem generateRetrievalPlan_moves_blockers c itemId it :
  reachable c → itemsData c !! itemId = Some it →
  ∃ l plan,
    findBlockingItems c itemId = Ok l ∧
    generateRetrievalPlan c itemId = Ok plan ∧
    targetItem plan = itemId ∧
    itemsToMove plan = l ∧
    (isItemVisible c itemId = Ok true → l = [] →
     steps plan = ["Retrieve item " +:+ itemId +:+ " directly"]) ∧
    (¬ (isItemVisible c itemId = Ok true ∧ l = []) →
     steps plan =
       ((λ b, "Move item " +:+ to_string b +:+ " to access " +:+ itemId) <$> l)
       ++ ["Retrieve item " +:+ itemId]).
Proof.
  intros Hwf%reachable_wf Hit. by apply (generateRetrievalPlan_spec c itemId it).
Qed.

(** ** Placing and removing *)





(** In a reachable container every id of the grid is in the catalogue, so
    the catalogue check of addItem establishes the premise [id_absent]. *)
Lemma reachable_grid_ids c p b :
  reachable c → cellAt (grid c) p = Some (Some b) → is_Some (itemsData c !! b).
Proof.
  intros Hreach. revert p b.
  induction Hreach as [id dims zn face _ | c itemData pos o c' _ IH Hpos Ho Hplace
                      | c item r c' _ IH Hupd | c itemId r c' _ IH Hrem]; intros p b.
  - simpl. unfold empty_grid. intros (plane & col & H1 & H2 & H3)%cellAt_Some.
    apply array_at_Some in H1 as [_ [-> _]%lookup_replicate].
    apply array_at_Some in H2 as [_ [-> _]%lookup_replicate].
    apply array_at_Some in H3 as [_ [[=] _]%lookup_replicate].
  - apply placeItem_accepted in Hplace as (_ & Hg & Hm & _).
    rewrite Hg, Hm, fill_cells_imap, cellAt_imap.
    intros (v & Hv & Hb)%fmap_Some.
    case_bool_decide.
    + injection Hb as <-. rewrite lookup_insert_eq. by eexists.
    + subst v. destruct (decide (item_id itemData = b)) as [->|Hne].
      * rewrite lookup_insert_eq. by eexists.
      * rewrite lookup_insert_ne by done. by eapply IH.
  - apply updateContainerMetricsAfterAdd_same in Hupd as (_ & _ & _ & _ & Hg & Hm & _).
    rewrite Hg, Hm. apply IH.
  - apply removeItem_inv in Hrem as [[-> _]|(it & _ & _ & Hrem)]; [apply IH|].
    apply removed_grid in Hrem as (Hg & Hm & _).
    rewrite Hg, Hm, grid_map_imap, cellAt_imap.
    intros (v & Hv & Hb)%fmap_Some. unfold clear_id in Hb.
    case_bool_decide; [done|]. subst v. by eapply IH.
Qed.

Lemma catalogue_check_absent c itemId :
  reachable c → itemsData c !! itemId = None → id_absent (grid c) itemId.
Proof.
  intros Hreach Hnone. unfold id_absent.
  apply Forall_lookup; intros x plane Hx.
  apply Forall_lookup; intros y col Hy.
  apply Forall_lookup; intros z v Hz ->.
  destruct (reachable_grid_ids c (mkPosition (Z.of_nat x) (Z.of_nat y) (Z.of_nat z))
              itemId Hreach) as [it Hit]; [|congruence].
  apply cellAt_Some. exists plane, col. simpl. by rewrite !array_at_of_nat.
Qed.

(** ** Fragmentation analysis *)

Lemma temporarilyOccupy_loop_grid step_grid cells c :
  ∃ g, foldl (λ c p,
                if isWithinBounds (dimensions c) p
                then set_grid (step_grid (grid c) p) c
                else c)
             c cells = set_grid g c.
Proof.
  revert c. induction cells as [|p cells IH]; intros c; simpl.
  - exists (grid c). by destruct c.
  - destruct (isWithinBounds (dimensions c) p).
    + destruct (IH (set_grid (step_grid (grid c) p) c)) as [g ->]. by exists g.
    + apply IH.
Qed.

(** Whatever scratch cells a call writes, the snapshot restores the same
    object as before the call. *)
Lemma restore_temporarilyOccupySpace c pos dims :
  restoreTemporaryState (temporarilyOccupySpace c pos dims) = restoreTemporaryState c.
Proof.
  unfold temporarilyOccupySpace.
  destruct (temporarilyOccupy_loop_grid
              (λ g p, grid_write g p (Some "TEMP_OCCUPIED")) (box_cells pos dims)
              (match tempState c with
               | None => set_tempState (Some (json_copy (grid c))) c
               | Some _ => c
               end)) as [g ->].
  unfold restoreTemporaryState, json_copy.
  destruct c as [? ? ? ? g0 ? ? ? ? ? ? [saved|]]; simpl; done.
Qed.

Section FragmentationProofs.

Variable findLargestEmptySpace : Container → option Space.

Lemma frag_loop_restore fuel c spaces total largest c' spaces' :
  frag_loop findLargestEmptySpace fuel c spaces total largest = Some (c', spaces') →
  restoreTemporaryState c' = restoreTemporaryState c.
Proof.
  revert c spaces total largest.
  induction fuel as [|fuel IH]; intros c spaces total largest; simpl.
  - destruct largest as [sp|]; [|by intros [= <- <-]].
    case_bool_decide; [done | by intros [= <- <-]].
  - destruct largest as [sp|]; [|by intros [= <- <-]].
    case_bool_decide; [|by intros [= <- <-]].
    case_bool_decide.
    + intros [= <- <-]. apply restore_temporarilyOccupySpace.
    + intros ->%IH. apply restore_temporarilyOccupySpace.
Qed.

(** The loop ends within its budget: it leaves at the latest at the
    [break] that follows the eleventh space. *)
Lemma frag_loop_terminates fuel c spaces total largest :
  (length spaces ≤ 10)%nat → (11 ≤ fuel + length spaces)%nat →
  is_Some (frag_loop findLargestEmptySpace fuel c spaces total largest).
Proof.
  revert c spaces total largest.
  induction fuel as [|fuel IH]; intros c spaces total largest Hlen Hfuel; [lia|].
  simpl. destruct largest as [sp|]; [|done].
  case_bool_decide; [|done].
  case_bool_decide as Hbreak; [done|].
  apply IH; rewrite length_app in *; simpl in *; lia.
Qed.

(** C5. analyzeSpaceFragmentation is a pure query: called on a container
    with no analysis snapshot pending, it returns its report and leaves
    the container, hence the occupancy grid cell for cell, as it was
    before the call, whatever scratch cells the loop occupied. *)
Theorem analyzeSpaceFragmentation_pure c :
  tempState c = None →
  ∃ report c',
    analyzeSpaceFragmentation findLargestEmptySpace c = Some (report, c') ∧
    grid c' = grid c ∧ c' = c.
Proof.
  intros Htemp. unfold analyzeSpaceFragmentation.
  destruct (frag_loop_terminates 11 c [] 0 (findLargestEmptySpace c))
    as [[c1 spaces] Hloop]; [simpl; lia | simpl; lia |].
  rewrite Hloop. apply frag_loop_restore in Hloop.
  assert (restoreTemporaryState c = c) as Hc
    by (unfold restoreTemporaryState; by rewrite Htemp).
  rewrite Hc in Hloop. rewrite Hloop.
  by eexists _, _.
Qed.

End FragmentationProofs.

(** The other operations never leave a snapshot behind. *)
Lemma reachable_no_snapshot c : reachable c → tempState c = None.
Proof. by intros (_ & _ & ?)%reachable_wf. Qed.

(** ** The item's usage budget and waste flag *)

Lemma use_waste it :
  Models.isWaste it = true →
  Models.use it = (Throw "Cannot use an item that is already waste", it).
Proof. intros H. unfold Models.use. by rewrite H. Qed.

Lemma after_uses_waste n it :
  Models.isWaste it = true → Models.after_uses n it = it.
Proof.
  intros H. unfold Models.after_uses. induction n as [|n IH]; simpl; [done|].
  rewrite IH. by rewrite use_waste.
Qed.

(** C6. For an item created with usage limit 3 (and so with usage count 0),
    the first two calls of use() succeed and leave isWaste false, the third
    succeeds and sets isWaste, and every later call fails with the
    already-waste error and leaves the count at 3. *)
Theorem use_three_times id nm w d h m prio expiry zn it :
  Models.new_Item id nm w d h m prio expiry (Some 3) zn = Ok it →
  ∃ it1 it2 it3,
    Models.use it = (Ok false, it1) ∧ Models.isWaste it1 = false ∧
    Models.use it1 = (Ok false, it2) ∧ Models.isWaste it2 = false ∧
    Models.use it2 = (Ok true, it3) ∧ Models.isWaste it3 = true ∧
    Models.usageCount it3 = 3 ∧
    ∀ n, Models.use (Models.after_uses n it3)
         = (Throw "Cannot use an item that is already waste", it3).
Proof.
  unfold Models.new_Item. intros Hnew.
  repeat (match type of Hnew with
          | (if ?b then _ else _) = _ => destruct b; [discriminate|]
          end).
  injection Hnew as <-.
  eexists _, _, _. repeat (split; [reflexivity|]).
  intros n. rewrite after_uses_waste by done. by apply use_waste.
Qed.

(** C10. checkIfWaste is not a pure predicate: on an item that is not
    marked as waste but has passed its expiry date or reached its usage
    limit, the query returns true and sets isWaste, so that the object
    changes and every later use() fails. *)
Theorem checkIfWaste_marks it now :
  Models.isWaste it = false →
  Models.hasExpired it now = true ∨ Models.limitReached it = true →
  ∃ it',
    Models.checkIfWaste it now = (true, it') ∧
    Models.isWaste it' = true ∧ it' ≠ it ∧
    Models.usageCount it' = Models.usageCount it ∧
    ∀ n, Models.use (Models.after_uses n it')
         = (Throw "Cannot use an item that is already waste", it').
Proof.
  intros Hfresh Hdue. exists (Models.set_isWaste true it).
  assert (Models.checkIfWaste it now = (true, Models.set_isWaste true it)) as ->.
  { unfold Models.checkIfWaste. rewrite Hfresh.
    destruct (Models.hasExpired it now); [done|].
    destruct Hdue as [?| ->]; done. }
  split; [done|]. split; [done|]. split.
  { intros Heq. rewrite <-Heq in Hfresh. discriminate. }
  split; [done|].
  intros n. rewrite after_uses_waste by done. by apply use_waste.
Qed.

(** ** Orientations are the six permutations *)

Lemma getAllOrientations_ok :
  getAllOrientations =
  Ok [ mkOrientation 0 1 2; mkOrientation 0 2 1; mkOrientation 1 0 2;
       mkOrientation 1 2 0; mkOrientation 2 0 1; mkOrientation 2 1 0 ].
Proof. reflexivity. Qed.

Lemma Permutation_pair {A} (a b x y : A) :
  [a; b] ≡ₚ [x; y] → (a = x ∧ b = y) ∨ (a = y ∧ b = x).
Proof.
  intros Hp.
  assert (a ∈ [x; y]) as Ha by (rewrite <-Hp; left).
  apply elem_of_cons in Ha as [->|Ha].
  - apply Permutation_cons_inv in Hp. apply Permutation_singleton_l in Hp.
    injection Hp as ->. by left.
  - apply list_elem_of_singleton in Ha as ->.
    rewrite (Permutation_swap y x []) in Hp.
    apply Permutation_cons_inv in Hp. apply Permutation_singleton_l in Hp.
    injection Hp as ->. by right.
Qed.

(** C8. Applying the six orientations of getAllOrientations to the original
    dimensions (w, d, h) yields, in order, (w,d,h), (w,h,d), (d,w,h),
    (d,h,w), (h,w,d), (h,d,w): a triple is among the results exactly when it
    is a permutation of the original triple. *)
Theorem orientations_permute dims :
  ∃ os,
    getAllOrientations = Ok os ∧
    (λ o, getEffectiveDimensions o dims) <$> os =
      [ mkDimensions (width dims) (depth dims) (height dims);
        mkDimensions (width dims) (height dims) (depth dims);
        mkDimensions (depth dims) (width dims) (height dims);
        mkDimensions (depth dims) (height dims) (width dims);
        mkDimensions (height dims) (width dims) (depth dims);
        mkDimensions (height dims) (depth dims) (width dims) ] ∧
    ∀ a b c,
      mkDimensions a b c ∈ (λ o, getEffectiveDimensions o dims) <$> os ↔
      [a; b; c] ≡ₚ [width dims; depth dims; height dims].
Proof.
  eexists. split; [apply getAllOrientations_ok|]. split; [reflexivity|].
  intros a b c. destruct dims as [w d h].
  cbn [fmap list_fmap getEffectiveDimensions dims_at widthAxis depthAxis heightAxis
       width depth height].
  repeat rewrite elem_of_cons. rewrite elem_of_nil. split.
  - intros [H|[H|[H|[H|[H|[H|[]]]]]]]; injection H as -> -> ->.
    + done.
    + by rewrite (Permutation_swap d h []).
    + by rewrite (Permutation_swap w d [h]).
    + rewrite (Permutation_swap w h []). by rewrite (Permutation_swap w d [h]).
    + rewrite (Permutation_swap w h [d]). by rewrite (Permutation_swap d h []).
    + rewrite (Permutation_swap d h [w]), (Permutation_swap w h []).
      by rewrite (Permutation_swap w d [h]).
  - intros Hp.
    assert (a ∈ [w; d; h]) as Ha by (rewrite <-Hp; left).
    repeat (apply elem_of_cons in Ha as [->|Ha]); [| | |by apply elem_of_nil in Ha].
    + apply Permutation_cons_inv, Permutation_pair in Hp as [[-> ->]|[-> ->]]; tauto.
    + rewrite (Permutation_swap d w [h]) in Hp.
      apply Permutation_cons_inv, Permutation_pair in Hp as [[-> ->]|[-> ->]]; tauto.
    + assert ([w; d; h] ≡ₚ [h; w; d]) as Hrot.
      { rewrite (Permutation_swap w h [d]). by rewrite (Permutation_swap d h []). }
      rewrite Hrot in Hp.
      apply Permutation_cons_inv, Permutation_pair in Hp as [[-> ->]|[-> ->]]; tauto.
Qed.

(** ** The priority multiplier *)



(** ** The claims at the example states *)

Lemma ex_container1_reachable : reachable ex_container1.
Proof.
  apply (reach_place ex_container ex_item1 (mkPosition 0 0 0) (mkOrientation 0 1 2)).
  - apply reach_new. unfold positive_dims; simpl; lia.
  - unfold positive_dims; simpl; lia.
  - reflexivity.
  - vm_compute; reflexivity.
Defined.

Lemma ex_smallAB_reachable : reachable ex_smallAB.
Proof.
  apply (reach_place ex_smallA ex_itemB (mkPosition 0 2 0) (mkOrientation 0 1 2)).
  - apply (reach_place ex_small ex_itemA (mkPosition 0 0 0) (mkOrientation 0 1 2)).
    + apply reach_new. unfold positive_dims; simpl; lia.
    + unfold positive_dims; simpl; lia.
    + reflexivity.
    + vm_compute; reflexivity.
  - unfold positive_dims; simpl; lia.
  - reflexivity.
  - vm_compute; reflexivity.
Defined.

Lemma accessibility_score_bounds_witness :
  ∃ q, calculateAccessibilityScore ex_container1 "ITEM001" = Ok (Fin q) ∧
       ((0 <= q)%Q ∧ (q <= 100)%Q) ∧
       (isItemVisible ex_container1 "ITEM001" = Ok true →
        findBlockingItems ex_container1 "ITEM001" = Ok [] →
        (80 <= q)%Q).
Proof.
  apply (accessibility_score_bounds ex_container1 "ITEM001" ex_placed1).
  - apply ex_container1_reachable.
  - split; [vm_compute; reflexivity|].
    apply Forall_forall. apply (bool_decide_unpack _). vm_compute. exact I.
Defined.



(** An accessible item whose priority is the string "constructor": the
    call throws a TypeError after the release.  The grid is the one before
    the placement, the used volume and the access history are not
    updated. *)
Example remove_inherited_priority :
  isItemAccessible ex_smallK "ITEM_K" = Ok true ∧
  ∃ c2, removeItem ex_smallK "ITEM_K" = (Throw "TypeError", c2) ∧
        grid c2 = grid ex_small ∧
        usedVolume c2 = usedVolume ex_smallK ∧
        accessHistory c2 = accessHistory ex_smallK.
Proof.
  split; [vm_compute; reflexivity|].
  eexists. split; [vm_compute; reflexivity|]. by repeat split.
Qed.

Lemma findBlockingItems_exact_witness :
  ∃ l, findBlockingItems ex_smallAB "ITEM_B" = Ok l ∧ NoDup l ∧
       (∀ v, v ∈ l ↔
             ∃ b, v = JString b ∧ b ≠ "ITEM_B" ∧
                  ∃ p, in_corridor ex_smallAB ex_placedB p ∧
                       cellAt (grid ex_smallAB) p = Some (Some b)) ∧
       (∀ b, (∀ p, cellAt (grid ex_smallAB) p = Some (Some b) →
                   ¬ in_footprint ex_smallAB ex_placedB p) →
             JString b ∉ l).
Proof.
  apply (findBlockingItems_exact ex_smallAB "ITEM_B" ex_placedB).
  - apply ex_smallAB_reachable.
  - vm_compute; reflexivity.
Defined.

Lemma generateRetrievalPlan_moves_blockers_witness :
  ∃ l plan,
    findBlockingItems ex_smallAB "ITEM_B" = Ok l ∧
    generateRetrievalPlan ex_smallAB "ITEM_B" = Ok plan ∧
    targetItem plan = "ITEM_B" ∧
    itemsToMove plan = l ∧
    (isItemVisible ex_smallAB "ITEM_B" = Ok true → l = [] →
     steps plan = ["Retrieve item " +:+ "ITEM_B" +:+ " directly"]) ∧
    (¬ (isItemVisible ex_smallAB "ITEM_B" = Ok true ∧ l = []) →
     steps plan =
       ((λ b, "Move item " +:+ to_string b +:+ " to access " +:+ "ITEM_B") <$> l)
       ++ ["Retrieve item " +:+ "ITEM_B"]).
Proof.
  apply (generateRetrievalPlan_moves_blockers ex_smallAB "ITEM_B" ex_placedB).
  - apply ex_smallAB_reachable.
  - vm_compute; reflexivity.
Defined.

Lemma analyzeSpaceFragmentation_pure_witness :
  ∃ report c',
    analyzeSpaceFragmentation first_empty_cell ex_smallAB = Some (report, c') ∧
    grid c' = grid ex_smallAB ∧ c' = ex_smallAB.
Proof.
  apply (analyzeSpaceFragmentation_pure first_empty_cell ex_smallAB).
  reflexivity.
Defined.

Lemma use_three_times_witness :
  ∃ it1 it2 it3,
    let it := Models.mkItem "item-1" "Example Item" 10 10 10 1 1 None (Some 3) "A"
                0 false None in
    Models.use it = (Ok false, it1) ∧ Models.isWaste it1 = false ∧
    Models.use it1 = (Ok false, it2) ∧ Models.isWaste it2 = false ∧
    Models.use it2 = (Ok true, it3) ∧ Models.isWaste it3 = true ∧
    Models.usageCount it3 = 3 ∧
    ∀ n, Models.use (Models.after_uses n it3)
         = (Throw "Cannot use an item that is already waste", it3).
Proof.
  apply (use_three_times "item-1" "Example Item" 10 10 10 1 1 None "A").
  reflexivity.
Defined.

Lemma findBlockingItems_at_open_face_witness :
  corridor ex_container1 ex_placed1 = [] ∧
  findBlockingItems ex_container1 "ITEM001" = Ok [].
Proof.
  apply (findBlockingItems_at_open_face ex_container1 "ITEM001" ex_placed1).
  - vm_compute; reflexivity.
  - vm_compute; reflexivity.
Defined.

Lemma checkIfWaste_marks_witness :
  ∃ it',
    Models.checkIfWaste ex_expired 200 = (true, it') ∧
    Models.isWaste it' = true ∧ it' ≠ ex_expired ∧
    Models.usageCount it' = Models.usageCount ex_expired ∧
    ∀ n, Models.use (Models.after_uses n it')
         = (Throw "Cannot use an item that is already waste", it').
Proof.
  apply (checkIfWaste_marks ex_expired 200).
  - reflexivity.
  - left. reflexivity.
Defined.


(** ** Seed scenarios *)

(** Scenario 1: ITEM001 at the origin of the front-open container is
    visible, unblocked, and has score 100. *)
Example scenario_item001 :
  isItemVisible ex_container1 "ITEM001" = Ok true ∧
  findBlockingItems ex_container1 "ITEM001" = Ok [] ∧
  ∃ q, calculateAccessibilityScore ex_container1 "ITEM001" = Ok (Fin q) ∧ (q == 100)%Q.
Proof.
  split; [reflexivity|]. split; [reflexivity|].
  eexists. split; [vm_compute; reflexivity | reflexivity].
Qed.

(** Scenario 3: ITEM_A stands in the corridor of ITEM_B. *)
Example scenario_item_b :
  findBlockingItems ex_smallAB "ITEM_B" = Ok [JString "ITEM_A"] ∧
  generateRetrievalPlan ex_smallAB "ITEM_B" =
    Ok (mkPlan "ITEM_B" [JString "ITEM_A"]
          ["Move item ITEM_A to access ITEM_B"; "Retrieve item ITEM_B"]).
Proof. split; vm_compute; reflexivity. Qed.

(** A record left in the catalogue by removeItem is not a placed item: its
    cells may belong to a later item, and its score then drops to 70 although
    its old box touches the open face and its corridor is empty. *)
Example stale_record_score :
  ∃ c q, ex_row_after = Ok c ∧
         is_Some (itemsData c !! "LONG") ∧
         isItemVisible c "LONG" = Ok true ∧
         findBlockingItems c "LONG" = Ok [] ∧
         calculateAccessibilityScore c "LONG" = Ok (Fin q) ∧ (q == 70)%Q.
Proof.
  eexists _, _. split; [vm_compute; reflexivity|].
  split; [by eexists|]. split; [reflexivity|]. split; [reflexivity|].
  split; [vm_compute; reflexivity | reflexivity].
Qed.

(** * Further properties of the sources *)

(** ** Coordinates and positions (models/Position.ts) *)

Lemma round_double_exact z : Z.abs z < 2 ^ 53 → TSModels.round_double z = z.
Proof. intros H. unfold TSModels.round_double. by rewrite bool_decide_eq_true_2. Qed.

Lemma abs_diff_bound B x y : Z.abs x ≤ B → Z.abs y ≤ B → Z.abs (x - y) ≤ 2 * B.
Proof. lia. Qed.

Lemma round_double_sum B x y :
  6 * B < 2 ^ 53 → 0 ≤ x ≤ 4 * B → 0 ≤ y ≤ 2 * B → TSModels.round_double (x + y) = x + y.
Proof.
  intros HB Hx Hy. apply round_double_exact. revert HB. generalize (2 ^ 53). lia.
Qed.

Lemma round_double_diff B x y :
  6 * B < 2 ^ 53 → Z.abs x ≤ B → Z.abs y ≤ B → TSModels.round_double (x - y) = x - y.
Proof.
  intros HB Hx Hy. apply round_double_exact.
  pose proof (abs_diff_bound B x y Hx Hy). revert HB. generalize (2 ^ 53). lia.
Qed.

Lemma distanceTo_exact (a b : TSModels.Coordinate) :
  TSModels.small a → TSModels.small b →
  TSModels.distanceTo a b
  = Z.abs (TSModels.width a - TSModels.width b)
    + Z.abs (TSModels.depth a - TSModels.depth b)
    + Z.abs (TSModels.height a - TSModels.height b).
Proof.
  destruct a as [aw ad ah], b as [bw bd bh]. unfold TSModels.small.
  cbn [TSModels.width TSModels.depth TSModels.height].
  intros (Haw & Had & Hah) (Hbw & Hbd & Hbh).
  assert (6 * 2 ^ 49 < 2 ^ 53) as HB by done.
  pose proof (abs_diff_bound _ _ _ Haw Hbw) as Hw.
  pose proof (abs_diff_bound _ _ _ Had Hbd) as Hd.
  pose proof (abs_diff_bound _ _ _ Hah Hbh) as Hh.
  unfold TSModels.distanceTo. cbn [TSModels.width TSModels.depth TSModels.height].
  rewrite (round_double_diff _ aw bw HB), (round_double_diff _ ad bd HB),
    (round_double_diff _ ah bh HB) by done.
  revert HB Hw Hd Hh. generalize (2 ^ 49). intros B HB Hw Hd Hh.
  rewrite (round_double_sum B (Z.abs (aw - bw)) (Z.abs (ad - bd)) HB) by lia.
  apply (round_double_sum B); [done | lia | lia].
Qed.

(** X1. On coordinates of at most 2^49 in size, where the doubles of the
    code add without rounding, [distanceTo] is the Manhattan distance and a
    metric: symmetric, non-negative, zero exactly between equal coordinates,
    and it satisfies the triangle inequality, the sum of two distances
    being below 2^53. *)
Theorem distanceTo_metric (a b c : TSModels.Coordinate) :
  TSModels.small a → TSModels.small b → TSModels.small c →
  TSModels.distanceTo a b
  = Z.abs (TSModels.width a - TSModels.width b)
    + Z.abs (TSModels.depth a - TSModels.depth b)
    + Z.abs (TSModels.height a - TSModels.height b) ∧
  TSModels.distanceTo a b = TSModels.distanceTo b a ∧
  0 ≤ TSModels.distanceTo a b ∧
  (TSModels.distanceTo a b = 0 ↔ a = b) ∧
  TSModels.distanceTo a c ≤ TSModels.distanceTo a b + TSModels.distanceTo b c ∧
  TSModels.distanceTo a b + TSModels.distanceTo b c < 2 ^ 53.
Proof.
  intros Ha Hb Hc.
  rewrite (distanceTo_exact a b), (distanceTo_exact b a), (distanceTo_exact a c),
    (distanceTo_exact b c) by done.
  destruct a as [aw ad ah], b as [bw bd bh], c as [cw cd ch].
  unfold TSModels.small in *.
  cbn [TSModels.width TSModels.depth TSModels.height] in *.
  destruct Ha as (Haw & Had & Hah), Hb as (Hbw & Hbd & Hbh), Hc as (Hcw & Hcd & Hch).
  split; [done|]. split; [clear; lia|]. split; [clear; lia|].
  split; [clear; split; [intros H; f_equal; lia | intros [= -> -> ->]; lia]|].
  split; [clear; lia|].
  assert (12 * 2 ^ 49 < 2 ^ 53) as HB by done.
  pose proof (abs_diff_bound _ _ _ Haw Hbw). pose proof (abs_diff_bound _ _ _ Had Hbd).
  pose proof (abs_diff_bound _ _ _ Hah Hbh). pose proof (abs_diff_bound _ _ _ Hbw Hcw).
  pose proof (abs_diff_bound _ _ _ Hbd Hcd). pose proof (abs_diff_bound _ _ _ Hbh Hch).
  clear Haw Had Hah Hbw Hbd Hbh Hcw Hcd Hch.
  revert HB. generalize (2 ^ 53).
  generalize dependent (2 ^ 49). intros. lia.
Qed.

Lemma distanceTo_metric_witness :
  let a := TSModels.mkCoordinate 0 0 0 in
  let b := TSModels.mkCoordinate 1 2 3 in
  let c := TSModels.mkCoordinate 4 0 1 in
  TSModels.distanceTo a b = Z.abs (0 - 1) + Z.abs (0 - 2) + Z.abs (0 - 3) ∧
  TSModels.distanceTo a b = TSModels.distanceTo b a ∧
  0 ≤ TSModels.distanceTo a b ∧
  (TSModels.distanceTo a b = 0 ↔ a = b) ∧
  TSModels.distanceTo a c ≤ TSModels.distanceTo a b + TSModels.distanceTo b c ∧
  TSModels.distanceTo a b + TSModels.distanceTo b c < 2 ^ 53.
Proof.
  apply (distanceTo_metric (TSModels.mkCoordinate 0 0 0) (TSModels.mkCoordinate 1 2 3)
           (TSModels.mkCoordinate 4 0 1));
    unfold TSModels.small; simpl; lia.
Defined.

(** Beyond 2^53 the sums are rounded and the triangle inequality fails:
    from (0,0,0) over (2^53,1,0) to (2^53+2,1,0) the two legs measure 2^53
    and 2, the direct distance 2^53+4. *)
Example distanceTo_rounds :
  let a := TSModels.mkCoordinate 0 0 0 in
  let b := TSModels.mkCoordinate (2 ^ 53) 1 0 in
  let c := TSModels.mkCoordinate (2 ^ 53 + 2) 1 0 in
  TSModels.distanceTo a b = 2 ^ 53 ∧ TSModels.distanceTo b c = 2 ∧
  TSModels.distanceTo a c = 2 ^ 53 + 4 ∧
  TSModels.distanceTo a b + TSModels.distanceTo b c < TSModels.distanceTo a c.
Proof. vm_compute. by repeat split. Qed.

Lemma overlaps_spec (a b : TSModels.Position) :
  TSModels.overlaps a b = true ↔
  (TSModels.width (TSModels.startCoordinates b) < TSModels.width (TSModels.endCoordinates a) ∧
   TSModels.width (TSModels.startCoordinates a) < TSModels.width (TSModels.endCoordinates b)) ∧
  (TSModels.depth (TSModels.startCoordinates b) < TSModels.depth (TSModels.endCoordinates a) ∧
   TSModels.depth (TSModels.startCoordinates a) < TSModels.depth (TSModels.endCoordinates b)) ∧
  (TSModels.height (TSModels.startCoordinates b) < TSModels.height (TSModels.endCoordinates a) ∧
   TSModels.height (TSModels.startCoordinates a) < TSModels.height (TSModels.endCoordinates b)).
Proof.
  unfold TSModels.overlaps. rewrite negb_true_iff, !orb_false_iff.
  rewrite !bool_decide_eq_false. lia.
Qed.

Lemma overlaps_sym (a b : TSModels.Position) :
  TSModels.overlaps a b = TSModels.overlaps b a.
Proof.
  apply eq_true_iff_eq. rewrite !overlaps_spec. lia.
Qed.

(** X2. [overlaps] is symmetric, and two boxes of positive extent overlap
    exactly when some point lies in both half-open boxes; in particular
    boxes that only share a face do not overlap. *)
Theorem overlaps_shared_point (a b : TSModels.Position) :
  TSModels.proper a → TSModels.proper b →
  TSModels.overlaps a b = TSModels.overlaps b a ∧
  (TSModels.overlaps a b = true ↔ ∃ q, TSModels.inside q a ∧ TSModels.inside q b).
Proof.
  intros Ha Hb. split; [apply overlaps_sym|]. rewrite overlaps_spec.
  unfold TSModels.proper, TSModels.inside in *. split.
  - intros H.
    exists (TSModels.mkCoordinate
              (Z.max (TSModels.width (TSModels.startCoordinates a))
                     (TSModels.width (TSModels.startCoordinates b)))
              (Z.max (TSModels.depth (TSModels.startCoordinates a))
                     (TSModels.depth (TSModels.startCoordinates b)))
              (Z.max (TSModels.height (TSModels.startCoordinates a))
                     (TSModels.height (TSModels.startCoordinates b)))).
    simpl. lia.
  - intros (q & Hqa & Hqb). lia.
Qed.

Lemma overlaps_shared_point_witness :
  TSModels.overlaps ex_boxA ex_boxAB = TSModels.overlaps ex_boxAB ex_boxA ∧
  (TSModels.overlaps ex_boxA ex_boxAB = true ↔
   ∃ q, TSModels.inside q ex_boxA ∧ TSModels.inside q ex_boxAB).
Proof.
  apply (overlaps_shared_point ex_boxA ex_boxAB).
  - unfold TSModels.proper; simpl; lia.
  - unfold TSModels.proper; simpl; lia.
Defined.

(** ** The usage budget (models/Item.ts) *)

Lemma after_uses_S n it :
  Models.after_uses (S n) it = (Models.use (Models.after_uses n it)).2.
Proof. reflexivity. Qed.

Lemma use_budget_state id nm w d h m prio expiry zn L it (n : nat) :
  Models.new_Item id nm w d h m prio expiry (Some L) zn = Ok it → 1 ≤ L →
  Models.usageLimit (Models.after_uses n it) = Some L ∧
  Models.usageCount (Models.after_uses n it) = Z.min (Z.of_nat n) L ∧
  Models.isWaste (Models.after_uses n it) = bool_decide (L ≤ Z.of_nat n).
Proof.
  unfold Models.new_Item. intros Hnew HL.
  repeat (match type of Hnew with
          | (if ?b then _ else _) = _ => destruct b; [discriminate|]
          end).
  injection Hnew as <-.
  induction n as [|n (IHl & IHc & IHw)].
  - simpl. split; [done|]. split; [lia|]. by rewrite bool_decide_eq_false_2 by lia.
  - rewrite after_uses_S. unfold Models.use. rewrite IHw.
    case_bool_decide as Hn; simpl.
    + split; [done|]. split; [lia|]. by rewrite bool_decide_eq_true_2 by lia.
    + unfold Models.limitReached; simpl. rewrite IHl, IHc.
      case_bool_decide as Hreach; simpl.
      * split; [done|]. split; [lia|]. by rewrite bool_decide_eq_true_2 by lia.
      * split; [done|]. split; [lia|]. by rewrite bool_decide_eq_false_2 by lia.
Qed.

(** X3. For an item created with a usage limit L ≥ 1, after n calls of
    use() (failed ones included) the usage count is min(n, L), the item is
    waste exactly when n ≥ L, getRemainingUses returns L - min(n, L), and
    the next call returns false while n + 1 < L, true when n + 1 = L, and
    throws afterwards. *)
Theorem use_budget id nm w d h m prio expiry zn L it (n : nat) :
  Models.new_Item id nm w d h m prio expiry (Some L) zn = Ok it → 1 ≤ L →
  let itn := Models.after_uses n it in
  Models.usageCount itn = Z.min (Z.of_nat n) L ∧
  Models.isWaste itn = bool_decide (L ≤ Z.of_nat n) ∧
  TSModels.getRemainingUses itn = Some (L - Z.min (Z.of_nat n) L) ∧
  (Models.use itn).1 =
    if bool_decide (Z.of_nat n + 1 < L) then Ok false
    else if bool_decide (Z.of_nat n + 1 = L) then Ok true
    else Throw "Cannot use an item that is already waste".
Proof.
  intros Hnew HL itn.
  destruct (use_budget_state _ _ _ _ _ _ _ _ _ _ _ n Hnew HL) as (Hl & Hc & Hw).
  fold itn in Hl, Hc, Hw.
  split; [done|]. split; [done|]. split.
  { unfold TSModels.getRemainingUses. rewrite Hl, Hc. f_equal. lia. }
  unfold Models.use. rewrite Hw.
  case_bool_decide as Hn; simpl.
  - rewrite bool_decide_eq_false_2 by lia. by rewrite bool_decide_eq_false_2 by lia.
  - unfold Models.limitReached; simpl. rewrite Hl, Hc.
    case_bool_decide as Hreach; simpl.
    + rewrite bool_decide_eq_false_2 by lia. by rewrite bool_decide_eq_true_2 by lia.
    + by rewrite bool_decide_eq_true_2 by lia.
Qed.

Lemma use_budget_witness :
  let itn := Models.after_uses 7 ex_five in
  Models.usageCount itn = Z.min (Z.of_nat 7) 5 ∧
  Models.isWaste itn = bool_decide (5 ≤ Z.of_nat 7) ∧
  TSModels.getRemainingUses itn = Some (5 - Z.min (Z.of_nat 7) 5) ∧
  (Models.use itn).1 =
    if bool_decide (Z.of_nat 7 + 1 < 5) then Ok false
    else if bool_decide (Z.of_nat 7 + 1 = 5) then Ok true
    else Throw "Cannot use an item that is already waste".
Proof.
  apply (use_budget "item-5" "Filter" 2 1 1 1 50 None "A" 5 ex_five 7).
  - reflexivity.
  - lia.
Defined.

Lemma after_call_invariant L f call :
  Models.usageLimit f = Some L →
  (Models.isWaste f = false → Models.usageCount f < L) →
  Models.usageLimit (after_call f call) = Some L ∧
  (Models.isWaste (after_call f call) = false →
   Models.usageCount (after_call f call) < L) ∧
  Models.usageCount f ≤ Models.usageCount (after_call f call) ∧
  (Models.isWaste f = true → Models.isWaste (after_call f call) = true) ∧
  (Models.usageCount (after_call f call) ≤ Models.usageCount f
   ∨ Models.isWaste f = false).
Proof.
  intros Hl Hinv. destruct call as [|now|reason]; simpl.
  - unfold Models.use. destruct (Models.isWaste f) eqn:Hw; simpl.
    + rewrite Hw. split; [done|]. split; [done|]. split; [lia|]. split; [done|]. left; lia.
    + unfold Models.limitReached; simpl. rewrite Hl.
      case_bool_decide as Hreach; simpl.
      * split; [done|]. split; [done|]. split; [lia|]. split; [done|]. by right.
      * rewrite Hw. split; [done|]. split; [lia|]. split; [lia|]. split; [done|]. by right.
  - unfold Models.checkIfWaste. destruct (Models.isWaste f) eqn:Hw; simpl.
    + rewrite Hw. split; [done|]. split; [done|]. split; [lia|]. split; [done|]. left; lia.
    + destruct (Models.hasExpired f now); simpl;
        [split; [done|]; split; [done|]; split; [lia|]; split; [done|]; by right|].
      destruct (Models.limitReached f); simpl;
        [split; [done|]; split; [done|]; split; [lia|]; split; [done|]; by right|].
      rewrite Hw. split; [done|]. split; [done|]. split; [lia|]. split; [done|]. by right.
  - split; [done|]. split; [done|]. split; [lia|]. split; [done|]. left; lia.
Qed.

(** X4. Whatever sequence of use(), checkIfWaste() and markAsWaste() calls
    an item created with a usage limit L ≥ 1 goes through, its usage count
    never exceeds L, it is waste once the count equals L, and a call never
    resets the waste flag. *)
Theorem usage_invariant id nm w d h m prio expiry zn L it calls :
  Models.new_Item id nm w d h m prio expiry (Some L) zn = Ok it → 1 ≤ L →
  let it' := after_calls it calls in
  Models.usageCount it' ≤ L ∧
  (Models.usageCount it' = L → Models.isWaste it' = true) ∧
  ∀ call, Models.isWaste it' = true → Models.isWaste (after_call it' call) = true.
Proof.
  intros Hnew HL it'.
  assert (Models.usageLimit it' = Some L ∧
          (Models.isWaste it' = false → Models.usageCount it' < L)) as [Hl Hinv].
  { unfold it', after_calls. clear it'.
    assert (Models.usageLimit it = Some L ∧
            (Models.isWaste it = false → Models.usageCount it < L)) as Hstart.
    { unfold Models.new_Item in Hnew.
      repeat (match type of Hnew with
              | (if ?b then _ else _) = _ => destruct b; [discriminate|]
              end).
      injection Hnew as <-. simpl. split; [done | lia]. }
    clear Hnew. revert it Hstart.
    induction calls as [|call calls IH]; intros it [Hl Hinv]; simpl; [done|].
    apply IH. destruct (after_call_invariant L it call Hl Hinv) as (? & ? & _). done. }
  split; [|split].
  - destruct (Models.isWaste it') eqn:Hw; [|specialize (Hinv eq_refl); lia].
    destruct (Z_le_gt_dec (Models.usageCount it') L) as [|Hgt]; [done|].
    exfalso. clear Hinv.
    (* a waste item above the limit would have been counted while waste *)
    unfold it', after_calls in *. clear it'.
    assert (Models.usageLimit it = Some L ∧
            (Models.isWaste it = false → Models.usageCount it < L) ∧
            Models.usageCount it ≤ L) as Hstart.
    { unfold Models.new_Item in Hnew.
      repeat (match type of Hnew with
              | (if ?b then _ else _) = _ => destruct b; [discriminate|]
              end).
      injection Hnew as <-. simpl. split; [done|]. split; lia. }
    clear Hnew. revert it Hstart Hgt Hw Hl.
    induction calls as [|call calls IH]; intros it (Hl0 & Hinv & Hle) Hgt Hw Hl;
      simpl in *; [lia|].
    apply (IH (after_call it call)); try done.
    destruct (after_call_invariant L it call Hl0 Hinv) as (Hl1 & Hinv1 & _ & _ & Hstep).
    split; [done|]. split; [done|].
    destruct Hstep as [Hsame|Hfresh]; [lia|].
    specialize (Hinv Hfresh).
    destruct call as [|now|reason]; simpl.
    + unfold Models.use. rewrite Hfresh. simpl.
      destruct (Models.limitReached _); simpl; lia.
    + unfold Models.checkIfWaste. rewrite Hfresh.
      destruct (Models.hasExpired it now); simpl; [lia|].
      destruct (Models.limitReached it); simpl; lia.
    + lia.
  - intros Hc. destruct (Models.isWaste it') eqn:Hw; [done|].
    specialize (Hinv eq_refl). lia.
  - intros call Hw.
    by destruct (after_call_invariant L it' call Hl Hinv) as (_ & _ & _ & Hkeep & _); auto.
Qed.

Lemma usage_invariant_witness :
  let it' := after_calls ex_five [CallUse; CallCheckIfWaste 0; CallUse] in
  Models.usageCount it' ≤ 5 ∧
  (Models.usageCount it' = 5 → Models.isWaste it' = true) ∧
  ∀ call, Models.isWaste it' = true → Models.isWaste (after_call it' call) = true.
Proof.
  apply (usage_invariant "item-5" "Filter" 2 1 1 1 50 None "A" 5 ex_five
           [CallUse; CallCheckIfWaste 0; CallUse]).
  - reflexivity.
  - lia.
Defined.

(** ** The container of models/Container.ts *)

Section TSMap.

Import TSModels.

Lemma map_get_set_eq m k v : map_get (map_set m k v) k = Some v.
Proof.
  induction m as [|[k' v'] m IH]; simpl.
  - by rewrite decide_True.
  - destruct (decide (k' = k)) as [->|Hne]; simpl.
    + by rewrite decide_True.
    + by rewrite decide_False.
Qed.

Lemma map_get_set_ne m k v k' :
  k ≠ k' → map_get (map_set m k v) k' = map_get m k'.
Proof.
  intros Hne. induction m as [|[k0 v0] m IH]; simpl.
  - by rewrite decide_False.
  - destruct (decide (k0 = k)) as [->|Hne0]; simpl.
    + by rewrite !decide_False.
    + destruct (decide (k0 = k')); [done | apply IH].
Qed.

Lemma map_get_None m k : map_get m k = None ↔ k ∉ fst <$> m.
Proof.
  induction m as [|[k' v'] m IH]; simpl.
  - split; [intros _ []%elem_of_nil | done].
  - rewrite not_elem_of_cons. destruct (decide (k' = k)) as [->|Hne].
    + split; [done | by intros []].
    + rewrite IH. split; [by intros; split | by intros []].
Qed.

Lemma map_get_Some m k v : map_get m k = Some v → (k, v) ∈ m.
Proof.
  induction m as [|[k' v'] m IH]; simpl; [done|].
  destruct (decide (k' = k)) as [->|Hne].
  - intros [= ->]. left.
  - intros H. right. by apply IH.
Qed.

Lemma map_get_elem m k v : NoDup (fst <$> m) → (k, v) ∈ m → map_get m k = Some v.
Proof.
  induction m as [|[k' v'] m IH]; simpl; [by intros _ []%elem_of_nil|].
  intros [Hk Hnd]%NoDup_cons [[= -> ->]|Hin]%elem_of_cons.
  - by rewrite decide_True.
  - rewrite decide_False; [by apply IH|].
    intros ->. apply Hk. apply list_elem_of_fmap. by exists (k, v).
Qed.

Lemma map_delete_set_fresh m k v :
  map_get m k = None → map_delete (map_set m k v) k = m.
Proof.
  induction m as [|[k' v'] m IH]; simpl.
  - by rewrite decide_True.
  - destruct (decide (k' = k)) as [->|Hne]; [done|]. simpl.
    rewrite decide_False by done. intros H. by rewrite IH.
Qed.

Lemma elem_of_map_set m k v e :
  NoDup (fst <$> m) → e ∈ map_set m k v → e = (k, v) ∨ (e.1 ≠ k ∧ e ∈ m).
Proof.
  induction m as [|[k' v'] m IH]; simpl.
  - intros _ ->%list_elem_of_singleton. by left.
  - intros [Hk Hnd]%NoDup_cons. destruct (decide (k' = k)) as [->|Hne].
    + intros [->|Hin]%elem_of_cons; [by left|].
      right. split; [|by right]. intros He. apply Hk.
      apply list_elem_of_fmap. by exists e.
    + intros [->|Hin]%elem_of_cons.
      * right. split; [done | left].
      * destruct (IH Hnd Hin) as [->|[? ?]]; [by left|].
        right. split; [done | by right].
Qed.

Lemma map_set_keys m k v :
  fst <$> map_set m k v =
  if decide (k ∈ fst <$> m) then fst <$> m else (fst <$> m) ++ [k].
Proof.
  induction m as [|[k' v'] m IH]; cbn [map_set].
  - rewrite decide_False; [done | by intros ?%elem_of_nil].
  - rewrite (fmap_cons fst (k', v') m). cbn [fst].
    destruct (decide (k' = k)) as [->|Hne].
    + rewrite fmap_cons. cbn [fst]. rewrite decide_True; [done | left].
    + rewrite fmap_cons, IH. cbn [fst].
      destruct (decide (k ∈ fst <$> m)) as [Hin|Hout].
      * rewrite decide_True; [done | by right].
      * rewrite decide_False; [done|]. by intros [?|?]%elem_of_cons.
Qed.

Lemma map_set_NoDup m k v : NoDup (fst <$> m) → NoDup (fst <$> map_set m k v).
Proof.
  intros Hnd. rewrite map_set_keys. destruct (decide (k ∈ fst <$> m)); [done|].
  apply NoDup_app. split; [done|]. split; [|apply NoDup_singleton].
  by intros x Hx ->%list_elem_of_singleton.
Qed.

Lemma elem_of_map_delete m k e : e ∈ map_delete m k → e ∈ m.
Proof.
  induction m as [|[k' v'] m IH]; simpl; [done|].
  destruct (decide (k' = k)); [by right|].
  intros [->|Hin]%elem_of_cons; [left | right; by apply IH].
Qed.

Lemma map_delete_NoDup m k : NoDup (fst <$> m) → NoDup (fst <$> map_delete m k).
Proof.
  induction m as [|[k' v'] m IH]; simpl; [done|].
  intros [Hk Hnd]%NoDup_cons. destruct (decide (k' = k)); [done|]. simpl.
  apply NoDup_cons. split; [|by apply IH].
  intros (e & He & Hin%elem_of_map_delete)%list_elem_of_fmap.
  apply Hk, list_elem_of_fmap. by exists e.
Qed.

Lemma map_delete_absent m k :
  NoDup (fst <$> m) → map_get (map_delete m k) k = None.
Proof.
  induction m as [|[k' v'] m IH]; simpl; [done|].
  intros [Hk Hnd]%NoDup_cons. destruct (decide (k' = k)) as [->|Hne]; simpl.
  - by apply map_get_None.
  - rewrite decide_False by done. by apply IH.
Qed.

Lemma excluded_other id k : k ≠ id → excluded (Some id) k = false.
Proof.
  intros Hne. unfold excluded. rewrite (bool_decide_eq_false_2 (k = id)) by done.
  apply andb_false_r.
Qed.

Lemma positionCollides_false c pos ex :
  positionCollides c pos ex = false ↔
  ∀ k v p, (k, v) ∈ items c → excluded ex k = false →
           getPosition v = Some p → overlaps pos p = false.
Proof.
  unfold positionCollides. induction (items c) as [|[k v] m IH]; simpl.
  - split; [by intros _ ? ? ? ?%elem_of_nil | done].
  - rewrite orb_false_iff, IH. split.
    + intros [Hhead Hrest] k' v' p [[= -> ->]|Hin]%elem_of_cons Hex Hp.
      * rewrite Hex, Hp in Hhead. done.
      * by eapply Hrest.
    + intros H. split.
      * destruct (excluded ex k) eqn:Hex; [done|].
        destruct (getPosition v) as [p|] eqn:Hp; [|done].
        apply (H k v p); [left | done | done].
      * intros k' v' p Hin. apply H. by right.
Qed.

Lemma ts_placeItem_inv c item pos r c' :
  placeItem c item pos = (r, c') →
  (r = false ∧ c' = c) ∨
  (r = true ∧ isPositionInBounds c pos = true ∧
   positionCollides c pos (Some (itemId item)) = false ∧
   c' = set_items (map_set (items c) (itemId item)
                     (setLocation item (containerId c) pos)) c).
Proof.
  unfold placeItem. destruct (isPositionInBounds c pos); simpl.
  - destruct (positionCollides c pos (Some (itemId item))); intros [= <- <-].
    + by left.
    + by right.
  - intros [= <- <-]. by left.
Qed.

Lemma ts_placeItem_wf c item pos c' :
  ts_wf c → placeItem c item pos = (true, c') → ts_wf c'.
Proof.
  intros (Hdims & Hnd & Hent & Hpair) [[? _]|(_ & Hb & Hcol & ->)]%ts_placeItem_inv;
    [done|].
  rewrite positionCollides_false in Hcol.
  split; [done|]. split; [by apply map_set_NoDup|]. split; simpl.
  - intros k v Hin.
    apply (elem_of_map_set _ _ _ _ Hnd) in Hin as [[= -> ->]|[Hk Hin]];
      [|by apply Hent].
    split; [done|]. split; [done|]. by exists pos.
  - intros k1 v1 k2 v2 p1 p2 H1 H2 Hne Hp1 Hp2.
    apply (elem_of_map_set _ _ _ _ Hnd) in H1 as [[= -> ->]|[Hk1 Hin1]];
      apply (elem_of_map_set _ _ _ _ Hnd) in H2 as [[= -> ->]|[Hk2 Hin2]]; try done.
    + injection Hp1 as <-. simpl in Hk2.
      apply (Hcol k2 v2 p2); [done | by apply excluded_other | done].
    + injection Hp2 as <-. simpl in Hk1. rewrite overlaps_sym.
      apply (Hcol k1 v1 p1); [done | by apply excluded_other | done].
    + by eapply (Hpair k1 v1 k2 v2).
Qed.

Lemma ts_removeItem_wf c id r c' :
  ts_wf c → removeItem c id = (r, c') → ts_wf c'.
Proof.
  intros (Hdims & Hnd & Hent & Hpair). unfold removeItem.
  destruct (map_get (items c) id); intros [= <- <-]; [|done].
  split; [done|]. split; [by apply map_delete_NoDup|]. split; simpl.
  - intros k v Hin%elem_of_map_delete. by apply Hent.
  - intros k1 v1 k2 v2 p1 p2 H1%elem_of_map_delete H2%elem_of_map_delete.
    by apply Hpair.
Qed.

Lemma ts_new_Container_wf id zn w d h c : new_Container id zn w d h = Ok c → ts_wf c.
Proof.
  unfold new_Container. case_bool_decide as Hd; [done|].
  intros [= <-]. split; [simpl; lia|]. split; [constructor|].
  split; simpl; [by intros ? ? ?%elem_of_nil | by intros ? ? ? ? ? ? ?%elem_of_nil].
Qed.

Lemma ts_placeItem_keeps c item pos : ts_wf c → ts_wf (placeItem c item pos).2.
Proof.
  intros Hwf. destruct (placeItem c item pos) as [r c'] eqn:Hplace.
  destruct r; [by eapply ts_placeItem_wf|].
  apply ts_placeItem_inv in Hplace as [[_ ->]|[? _]]; done.
Qed.

Lemma ts_removeItem_keeps c id : ts_wf c → ts_wf (removeItem c id).2.
Proof.
  intros Hwf. destruct (removeItem c id) as [r c'] eqn:Hrem. by eapply ts_removeItem_wf.
Qed.

(** X5. The constructor establishes, and every placeItem and removeItem
    call keeps, the invariant of the container's content: positive
    dimensions; each item stored once, under its own id, located in this
    container and inside its bounds; no two stored items overlapping.  The
    content is the one at the time of the call, whatever was done to the
    stored objects before. *)
Theorem ts_container_invariant :
  (∀ id zn w d h c, new_Container id zn w d h = Ok c → ts_wf c) ∧
  (∀ c item pos, ts_wf c → ts_wf (placeItem c item pos).2) ∧
  (∀ c id, ts_wf c → ts_wf (removeItem c id).2).
Proof.
  split; [apply ts_new_Container_wf|].
  split; [apply ts_placeItem_keeps | apply ts_removeItem_keeps].
Qed.

(** X6. Placing an item whose id the container does not hold and then
    removing it by that id gives back the container as it was, and returns
    the item with its location cleared; in between, getItem finds the item
    located at the given position in this container. *)
Theorem ts_place_then_remove c item pos c1 :
  getItem c (itemId item) = None →
  placeItem c item pos = (true, c1) →
  getItem c1 (itemId item) = Some (setLocation item (containerId c) pos) ∧
  removeItem c1 (itemId item) = (Some (clearLocation item), c).
Proof.
  unfold getItem. intros Hfresh [[? _]|(_ & _ & _ & ->)]%ts_placeItem_inv; [done|].
  simpl. rewrite map_get_set_eq. split; [done|].
  unfold removeItem; simpl. rewrite map_get_set_eq, map_delete_set_fresh by done.
  by destruct c.
Qed.

End TSMap.

Section TSQueries.

Import TSModels.

Lemma blocks_spec itemPosition targetPosition :
  blocks itemPosition targetPosition = true ↔
  (width (startCoordinates targetPosition) < width (endCoordinates itemPosition) ∧
   width (startCoordinates itemPosition) < width (endCoordinates targetPosition)) ∧
  (height (startCoordinates targetPosition) < height (endCoordinates itemPosition) ∧
   height (startCoordinates itemPosition) < height (endCoordinates targetPosition)) ∧
  depth (startCoordinates itemPosition) < depth (startCoordinates targetPosition).
Proof.
  unfold blocks. rewrite !andb_true_iff, !negb_true_iff, !orb_false_iff.
  rewrite !bool_decide_eq_false, bool_decide_eq_true. lia.
Qed.

(** X7. In a container whose content satisfies the invariant,
    findBlockingItems lists, once each and in the order of storage, exactly
    the stored items other than the target that start at a smaller depth
    than the target and whose width and height intervals meet those of the
    target; it returns nothing for an id the container does not hold, and
    nothing for a target whose position starts at depth 0. *)
Theorem ts_findBlockingItems_exact c targetItemId :
  ts_wf c →
  (getItem c targetItemId = None → findBlockingItems c targetItemId = []) ∧
  (∀ target pt, getItem c targetItemId = Some target →
     getPosition target = Some pt →
     (isVisibleFromOpenFace pt = true → findBlockingItems c targetItemId = []) ∧
     NoDup (findBlockingItems c targetItemId) ∧
     findBlockingItems c targetItemId
       `sublist_of` ((λ entry : string * Item, entry.2) <$> items c) ∧
     ∀ b, b ∈ findBlockingItems c targetItemId ↔
          itemId b ≠ targetItemId ∧ getItem c (itemId b) = Some b ∧
          ∃ pb, getPosition b = Some pb ∧
                (width (startCoordinates pt) < width (endCoordinates pb) ∧
                 width (startCoordinates pb) < width (endCoordinates pt)) ∧
                (height (startCoordinates pt) < height (endCoordinates pb) ∧
                 height (startCoordinates pb) < height (endCoordinates pt)) ∧
                distanceFromOpenFace pb < distanceFromOpenFace pt).
Proof.
  intros (Hdims & Hnd & Hent & Hpair).
  unfold getItem, findBlockingItems. split; [by intros ->|].
  intros target pt Htarget Hpt. rewrite Htarget, Hpt.
  assert (∀ b, b ∈ (λ entry : string * Item, entry.2)
                     <$> filter (λ entry, is_blocker targetItemId pt entry) (items c) ↔
               itemId b ≠ targetItemId ∧ map_get (items c) (itemId b) = Some b ∧
               ∃ pb, getPosition b = Some pb ∧
                     (width (startCoordinates pt) < width (endCoordinates pb) ∧
                      width (startCoordinates pb) < width (endCoordinates pt)) ∧
                     (height (startCoordinates pt) < height (endCoordinates pb) ∧
                      height (startCoordinates pb) < height (endCoordinates pt)) ∧
                     distanceFromOpenFace pb < distanceFromOpenFace pt) as Hexact.
  { intros b. split.
    - intros ([k v] & -> & [Hblock Hin]%list_elem_of_filter)%list_elem_of_fmap.
      simpl. destruct (Hent k v Hin) as (Hid & _ & _). rewrite Hid.
      unfold is_blocker in Hblock. simpl in Hblock.
      destruct (decide (k = targetItemId)) as [|Hne]; [done|].
      destruct (getPosition v) as [pb|] eqn:Hpb; [|done].
      apply Is_true_true in Hblock.
      split; [done|]. split; [by apply map_get_elem|].
      exists pb. split; [done|]. by apply blocks_spec in Hblock.
    - intros (Hne & Hget%map_get_Some & pb & Hpb & Hblock).
      apply list_elem_of_fmap. exists (itemId b, b). split; [done|].
      apply list_elem_of_filter. split; [|done].
      unfold is_blocker. simpl. rewrite decide_False by done. rewrite Hpb.
      apply Is_true_true. by apply blocks_spec. }
  split; [|split; [|split; [|done]]].
  - intros Hvis%bool_decide_eq_true.
    apply elem_of_nil_inv. intros b Hb.
    destruct (proj1 (Hexact b) Hb) as (_ & Hget%map_get_Some & pb & Hpb & _ & _ & Hfront).
    destruct (Hent _ _ Hget) as (_ & _ & p & Hp & Hbounds).
    rewrite Hpb in Hp. injection Hp as <-.
    unfold isPositionInBounds in Hbounds.
    rewrite !andb_true_iff, !bool_decide_eq_true in Hbounds.
    unfold distanceFromOpenFace in Hfront. lia.
  - apply NoDup_fmap_2_strong.
    + intros [k1 v1] [k2 v2] [_ H1]%list_elem_of_filter [_ H2]%list_elem_of_filter.
      simpl. intros ->. f_equal.
      destruct (Hent _ _ H1) as (<- & _), (Hent _ _ H2) as (<- & _). done.
    + apply NoDup_filter. by apply (NoDup_fmap_1 fst).
  - apply fmap_sublist, sublist_filter.
Qed.

Lemma positionCollides_exclude c pos ex :
  positionCollides c pos None = false → positionCollides c pos ex = false.
Proof.
  rewrite !positionCollides_false. intros H k v p Hin _ Hp. by apply (H k v p).
Qed.

(** X8. Every position returned by findVisiblePositions(w, h, d) starts at
    depth 0 on the open face, has size w × d × h, lies within the width and
    the height of the container, and overlaps no stored item; when d does
    not exceed the container's depth, placeItem accepts any item there. *)
Theorem ts_findVisiblePositions_sound c w h d p :
  p ∈ findVisiblePositions c w h d →
  isVisibleFromOpenFace p = true ∧
  endCoordinates p = mkCoordinate (width (startCoordinates p) + w) d
                                  (height (startCoordinates p) + h) ∧
  (0 ≤ width (startCoordinates p) ∧ width (endCoordinates p) ≤ cwidth c) ∧
  (0 ≤ height (startCoordinates p) ∧ height (endCoordinates p) ≤ cheight c) ∧
  positionCollides c p None = false ∧
  (d ≤ cdepth c → ∀ item, (placeItem c item p).1 = true).
Proof.
  unfold findVisiblePositions.
  intros (wi & Hp & Hwi%elem_of_range_incl)%list_elem_of_bind.
  apply list_elem_of_bind in Hp as (hi & Hp & Hhi%elem_of_range_incl).
  destruct (positionCollides c _ None) eqn:Hcol; [by apply elem_of_nil in Hp|].
  apply list_elem_of_singleton in Hp as ->. simpl.
  split; [done|]. split; [done|]. split; [lia|]. split; [lia|]. split; [done|].
  intros Hd item. unfold placeItem.
  assert (isPositionInBounds c (mkPosition (mkCoordinate wi 0 hi)
                                           (mkCoordinate (wi + w) d (hi + h))) = true)
    as ->.
  { unfold isPositionInBounds; simpl.
    rewrite !andb_true_iff, !bool_decide_eq_true. lia. }
  simpl. by rewrite (positionCollides_exclude _ _ _ Hcol).
Qed.





End TSQueries.

(** ** Orientations (basic-operations.js) *)

Lemma permutation_of_three (a b c x y z : Z) :
  [a; b; c] ≡ₚ [x; y; z] →
  (a, b, c) ∈ [ (x, y, z); (x, z, y); (y, x, z); (y, z, x); (z, x, y); (z, y, x) ].
Proof.
  intros Hp. repeat rewrite elem_of_cons.
  assert (a ∈ [x; y; z]) as Ha by (rewrite <-Hp; left).
  repeat (apply elem_of_cons in Ha as [->|Ha]); [| | |by apply elem_of_nil in Ha].
  - apply Permutation_cons_inv, Permutation_pair in Hp as [[-> ->]|[-> ->]]; tauto.
  - rewrite (Permutation_swap y x [z]) in Hp.
    apply Permutation_cons_inv, Permutation_pair in Hp as [[-> ->]|[-> ->]]; tauto.
  - assert ([x; y; z] ≡ₚ [z; x; y]) as Hrot.
    { rewrite (Permutation_swap x z [y]). by rewrite (Permutation_swap y z []). }
    rewrite Hrot in Hp.
    apply Permutation_cons_inv, Permutation_pair in Hp as [[-> ->]|[-> ->]]; tauto.
Qed.

(** X10. The Orientation constructor accepts a triple of axes exactly when
    it is a permutation of 0, 1, 2, and throws its "Invalid orientation"
    error on every other triple. *)
Theorem new_Orientation_validates (a b c : Z) :
  (new_Orientation a b c = Ok (mkOrientation a b c) ↔ [a; b; c] ≡ₚ [0; 1; 2]) ∧
  (¬ [a; b; c] ≡ₚ [0; 1; 2] →
   new_Orientation a b c
   = Throw "Invalid orientation: must be a permutation of [0,1,2]").
Proof.
  assert (new_Orientation a b c = Ok (mkOrientation a b c) ↔ [a; b; c] ≡ₚ [0; 1; 2])
    as Hiff.
  { split.
    - intros Hok. pose proof (valid_orientation_cases (mkOrientation a b c) Hok) as Hin.
      repeat (apply elem_of_cons in Hin as [[= -> -> ->]|Hin]);
        [| | | | | |by apply elem_of_nil in Hin].
      + done.
      + by rewrite (Permutation_swap 1 2 []).
      + by rewrite (Permutation_swap 0 1 [2]).
      + rewrite (Permutation_swap 0 2 []). by rewrite (Permutation_swap 0 1 [2]).
      + rewrite (Permutation_swap 0 2 [1]). by rewrite (Permutation_swap 1 2 []).
      + rewrite (Permutation_swap 1 2 [0]), (Permutation_swap 0 2 []).
        by rewrite (Permutation_swap 0 1 [2]).
    - intros Hin%permutation_of_three.
      repeat (apply elem_of_cons in Hin as [[= -> -> ->]|Hin]);
        [done .. | by apply elem_of_nil in Hin]. }
  split; [done|]. intros Hnot.
  assert (new_Orientation a b c ≠ Ok (mkOrientation a b c)) as Hne by (by rewrite Hiff).
  unfold new_Orientation in *.
  destruct (array_sort [a; b; c]) as [|a0 [|a1 [|a2 [|]]]]; try done.
  by case_bool_decide.
Qed.

(** X11. A valid orientation only reorders the dimensions: the effective
    dimensions have the volume of the original ones, each effective
    dimension is one of the original three, and they are positive exactly
    when the original dimensions are. *)
Theorem effective_dims_reorder o dims :
  valid_orientation o →
  let eff := getEffectiveDimensions o dims in
  volume eff = volume dims ∧
  [width eff; depth eff; height eff] ≡ₚ [width dims; depth dims; height dims] ∧
  (positive_dims eff ↔ positive_dims dims).
Proof.
  intros Ho%valid_orientation_cases. destruct dims as [w d h].
  unfold volume, positive_dims.
  repeat (apply elem_of_cons in Ho as [->|Ho]); [| | | | | |by apply elem_of_nil in Ho];
    simpl; (split; [lia|]); (split; [|lia]).
  - done.
  - by rewrite (Permutation_swap d h []).
  - by rewrite (Permutation_swap w d [h]).
  - rewrite (Permutation_swap w h []). by rewrite (Permutation_swap w d [h]).
  - rewrite (Permutation_swap w h [d]). by rewrite (Permutation_swap d h []).
  - rewrite (Permutation_swap d h [w]), (Permutation_swap w h []).
    by rewrite (Permutation_swap w d [h]).
Qed.

Lemma effective_dims_reorder_witness :
  let eff := getEffectiveDimensions (mkOrientation 1 2 0) (mkDimensions 3 2 5) in
  volume eff = volume (mkDimensions 3 2 5) ∧
  [width eff; depth eff; height eff] ≡ₚ [3; 2; 5] ∧
  (positive_dims eff ↔ positive_dims (mkDimensions 3 2 5)).
Proof.
  apply (effective_dims_reorder (mkOrientation 1 2 0) (mkDimensions 3 2 5)).
  reflexivity.
Defined.

(** X12. Item.getPossibleOrientations of the item model lists the same six
    triples, in the same order, as the six orientations of
    Orientation.getAllOrientations applied to the item's dimensions. *)
Theorem possible_orientations_agree (f : Models.Item) :
  ∃ os,
    getAllOrientations = Ok os ∧
    TSModels.getPossibleOrientations f =
      (λ o, let eff := getEffectiveDimensions o
                         (mkDimensions (Models.item_width f) (Models.item_depth f)
                                       (Models.item_height f)) in
            [width eff; depth eff; height eff]) <$> os.
Proof. eexists. split; [apply getAllOrientations_ok | reflexivity]. Qed.

(** ** Access and removal (basic-operations.js, container management) *)

Lemma isItemAccessible_touches c itemId it :
  itemsData c !! itemId = Some it →
  isItemAccessible c itemId = Ok (touches_open_face c it).
Proof.
  intros Hit. unfold isItemAccessible, isItemVisible, get_item. rewrite Hit.
  cbn [mbind outcome_bind mret outcome_ret].
  destruct (touches_open_face c it) eqn:Htouch; [|done].
  unfold findBlockingItems, get_item. rewrite Hit.
  cbn [mbind outcome_bind mret outcome_ret].
  by rewrite (corridor_nil_touching c it Htouch).
Qed.

(** X13. The blocker test of isItemAccessible never changes its answer: for
    every container and id, isItemAccessible returns (or throws) exactly
    what isItemVisible does, because an item that touches the open face has
    an empty corridor. *)
Theorem isItemAccessible_is_visible c itemId :
  isItemAccessible c itemId = isItemVisible c itemId.
Proof.
  destruct (itemsData c !! itemId) as [it|] eqn:Hit.
  - rewrite (isItemAccessible_touches c itemId it Hit).
    unfold isItemVisible, get_item. by rewrite Hit.
  - unfold isItemAccessible, isItemVisible, get_item. by rewrite Hit.
Qed.

Lemma id_absent_release g itemId : id_absent (grid_map (clear_id itemId) g) itemId.
Proof.
  unfold id_absent, grid_map.
  apply Forall_fmap, Forall_forall; intros plane _. simpl.
  apply Forall_fmap, Forall_forall; intros col _. simpl.
  apply Forall_fmap, Forall_forall; intros v _. simpl.
  unfold clear_id. case_bool_decide; [done | done].
Qed.

(** X14. In a reachable container, removeItem on a catalogued id releases
    the item exactly when the item touches the open face.  Then no cell
    holds the id any more, every other cell is unchanged and the catalogue
    keeps the item's record.  The call returns the item, with the used
    volume lowered by the item's volume and the access logged, unless the
    metrics update throws (a TypeError for a priority that names an
    inherited property of the priority index, a RangeError for an invalid
    expiry date): then the exception leaves the call after the release,
    with the used volume and the access history as they were.  When the item
    does not touch the open face the call returns a retrieval plan and
    leaves the container unchanged. *)
Theorem removeItem_outcome c itemId it :
  reachable c → itemsData c !! itemId = Some it →
  if touches_open_face c it then
    ∃ c', removeItem c itemId
          = (match metrics_error (data it) with
             | None => Ok (Removed it)
             | Some msg => Throw msg
             end, c') ∧
          id_absent (grid c') itemId ∧
          (∀ p v, cellAt (grid c) p = Some v → v ≠ Some itemId →
                  cellAt (grid c') p = Some v) ∧
          itemsData c' = itemsData c ∧
          match metrics_error (data it) with
          | None =>
              usedVolume c' = usedVolume c - volume (item_dimensions (data it)) ∧
              accessHistory c' = accessHistory c ++ [(itemId, "remove")]
          | Some _ =>
              usedVolume c' = usedVolume c ∧ accessHistory c' = accessHistory c
          end
  else
    ∃ plan, removeItem c itemId =
            (Ok (RemoveFailed "Item is not directly accessible" (Some plan)), c).
Proof.
  intros Hwf%reachable_wf Hit.
  pose proof (isItemAccessible_touches c itemId it Hit) as Hacc.
  unfold removeItem. rewrite Hit, Hacc.
  destruct (touches_open_face c it); simpl.
  - destruct (updateContainerMetricsAfterRemove_inv (releaseSpace c itemId).2 it)
      as (c2 & Hupd & (_ & _ & _ & _ & Hg & Hm & _ & Hh & _) & Hvol).
    simpl in Hupd, Hg, Hm, Hh, Hvol. rewrite Hupd.
    assert (id_absent (grid c2) itemId ∧
            (∀ p v, cellAt (grid c) p = Some v → v ≠ Some itemId →
                    cellAt (grid c2) p = Some v)) as [Habs Hcells].
    { rewrite Hg. split; [apply id_absent_release|].
      intros p v Hp Hv. rewrite grid_map_imap, cellAt_imap, Hp. simpl.
      unfold clear_id. by rewrite bool_decide_eq_false_2. }
    destruct (metrics_error (data it)); simpl; eexists; (split; [done|]); simpl;
      (split; [done|]); (split; [done|]); (split; [done|]); split; congruence.
  - destruct (generateRetrievalPlan_spec _ _ _ Hwf Hit) as (l & plan & _ & Hplan & _).
    rewrite Hplan. by exists plan.
Qed.

Lemma removeItem_outcome_witness :
  ∃ c', removeItem ex_smallAB "ITEM_A" = (Ok (Removed ex_placedA), c') ∧
        id_absent (grid c') "ITEM_A" ∧
        (∀ p v, cellAt (grid ex_smallAB) p = Some v → v ≠ Some "ITEM_A" →
                cellAt (grid c') p = Some v) ∧
        itemsData c' = itemsData ex_smallAB ∧
        usedVolume c' = usedVolume ex_smallAB
                        - volume (item_dimensions (data ex_placedA)) ∧
        accessHistory c' = accessHistory ex_smallAB ++ [("ITEM_A", "remove")].
Proof.
  apply (removeItem_outcome ex_smallAB "ITEM_A" ex_placedA).
  - apply ex_smallAB_reachable.
  - vm_compute; reflexivity.
Defined.

(** X15. Unknown ids: every query of the grid throws its not-found error,
    while removeItem returns a failure carrying the same message, no
    retrieval plan, and the container unchanged. *)
Theorem unknown_id_behaviour c itemId other :
  itemsData c !! itemId = None →
  isItemVisible c itemId = Throw (not_found itemId) ∧
  calculateVisibilityScore c itemId = Throw (not_found itemId) ∧
  calculateAccessibilityScore c itemId = Throw (not_found itemId) ∧
  findBlockingItems c itemId = Throw (not_found itemId) ∧
  generateRetrievalPlan c itemId
    = Throw ("Target item with ID " +:+ itemId +:+ " not found") ∧
  doItemsCollide c itemId other = Throw "One or both items not found" ∧
  doItemsCollide c other itemId = Throw "One or both items not found" ∧
  removeItem c itemId = (Ok (RemoveFailed (not_found itemId) None), c).
Proof.
  intros Hnone.
  unfold isItemVisible, calculateVisibilityScore, calculateAccessibilityScore,
    findBlockingItems, generateRetrievalPlan, doItemsCollide, removeItem, get_item.
  rewrite Hnone. repeat (split; [done|]). split; [|done].
  by destruct (itemsData c !! other).
Qed.

Lemma unknown_id_behaviour_witness :
  isItemVisible ex_container1 "NOPE" = Throw (not_found "NOPE") ∧
  calculateVisibilityScore ex_container1 "NOPE" = Throw (not_found "NOPE") ∧
  calculateAccessibilityScore ex_container1 "NOPE" = Throw (not_found "NOPE") ∧
  findBlockingItems ex_container1 "NOPE" = Throw (not_found "NOPE") ∧
  generateRetrievalPlan ex_container1 "NOPE"
    = Throw ("Target item with ID " +:+ "NOPE" +:+ " not found") ∧
  doItemsCollide ex_container1 "NOPE" "ITEM001" = Throw "One or both items not found" ∧
  doItemsCollide ex_container1 "ITEM001" "NOPE" = Throw "One or both items not found" ∧
  removeItem ex_container1 "NOPE"
    = (Ok (RemoveFailed (not_found "NOPE") None), ex_container1).
Proof.
  apply (unknown_id_behaviour ex_container1 "NOPE" "ITEM001").
  vm_compute; reflexivity.
Defined.

(** ** Visibility of unblocked items *)

Lemma sight_line_cases c it p q :
  p ∈ box_cells (position it) (effectiveDimensions it) →
  q ∈ sight_line c p →
  q ∈ box_cells (position it) (effectiveDimensions it) ∨ in_corridor c it q.
Proof.
  unfold sight_line, in_corridor, in_footprint, in_front_of.
  rewrite !elem_of_box_cells. intros Hp Hq.
  destruct (openFace c);
    apply list_elem_of_fmap in Hq as (i & -> & Hi%elem_of_range); simpl; lia.
Qed.

Lemma unblocked_all_visible c itemId it :
  wf c → placed c itemId it → findBlockingItems c itemId = Ok [] →
  count_visible c itemId (item_cells (position it) (effectiveDimensions it)) =
  Ok (Z.of_nat (length (item_cells (position it) (effectiveDimensions it)))).
Proof.
  intros Hwf [Hit Hcells] Hblock. unfold count_visible.
  rewrite count_visible_all_from; [done|].
  intros p Hp%elem_of_item_cells. unfold isCellVisible.
  apply clear_path_own. intros q b Hq Hb.
  destruct (sight_line_cases c it p q Hp Hq) as [Hbox|Hcor].
  - rewrite (Hcells q Hbox) in Hb. congruence.
  - destruct (decide (b = itemId)) as [|Hne]; [done|].
    destruct (findBlockingItems_ok c itemId it Hwf Hit) as (l & Hl & _ & Hmem).
    rewrite Hblock in Hl. injection Hl as <-.
    assert (JString b ∈ ([] : list jsval)) as Hin%elem_of_nil; [|done].
    apply Hmem. exists b. split; [done|]. split; [done|]. by exists q.
Qed.

(** X16. In a reachable container, a placed item for which
    findBlockingItems is empty hides none of its cells, wherever it stands:
    its visibility score is 100 and its accessibility score lies between 80
    and 100; it is 100 when the item touches the open face. *)
Theorem unblocked_scores c itemId it :
  reachable c → placed c itemId it → findBlockingItems c itemId = Ok [] →
  ∃ v a,
    calculateVisibilityScore c itemId = Ok (Fin v) ∧ (v == 100)%Q ∧
    calculateAccessibilityScore c itemId = Ok (Fin a) ∧
    (80 <= a)%Q ∧ (a <= 100)%Q ∧
    (distance_to_face c it = 0 → (a == 100)%Q).
Proof.
  intros Hwf%reachable_wf Hplaced Hblock. pose proof Hplaced as [Hit _].
  pose proof Hwf as (_ & Hitems & _).
  pose proof (Hitems _ _ Hit) as Hok. simpl in Hok.
  destruct (item_ok_measures c it Hok) as (Hvol & Hmax & Hdist).
  pose proof Hok as [(Hw & Hd & Hh) (Hx & Hy & Hz)].
  pose proof (unblocked_all_visible c itemId it Hwf Hplaced Hblock) as Hv.
  rewrite length_item_cells in Hv by lia. fold (volume (effectiveDimensions it)) in Hv.
  assert (inject_Z (volume (effectiveDimensions it))
          / inject_Z (volume (effectiveDimensions it)) == 1)%Q as Hone.
  { field. unfold Qeq; simpl. lia. }
  assert (inject_Z (distance_to_face c it) / inject_Z (maxDistance c) <= 1)%Q as Hle.
  { apply ratio_bounds; [|done].
    unfold distance_to_face, maxDistance in *. destruct (openFace c); lia. }
  pose proof (ratio_nonneg _ _ Hdist Hmax) as Hge.
  eexists _, _. split.
  { unfold calculateVisibilityScore, get_item. rewrite Hit.
    cbn [mbind outcome_bind mret outcome_ret]. rewrite Hv.
    cbn [mbind outcome_bind mret outcome_ret].
    fold (volume (effectiveDimensions it)). rewrite num_div_Z by lia. done. }
  split; [by rewrite Hone|].
  split; [apply (accessibility_eval c itemId it _ [] Hit Hv Hblock); lia|].
  simpl length.
  change (inject_Z (Z.max 0 (40 - Z.of_nat 0 * 10))) with 40%Q.
  assert (distance_to_face c it = 0 →
          (inject_Z (distance_to_face c it) / inject_Z (maxDistance c) == 0)%Q) as Hzero.
  { intros ->. unfold Qdiv. by rewrite Qmult_0_l. }
  set (r := (inject_Z (distance_to_face c it) / inject_Z (maxDistance c))%Q) in *.
  assert (Qmax 0 (20 - r * 20) == 20 - r * 20)%Q as Hmaxeq.
  { apply Q.max_r. lra. }
  rewrite Hmaxeq.
  assert (inject_Z (volume (effectiveDimensions it))
          / inject_Z (volume (effectiveDimensions it)) * 100 / 100 * 40 == 40)%Q as ->.
  { field. unfold Qeq; simpl. lia. }
  split; [lra|]. split; [lra|]. intros Hd0. rewrite (Hzero Hd0). lra.
Qed.

Lemma unblocked_scores_witness :
  ∃ v a,
    calculateVisibilityScore ex_smallC "ITEM_C" = Ok (Fin v) ∧ (v == 100)%Q ∧
    calculateAccessibilityScore ex_smallC "ITEM_C" = Ok (Fin a) ∧
    (80 <= a)%Q ∧ (a <= 100)%Q ∧
    (distance_to_face ex_smallC ex_placedC = 0 → (a == 100)%Q).
Proof.
  apply (unblocked_scores ex_smallC "ITEM_C" ex_placedC).
  - apply (reach_place ex_small ex_itemC (mkPosition 0 1 0) (mkOrientation 0 1 2)).
    + apply reach_new. unfold positive_dims; simpl; lia.
    + unfold positive_dims; simpl; lia.
    + reflexivity.
    + vm_compute; reflexivity.
  - split; [vm_compute; reflexivity|].
    apply Forall_forall. apply (bool_decide_unpack _). vm_compute. exact I.
  - vm_compute; reflexivity.
Defined.

(** The item at depth 1 of the empty container is unblocked and scores 95. *)
Example unblocked_behind_face :
  distance_to_face ex_smallC ex_placedC = 1 ∧
  findBlockingItems ex_smallC "ITEM_C" = Ok [] ∧
  ∃ a, calculateAccessibilityScore ex_smallC "ITEM_C" = Ok (Fin a) ∧ (a == 95)%Q.
Proof.
  split; [reflexivity|]. split; [vm_compute; reflexivity|].
  eexists. split; [vm_compute; reflexivity | reflexivity].
Qed.

(** ** Collisions *)

Lemma doItemsCollide_spec c id1 id2 it1 it2 :
  itemsData c !! id1 = Some it1 → itemsData c !! id2 = Some it2 →
  positive_dims (effectiveDimensions it1) → positive_dims (effectiveDimensions it2) →
  doItemsCollide c id1 id2 = Ok true ↔
  ∃ p, p ∈ box_cells (position it1) (effectiveDimensions it1) ∧
       p ∈ box_cells (position it2) (effectiveDimensions it2).
Proof.
  intros H1 H2 (Hw1 & Hd1 & Hh1) (Hw2 & Hd2 & Hh2).
  unfold doItemsCollide. rewrite H1, H2. simpl. split.
  - intros [= Hc]. rewrite !andb_true_iff, !bool_decide_eq_true in Hc.
    exists (mkPosition (Z.max (px (position it1)) (px (position it2)))
                       (Z.max (py (position it1)) (py (position it2)))
                       (Z.max (pz (position it1)) (pz (position it2)))).
    rewrite !elem_of_box_cells. simpl. lia.
  - intros (p & Hp1%elem_of_box_cells & Hp2%elem_of_box_cells). f_equal.
    rewrite !andb_true_iff, !bool_decide_eq_true. lia.
Qed.

(** X17. In a reachable container two different placed items never
    collide: doItemsCollide returns false for them, in either order of the
    two ids. *)
Theorem placed_items_do_not_collide c id1 id2 it1 it2 :
  reachable c → placed c id1 it1 → placed c id2 it2 → id1 ≠ id2 →
  doItemsCollide c id1 id2 = Ok false ∧
  doItemsCollide c id2 id1 = doItemsCollide c id1 id2.
Proof.
  intros (_ & Hitems & _)%reachable_wf [H1 Hc1] [H2 Hc2] Hne.
  destruct (Hitems _ _ H1) as [Hpos1 _], (Hitems _ _ H2) as [Hpos2 _].
  assert (doItemsCollide c id1 id2 ≠ Ok true) as Hnot.
  { intros (p & Hp1 & Hp2)%(doItemsCollide_spec c id1 id2 it1 it2); try done.
    pose proof (Hc1 p Hp1) as E1. pose proof (Hc2 p Hp2) as E2.
    rewrite E1 in E2. congruence. }
  assert (doItemsCollide c id2 id1 = doItemsCollide c id1 id2) as Hsym.
  { unfold doItemsCollide. rewrite H1, H2. f_equal.
    apply eq_true_iff_eq. rewrite !andb_true_iff, !bool_decide_eq_true. tauto. }
  split; [|done].
  unfold doItemsCollide in *. rewrite H1, H2 in *.
  match goal with |- Ok ?b = _ => destruct b end; [by destruct Hnot | done].
Qed.

Lemma placed_items_do_not_collide_witness :
  doItemsCollide ex_smallAB "ITEM_A" "ITEM_B" = Ok false ∧
  doItemsCollide ex_smallAB "ITEM_B" "ITEM_A" = doItemsCollide ex_smallAB "ITEM_A" "ITEM_B".
Proof.
  apply (placed_items_do_not_collide ex_smallAB "ITEM_A" "ITEM_B"
           (mkPlacedItem ex_itemA (mkPosition 0 0 0) (mkOrientation 0 1 2)
                         (mkDimensions 2 2 2))
           ex_placedB).
  - apply ex_smallAB_reachable.
  - split; [vm_compute; reflexivity|].
    apply Forall_forall. apply (bool_decide_unpack _). vm_compute. exact I.
  - split; [vm_compute; reflexivity|].
    apply Forall_forall. apply (bool_decide_unpack _). vm_compute. exact I.
  - done.
Defined.

(** ** The report of the fragmentation analysis *)

Section FragmentationReport.

Variable findLargestEmptySpace : Container → option Space.

Lemma frag_loop_spaces fuel c spaces total largest c' spaces' :
  frag_loop findLargestEmptySpace fuel c spaces total largest = Some (c', spaces') →
  (length spaces ≤ 10)%nat →
  ∃ more, spaces' = spaces ++ more ∧ (length spaces' ≤ 11)%nat ∧
          Forall (λ s, es_volume s = volume (es_dimensions s)) more ∧
          totalVolume c' = totalVolume c ∧ usedVolume c' = usedVolume c ∧
          (largest = None ∨ totalVolume c - usedVolume c ≤ total → more = []).
Proof.
  revert c spaces total largest.
  induction fuel as [|fuel IH]; intros c spaces total largest; simpl.
  - destruct largest as [sp|].
    + case_bool_decide; [done|]. intros [= <- <-] Hlen. exists [].
      rewrite app_nil_r. repeat (split; [first [done | lia | by constructor]|]). done.
    + intros [= <- <-] Hlen. exists []. rewrite app_nil_r.
      repeat (split; [first [done | lia | by constructor]|]). done.
  - destruct largest as [sp|].
    + case_bool_decide as Hcond.
      * assert (∀ pos dims, totalVolume (temporarilyOccupySpace c pos dims) = totalVolume c ∧
                            usedVolume (temporarilyOccupySpace c pos dims) = usedVolume c)
          as Hkeep.
        { intros pos dims. unfold temporarilyOccupySpace.
          destruct (temporarilyOccupy_loop_grid
                      (λ g p, grid_write g p (Some "TEMP_OCCUPIED")) (box_cells pos dims)
                      (match tempState c with
                       | None => set_tempState (Some (json_copy (grid c))) c
                       | Some _ => c
                       end)) as [g ->].
          by destruct (tempState c). }
        destruct (Hkeep (space_position sp) (space_dimensions sp)) as [Ht Hu].
        case_bool_decide as Hbreak.
        -- intros [= <- <-] Hlen. eexists. split; [done|].
           rewrite length_app in *. simpl in *.
           split; [lia|]. split; [by repeat constructor|].
           split; [done|]. split; [done|]. intros [?|?]; [done | lia].
        -- intros Hloop Hlen.
           apply IH in Hloop as (more & -> & Hlen' & Hvol & Ht' & Hu' & _);
             [|rewrite length_app in *; simpl in *; lia].
           eexists. rewrite <-app_assoc. split; [done|].
           split; [by rewrite app_assoc|]. split; [by constructor|].
           split; [congruence|]. split; [congruence|]. intros [?|?]; [done | lia].
      * intros [= <- <-] Hlen. exists []. rewrite app_nil_r.
        repeat (split; [first [done | lia | by constructor]|]). done.
    + intros [= <- <-] Hlen. exists []. rewrite app_nil_r.
      repeat (split; [first [done | lia | by constructor]|]). done.
Qed.

(** X18. analyzeSpaceFragmentation always returns: its report lists at most
    eleven spaces, counts them in emptySpaces, gives each the volume of its
    dimensions and takes largestEmptyVolume from the first; when the
    largest-space query finds nothing or the used volume already covers the
    total volume, the list is empty and largestEmptyVolume is 0, and when
    used and total volume are equal the fragmentation index is NaN. *)
Theorem fragmentation_report c :
  ∃ report c',
    analyzeSpaceFragmentation findLargestEmptySpace c = Some (report, c') ∧
    emptySpaces report = length (contiguousSpaces report) ∧
    (length (contiguousSpaces report) ≤ 11)%nat ∧
    Forall (λ s, es_volume s = volume (es_dimensions s)) (contiguousSpaces report) ∧
    largestEmptyVolume report
      = match contiguousSpaces report with [] => 0 | s :: _ => es_volume s end ∧
    (findLargestEmptySpace c = None ∨ totalVolume c ≤ usedVolume c →
     contiguousSpaces report = [] ∧ largestEmptyVolume report = 0) ∧
    (totalVolume c = usedVolume c → fragmentationIndex report = NaN).
Proof.
  unfold analyzeSpaceFragmentation.
  destruct (frag_loop_terminates findLargestEmptySpace 11 c [] 0 (findLargestEmptySpace c))
    as [[c1 spaces] Hloop]; [simpl; lia | simpl; lia |].
  rewrite Hloop.
  apply frag_loop_spaces in Hloop as (more & -> & Hlen & Hvol & Ht & Hu & Hempty);
    [|simpl; lia].
  simpl app in *.
  assert (totalVolume (restoreTemporaryState c1) = totalVolume c ∧
          usedVolume (restoreTemporaryState c1) = usedVolume c) as [Ht' Hu'].
  { unfold restoreTemporaryState. by destruct (tempState c1). }
  eexists _, _. split; [done|]. simpl.
  split; [done|]. split; [done|]. split; [done|]. split; [done|]. split.
  - intros Hnone. rewrite Hempty; [done|]. destruct Hnone; [by left | right; lia].
  - intros Heq. rewrite Ht', Hu', Heq, Z.sub_diag.
    by destruct more.
Qed.

End FragmentationReport.

(** ** Scratch cells *)

Lemma temporarilyOccupy_loop_fill v cells c :
  foldl (λ c p,
           if isWithinBounds (dimensions c) p
           then set_grid (grid_write (grid c) p v) c
           else c)
        c cells
  = set_grid (fill_cells v (filter (λ p, isWithinBounds (dimensions c) p = true) cells)
                         (grid c)) c.
Proof.
  revert c. induction cells as [|p cells IH]; intros c; simpl.
  - by destruct c.
  - destruct (isWithinBounds (dimensions c) p) eqn:Hin.
    + rewrite filter_cons_True by done. rewrite IH. simpl. by destruct c.
    + rewrite filter_cons_False by (by rewrite Hin). apply IH.
Qed.

(** X19. temporarilyOccupySpace writes the marker "TEMP_OCCUPIED" into every
    cell of the box that lies inside the grid, whether the cell was empty or
    held an item, and leaves every other cell as it was; it saves the grid
    as snapshot only when no snapshot is pending, so that nested calls keep
    the oldest one. *)
Theorem temporarilyOccupySpace_effect c pos dims :
  grid_shape (dimensions c) (grid c) →
  let c' := temporarilyOccupySpace c pos dims in
  (∀ p v, cellAt (grid c) p = Some v →
     cellAt (grid c') p
     = Some (if bool_decide (p ∈ box_cells pos dims) then Some "TEMP_OCCUPIED" else v)) ∧
  (∀ p, cellAt (grid c) p = None → cellAt (grid c') p = None) ∧
  tempState c' = match tempState c with
                 | None => Some (grid c)
                 | Some saved => Some saved
                 end ∧
  itemsData c' = itemsData c ∧ dimensions c' = dimensions c.
Proof.
  intros Hshape c'. unfold c', temporarilyOccupySpace.
  rewrite temporarilyOccupy_loop_fill.
  assert (∀ c0 : Container,
            dimensions c0 = dimensions c → grid c0 = grid c →
            (∀ p v, cellAt (grid c) p = Some v →
               cellAt (fill_cells (Some "TEMP_OCCUPIED")
                         (filter (λ p, isWithinBounds (dimensions c0) p = true)
                                 (box_cells pos dims)) (grid c0)) p
               = Some (if bool_decide (p ∈ box_cells pos dims)
                       then Some "TEMP_OCCUPIED" else v)) ∧
            (∀ p, cellAt (grid c) p = None →
               cellAt (fill_cells (Some "TEMP_OCCUPIED")
                         (filter (λ p, isWithinBounds (dimensions c0) p = true)
                                 (box_cells pos dims)) (grid c0)) p = None)) as Hcells.
  { intros c0 Hd Hg. rewrite Hd, Hg, fill_cells_imap. split.
    - intros p v Hp. rewrite cellAt_imap, Hp. simpl. f_equal.
      pose proof (cellAt_within _ _ _ _ Hshape Hp) as Hin.
      destruct (decide (p ∈ box_cells pos dims)) as [Hbox|Hbox].
      + rewrite (bool_decide_eq_true_2 (p ∈ box_cells pos dims)) by done.
        rewrite bool_decide_eq_true_2; [done|]. by apply list_elem_of_filter.
      + rewrite (bool_decide_eq_false_2 (p ∈ box_cells pos dims)) by done.
        rewrite bool_decide_eq_false_2; [done|]. by intros [_ ?]%list_elem_of_filter.
    - intros p Hp. by rewrite cellAt_imap, Hp. }
  destruct (tempState c) eqn:Htemp; simpl.
  - destruct (Hcells c eq_refl eq_refl) as [H1 H2]. by rewrite Htemp.
  - destruct (Hcells (set_tempState (Some (json_copy (grid c))) c) eq_refl eq_refl)
      as [H1 H2]. done.
Qed.

Lemma temporarilyOccupySpace_effect_witness :
  let c' := temporarilyOccupySpace ex_smallAB (mkPosition 1 1 0) (mkDimensions 2 2 1) in
  (∀ p v, cellAt (grid ex_smallAB) p = Some v →
     cellAt (grid c') p
     = Some (if bool_decide (p ∈ box_cells (mkPosition 1 1 0) (mkDimensions 2 2 1))
             then Some "TEMP_OCCUPIED" else v)) ∧
  (∀ p, cellAt (grid ex_smallAB) p = None → cellAt (grid c') p = None) ∧
  tempState c' = match tempState ex_smallAB with
                 | None => Some (grid ex_smallAB)
                 | Some saved => Some saved
                 end ∧
  itemsData c' = itemsData ex_smallAB ∧ dimensions c' = dimensions ex_smallAB.
Proof.
  apply (temporarilyOccupySpace_effect ex_smallAB (mkPosition 1 1 0) (mkDimensions 2 2 1)).
  apply (bool_decide_unpack _). vm_compute. exact I.
Defined.

(** ** Retrieval plans *)

(** X20. In a reachable container the plan of generateRetrievalPlan never
    asks to move the target itself, names no item twice, names only ids that
    have a record in the catalogue, so that a plan can be computed for each
    of them in turn, and has one step per item to move plus the final
    retrieval step. *)
Theorem retrieval_plan_sound c itemId it :
  reachable c → itemsData c !! itemId = Some it →
  ∃ plan,
    generateRetrievalPlan c itemId = Ok plan ∧
    NoDup (itemsToMove plan) ∧
    (JString itemId ∉ itemsToMove plan) ∧
    (∀ v, v ∈ itemsToMove plan →
          ∃ b plan', v = JString b ∧ is_Some (itemsData c !! b) ∧
                     generateRetrievalPlan c b = Ok plan') ∧
    length (steps plan) = S (length (itemsToMove plan)).
Proof.
  intros Hreach Hit. pose proof (reachable_wf c Hreach) as Hwf.
  destruct (generateRetrievalPlan_spec c itemId it Hwf Hit)
    as (l & plan & Hl & Hplan & _ & Hmove & Hdirect & Hsteps).
  destruct (findBlockingItems_ok c itemId it Hwf Hit) as (l' & Hl' & Hnd & Hmem).
  rewrite Hl in Hl'. injection Hl' as <-.
  exists plan. split; [done|]. rewrite Hmove. split; [done|]. split.
  { intros (b & [= <-] & Hne & _)%Hmem. done. }
  split.
  { intros v (b & -> & _ & p & _ & Hcell)%Hmem.
    destruct (reachable_grid_ids c p b Hreach Hcell) as [itb Hitb].
    destruct (generateRetrievalPlan_spec c b itb Hwf Hitb) as (_ & plan' & _ & Hp' & _).
    exists b, plan'. split; [done|]. split; [by eexists | done]. }
  assert (isItemVisible c itemId = Ok (touches_open_face c it)) as Hvis.
  { unfold isItemVisible, get_item. by rewrite Hit. }
  destruct (touches_open_face c it) eqn:Htouch; [destruct l as [|b l]|].
  - by rewrite Hdirect.
  - rewrite Hsteps by (by intros [_ ?]). rewrite length_app, length_fmap. simpl. lia.
  - rewrite Hsteps by (intros [? _]; congruence).
    rewrite length_app, length_fmap. simpl. lia.
Qed.

Lemma retrieval_plan_sound_witness :
  ∃ plan,
    generateRetrievalPlan ex_smallAB "ITEM_B" = Ok plan ∧
    NoDup (itemsToMove plan) ∧
    (JString "ITEM_B" ∉ itemsToMove plan) ∧
    (∀ v, v ∈ itemsToMove plan →
          ∃ b plan', v = JString b ∧ is_Some (itemsData ex_smallAB !! b) ∧
                     generateRetrievalPlan ex_smallAB b = Ok plan') ∧
    length (steps plan) = S (length (itemsToMove plan)).
Proof.
  apply (retrieval_plan_sound ex_smallAB "ITEM_B" ex_placedB).
  - apply ex_smallAB_reachable.
  - vm_compute; reflexivity.
Defined.

(** ** The weighted score of the ranker *)

Lemma priorityMultiplier_range item now :
  (0.8 <= priorityMultiplier item now)%Q ∧ (priorityMultiplier item now <= 2)%Q.
Proof.
  unfold priorityMultiplier.
  destruct (bool_decide (item_priority item = PrioStr "high"));
    destruct (bool_decide (item_priority item = PrioStr "low"));
    destruct (item_expiryDate item) as [expiry|];
    try destruct (Qlt_le_dec (daysUntilExpiry expiry now) 30);
    split; lra.
Qed.

(** X21. The priority multiplier lies between 0.8 and 2, so that for
    component scores between 0 and 100 the weighted score of a candidate
    lies between 0 and 200: it is not a percentage. *)
Theorem weightedScore_range item now (a u z : Q) :
  (0 <= a <= 100)%Q → (0 <= u <= 100)%Q → (0 <= z <= 100)%Q →
  (0.8 <= priorityMultiplier item now <= 2)%Q ∧
  (0 <= weightedScore item now a u z <= 200)%Q.
Proof.
  intros Ha Hu Hz. pose proof (priorityMultiplier_range item now) as [Hlo Hhi].
  split; [done|]. unfold weightedScore.
  set (m := priorityMultiplier item now) in *.
  set (s := (a * 0.5 + u * 0.3 + z * 0.2)%Q).
  assert (0 <= s <= 100)%Q as [Hs0 Hs1] by (unfold s; lra).
  split.
  - apply Qmult_le_0_compat; lra.
  - apply Qle_trans with (s * 2)%Q; [|lra].
    rewrite (Qmult_comm s m), (Qmult_comm s 2).
    apply Qmult_le_compat_r; lra.
Qed.

Lemma weightedScore_range_witness :
  (0.8 <= priorityMultiplier ex_item1 0 <= 2)%Q ∧
  (0 <= weightedScore ex_item1 0 100 50 50 <= 200)%Q.
Proof.
  apply (weightedScore_range ex_item1 0 100 50 50); lra.
Defined.

(** ** Placement *)

(** X22. placeItem is all or nothing: when it refuses, the container is
    unchanged; when it accepts, every cell of the box holds the item's id,
    every cell outside the box and every other catalogue record is
    unchanged, and the catalogue maps the id to the new record. *)
Theorem placeItem_outcome c itemData pos o r c' :
  placeItem c itemData pos o = (r, c') →
  if r then
    placed c' (item_id itemData)
      (mkPlacedItem itemData pos o (getEffectiveDimensions o (item_dimensions itemData))) ∧
    (∀ p, p ∉ box_cells pos (getEffectiveDimensions o (item_dimensions itemData)) →
          cellAt (grid c') p = cellAt (grid c) p) ∧
    (∀ k, k ≠ item_id itemData → itemsData c' !! k = itemsData c !! k)
  else c' = c.
Proof.
  destruct r; [|apply placeItem_rejected].
  intros (Hfree & Hg & Hm & _)%placeItem_accepted.
  rewrite isSpaceFree_spec in Hfree.
  split; [split|split].
  - rewrite Hm. apply lookup_insert_eq.
  - simpl. intros p Hp. destruct (Hfree p Hp) as [_ Hc].
    rewrite Hg, fill_cells_imap, cellAt_imap, Hc. simpl.
    by rewrite bool_decide_eq_true_2.
  - intros p Hp. rewrite Hg, fill_cells_imap, cellAt_imap.
    destruct (cellAt (grid c) p); simpl; [|done].
    by rewrite bool_decide_eq_false_2.
  - intros k Hk. rewrite Hm. by apply lookup_insert_ne.
Qed.

Lemma placeItem_outcome_witness :
  placed ex_container1 (item_id ex_item1)
    (mkPlacedItem ex_item1 (mkPosition 0 0 0) (mkOrientation 0 1 2)
       (getEffectiveDimensions (mkOrientation 0 1 2) (item_dimensions ex_item1))) ∧
  (∀ p, p ∉ box_cells (mkPosition 0 0 0)
              (getEffectiveDimensions (mkOrientation 0 1 2) (item_dimensions ex_item1)) →
        cellAt (grid ex_container1) p = cellAt (grid ex_container) p) ∧
  (∀ k, k ≠ item_id ex_item1 → itemsData ex_container1 !! k = itemsData ex_container !! k).
Proof.
  apply (placeItem_outcome ex_container ex_item1 (mkPosition 0 0 0) (mkOrientation 0 1 2)
           true ex_container1).
  vm_compute; reflexivity.
Defined.

Section PlacementsProofs.

Variable findEmptySpaces : Container → Dimensions → list Position.

(** X23. findValidPlacements never throws and returns exactly the
    placements made of a valid orientation, the dimensions that orientation
    gives the item, and a position that findEmptySpaces gives for these
    dimensions; when findEmptySpaces only returns positions where the box is
    free, placeItem accepts every returned placement. *)
Theorem findValidPlacements_sound c dims :
  ∃ l,
    findValidPlacements findEmptySpaces c dims = Ok l ∧
    (∀ pl, pl ∈ l ↔
           ∃ o, valid_orientation o ∧
                pl = mkPlacement (pl_position pl) o (getEffectiveDimensions o dims) ∧
                pl_position pl ∈ findEmptySpaces c (getEffectiveDimensions o dims)) ∧
    ((∀ d p, p ∈ findEmptySpaces c d → isSpaceFree c p d = true) →
     ∀ pl itemData, pl ∈ l → item_dimensions itemData = dims →
       (placeItem c itemData (pl_position pl) (pl_orientation pl)).1 = true).
Proof.
  unfold findValidPlacements. rewrite getAllOrientations_ok.
  cbn [mbind outcome_bind mret outcome_ret]. eexists. split; [done|].
  assert (∀ pl, pl ∈ (o ← [ mkOrientation 0 1 2; mkOrientation 0 2 1; mkOrientation 1 0 2;
                             mkOrientation 1 2 0; mkOrientation 2 0 1; mkOrientation 2 1 0 ];
                       (λ position, mkPlacement position o (getEffectiveDimensions o dims))
                         <$> findEmptySpaces c (getEffectiveDimensions o dims)) ↔
               ∃ o, valid_orientation o ∧
                    pl = mkPlacement (pl_position pl) o (getEffectiveDimensions o dims) ∧
                    pl_position pl ∈ findEmptySpaces c (getEffectiveDimensions o dims))
    as Hmem.
  { intros pl. rewrite list_elem_of_bind. split.
    - intros (o & (p & -> & Hp)%list_elem_of_fmap & Ho). exists o. simpl.
      split; [|done].
      repeat (apply elem_of_cons in Ho as [->|Ho]); [done .. | by apply elem_of_nil in Ho].
    - intros (o & Ho%valid_orientation_cases & Hpl & Hp). exists o.
      split; [|done]. apply list_elem_of_fmap. by exists (pl_position pl). }
  split; [done|].
  intros Hsound pl itemData (o & _ & Hpl & Hp)%Hmem <-.
  assert (pl_orientation pl = o) as -> by (by rewrite Hpl).
  unfold placeItem. by rewrite (Hsound _ _ Hp).
Qed.

End PlacementsProofs.

(** X24. Every container reachable by accepted placements and removeItem
    calls keeps its grid in the shape of its dimensions, keeps the box of
    every catalogue record inside the container and of positive size, has a
    catalogue record for every id found in a cell, and has no snapshot
    pending. *)
Theorem reachable_invariants c :
  reachable c →
  grid_shape (dimensions c) (grid c) ∧
  (∀ k it, itemsData c !! k = Some it →
     positive_dims (effectiveDimensions it) ∧
     box_inside (dimensions c) (position it) (effectiveDimensions it)) ∧
  (∀ p b, cellAt (grid c) p = Some (Some b) → is_Some (itemsData c !! b)) ∧
  tempState c = None.
Proof.
  intros Hreach. destruct (reachable_wf c Hreach) as (Hshape & Hitems & Htemp).
  split; [done|]. split; [|split; [|done]].
  - intros k it Hit. apply (Hitems k it Hit).
  - intros p b. by apply reachable_grid_ids.
Qed.

Lemma reachable_invariants_witness :
  grid_shape (dimensions ex_smallAB) (grid ex_smallAB) ∧
  (∀ k it, itemsData ex_smallAB !! k = Some it →
     positive_dims (effectiveDimensions it) ∧
     box_inside (dimensions ex_smallAB) (position it) (effectiveDimensions it)) ∧
  (∀ p b, cellAt (grid ex_smallAB) p = Some (Some b) →
          is_Some (itemsData ex_smallAB !! b)) ∧
  tempState ex_smallAB = None.
Proof.
  apply (reachable_invariants ex_smallAB). apply ex_smallAB_reachable.
Defined.

(** ** The item-model container at the example state *)

Lemma ex_ts_two_wf : ts_wf ex_ts_two.
Proof.
  apply ts_placeItem_keeps, ts_placeItem_keeps.
  by apply (ts_new_Container_wf "container-1" "A" 4 4 4).
Qed.

Lemma ts_container_invariant_witness : ts_wf ex_ts_two.
Proof.
  destruct ts_container_invariant as (Hnew & Hplace & _).
  apply (Hplace ex_ts_container1 ex_ts_item6 ex_ts_box6).
  apply (Hplace ex_ts_container ex_ts_item ex_ts_box).
  apply (Hnew "container-1" "A" 4 4 4). reflexivity.
Defined.

(** The limit of the invariant: an Item object shared by two containers.
    Container 1 stores the item; the same object is then placed in a second
    container, which writes the new location into it.  Read through, the
    content of container 1 now holds an item located in container 2: the
    invariant has failed for it without any call on container 1. *)
Example shared_item_leaves_invariant :
  let stored := TSModels.setLocation ex_ts_item "container-1" ex_ts_box in
  let shared := TSModels.setLocation stored "container-2" ex_ts_box6 in
  TSModels.getItem ex_ts_container1 "item-5" = Some stored ∧
  (∃ c2, TSModels.placeItem (TSModels.mkContainer "container-2" "B" 4 4 4 [])
           stored ex_ts_box6 = (true, c2) ∧
         TSModels.getItem c2 "item-5" = Some shared) ∧
  ts_wf ex_ts_container1 ∧
  ¬ ts_wf (TSModels.set_items [("item-5", shared)] ex_ts_container1).
Proof.
  split; [reflexivity|]. split; [eexists; split; reflexivity|]. split.
  - apply ts_placeItem_keeps. by apply (ts_new_Container_wf "container-1" "A" 4 4 4).
  - intros (_ & _ & Hent & _).
    destruct (Hent "item-5" _ (list_elem_of_here _ _)) as (_ & Hcid & _).
    discriminate Hcid.
Qed.

Lemma ts_place_then_remove_witness :
  TSModels.getItem ex_ts_container1 (TSModels.itemId ex_ts_item)
    = Some (TSModels.setLocation ex_ts_item (TSModels.containerId ex_ts_container)
              ex_ts_box) ∧
  TSModels.removeItem ex_ts_container1 (TSModels.itemId ex_ts_item)
    = (Some (TSModels.clearLocation ex_ts_item), ex_ts_container).
Proof.
  apply (ts_place_then_remove ex_ts_container ex_ts_item ex_ts_box ex_ts_container1).
  - reflexivity.
  - vm_compute; reflexivity.
Defined.

Lemma ts_findBlockingItems_exact_witness :
  TSModels.setLocation ex_ts_item "container-1" ex_ts_box
    ∈ TSModels.findBlockingItems ex_ts_two "item-6".
Proof.
  destruct (ts_findBlockingItems_exact ex_ts_two "item-6" ex_ts_two_wf) as [_ H].
  destruct (H (TSModels.setLocation ex_ts_item6 "container-1" ex_ts_box6) ex_ts_box6
              eq_refl eq_refl) as (_ & _ & _ & Hiff).
  apply Hiff. split; [discriminate|]. split; [reflexivity|].
  exists ex_ts_box. split; [reflexivity|]. vm_compute. repeat split.
Defined.

Lemma ts_findVisiblePositions_sound_witness :
  let p := TSModels.mkPosition (TSModels.mkCoordinate 2 0 0)
                               (TSModels.mkCoordinate 3 1 1) in
  TSModels.isVisibleFromOpenFace p = true ∧
  TSModels.endCoordinates p
    = TSModels.mkCoordinate (TSModels.width (TSModels.startCoordinates p) + 1) 1
                            (TSModels.height (TSModels.startCoordinates p) + 1) ∧
  (0 ≤ TSModels.width (TSModels.startCoordinates p) ∧
   TSModels.width (TSModels.endCoordinates p) ≤ TSModels.cwidth ex_ts_container1) ∧
  (0 ≤ TSModels.height (TSModels.startCoordinates p) ∧
   TSModels.height (TSModels.endCoordinates p) ≤ TSModels.cheight ex_ts_container1) ∧
  TSModels.positionCollides ex_ts_container1 p None = false ∧
  (1 ≤ TSModels.cdepth ex_ts_container1 →
   ∀ item, (TSModels.placeItem ex_ts_container1 item p).1 = true).
Proof.
  apply (ts_findVisiblePositions_sound ex_ts_container1 1 1 1).
  apply (bool_decide_unpack _). vm_compute. exact I.
Defined.

(** ** Cloning a container (models/Container.ts) *)

Section TSClone.

Import TSModels.

Lemma cloneItem_valid it : valid_fields (fields it) → cloneItem it = Ok it.
Proof.
  destruct it as [[id nm w d h m prio expiry limit zn count waste cid] pos].
  unfold valid_fields, cloneItem, Models.new_Item; simpl.
  intros (Hprio & Hdims & Hmass).
  rewrite bool_decide_eq_false_2 by lia. rewrite bool_decide_eq_false_2 by lia.
  destruct (Qle_bool m 0) eqn:Hm; [|done].
  apply Qle_bool_iff in Hm. by apply Qle_not_lt in Hm.
Qed.

Lemma map_set_fresh m k v : k ∉ fst <$> m → map_set m k v = m ++ [(k, v)].
Proof.
  induction m as [|[k' v'] m IH]; simpl; [done|].
  intros [Hne Hk]%not_elem_of_cons. rewrite decide_False by done. by rewrite IH.
Qed.

Lemma clone_loop c pre suf :
  ts_wf c → items c = pre ++ suf →
  (∀ k v, (k, v) ∈ suf → valid_fields (fields v)) →
  foldM (λ clonedContainer (entry : string * Item),
           clonedItem ← cloneItem entry.2;
           match getPosition entry.2 with
           | Some position => mret (placeItem clonedContainer clonedItem position).2
           | None => mret clonedContainer
           end)
        (set_items pre c) suf
  = Ok c.
Proof.
  intros (Hdims & Hnd & Hent & Hpair). revert pre.
  induction suf as [|[k v] suf IH]; intros pre Hitems Hvalid; cbn [foldM snd].
  - rewrite app_nil_r in Hitems. rewrite <-Hitems. by destruct c.
  - assert ((k, v) ∈ items c) as Hin.
    { rewrite Hitems, elem_of_app. right. left. }
    destruct (Hent k v Hin) as (Hid & Hcid & p & Hp & Hbounds).
    rewrite (cloneItem_valid v) by (apply (Hvalid k); left). simpl. rewrite Hp.
    assert (k ∉ fst <$> pre) as Hfresh.
    { rewrite Hitems, fmap_app in Hnd. apply NoDup_app in Hnd as (_ & Hdisj & _).
      intros Hk. apply (Hdisj k Hk). rewrite fmap_cons. left. }
    assert (placeItem (set_items pre c) v p = (true, set_items (pre ++ [(k, v)]) c))
      as Hplace.
    { unfold placeItem.
      change (isPositionInBounds (set_items pre c) p) with (isPositionInBounds c p).
      rewrite Hbounds. simpl.
      assert (positionCollides (set_items pre c) p (Some (itemId v)) = false) as ->.
      { apply positionCollides_false. simpl. intros k' v' p' Hin' _ Hp'.
        apply (Hpair k v k' v' p p'); try done.
        - rewrite Hitems, elem_of_app. by left.
        - intros ->. apply Hfresh, list_elem_of_fmap. by exists (k', v'). }
      simpl. rewrite Hid, (map_set_fresh pre k) by done.
      assert (setLocation v (containerId c) p = v) as ->; [|done].
      destruct v as [f pos']. simpl in *. subst pos'. unfold setLocation. simpl. f_equal.
      destruct f; simpl in *. by subst. }
    rewrite Hplace. cbn [snd mret outcome_ret mbind outcome_bind].
    apply (IH (pre ++ [(k, v)])).
    + by rewrite <-app_assoc.
    + intros k' v' Hin'. apply (Hvalid k'). by right.
Qed.

(** X25. clone() of a container whose content satisfies the invariant and
    whose stored items all satisfy the checks of the Item constructor
    returns a container with the same content as the original: no item is
    dropped, refused, moved or reordered. *)
Theorem ts_clone_equal c :
  ts_wf c →
  (∀ k v, (k, v) ∈ items c → valid_fields (fields v)) →
  clone c = Ok c.
Proof.
  intros Hwf Hvalid. pose proof Hwf as (Hdims & _).
  unfold clone, new_Container. rewrite bool_decide_eq_false_2 by lia.
  cbn [mbind outcome_bind].
  change (mkContainer (containerId c) (zone c) (cwidth c) (cdepth c) (cheight c) [])
    with (set_items [] c).
  by apply clone_loop.
Qed.

End TSClone.

Lemma ts_clone_equal_witness : TSModels.clone ex_ts_two = Ok ex_ts_two.
Proof.
  apply (ts_clone_equal ex_ts_two).
  - apply ex_ts_two_wf.
  - intros k v Hin.
    assert (Forall (λ e : string * TSModels.Item,
                      TSModels.valid_fields (TSModels.fields e.2))
                   (TSModels.items ex_ts_two)) as H.
    { repeat constructor; simpl; lia. }
    rewrite Forall_forall in H. apply (H (k, v) Hin).
Defined.

(** ** addItem *)

Section AddItemProofs.

Variable findEmptySpaces : Container → Dimensions → list Position.
Variable findBestAccessiblePlacement :
  Container → list Placement → ItemData → outcome Placement.
Variable recommendPlacement :
  Container → list Placement → ItemData → outcome Placement.

Lemma added_inv c item pos o :
  ∃ c', added c item pos o
        = (match metrics_error item with
           | None => Ok (Added pos o)
           | Some msg => Throw msg
           end, c') ∧
        updateContainerMetricsAfterAdd c item = (completes (metrics_error item), c') ∧
        same_store c c' ∧
        usedVolume c' = match metrics_error item with
                        | None => usedVolume c + volume (item_dimensions item)
                        | Some _ => usedVolume c
                        end.
Proof.
  destruct (updateContainerMetricsAfterAdd_inv c item) as (c' & Hupd & Hsame & Hvol).
  exists c'. unfold added. rewrite Hupd. by destruct (metrics_error item).
Qed.

Lemma placeItem_free c item pos o :
  isSpaceFree c pos (getEffectiveDimensions o (item_dimensions item)) = true →
  (placeItem c item pos o).1 = true.
Proof. intros H. unfold placeItem. by rewrite H. Qed.

Lemma placeItem_usedVolume c item pos o :
  usedVolume (placeItem c item pos o).2 = usedVolume c.
Proof. unfold placeItem. by destruct (isSpaceFree _ _ _). Qed.

Lemma added_effect c item pos o c1 res c' :
  placeItem c item pos o = (true, c1) →
  added c1 item pos o = (Ok res, c') →
  add_effect c item res c'.
Proof.
  intros Hplace Hadded.
  destruct (added_inv c1 item pos o) as (c2 & Heq & Hupd & _ & Hvol).
  rewrite Hadded in Heq.
  destruct (metrics_error item); [done|]. injection Heq as -> ->.
  exists c1. split; [done|]. split; [done|].
  pose proof (placeItem_usedVolume c item pos o) as Hu.
  rewrite Hplace in Hu. simpl in Hu. by rewrite Hvol, Hu.
Qed.

Lemma addItem_search_inv c item opts res c' :
  addItem_search findEmptySpaces findBestAccessiblePlacement recommendPlacement
    c item opts = (Ok res, c') →
  add_effect c item res c'.
Proof.
  unfold addItem_search.
  destruct (findValidPlacements findEmptySpaces c (item_dimensions item))
    as [[|first rest]|]; [by intros [= <- <-] | | done].
  destruct (choose_placement _ _ _ _ _ _ _) as [best|]; [|done].
  destruct (placeItem c item (pl_position best) (pl_orientation best))
    as [success c1] eqn:Hplace.
  destruct success.
  - by apply added_effect.
  - intros [= <- <-]. by apply placeItem_rejected in Hplace.
Qed.

(** X26. Whenever addItem returns, the id was not in the catalogue before.
    If it reports success at a position and orientation, the container is
    the one an accepted placeItem at that position and orientation gives,
    followed by the metrics update, with the used volume raised by the
    item's volume; if it reports a failure, the container is unchanged. *)
Theorem addItem_outcome c item opts res c' :
  addItem findEmptySpaces findBestAccessiblePlacement recommendPlacement
    c item opts = (Ok res, c') →
  itemsData c !! item_id item = None ∧
  match res with
  | Added pos o =>
      ∃ c1, placeItem c item pos o = (true, c1) ∧
            updateContainerMetricsAfterAdd c1 item = (Ok (), c') ∧
            usedVolume c' = usedVolume c + volume (item_dimensions item)
  | NotAdded _ => c' = c
  end.
Proof.
  unfold addItem.
  destruct (bool_decide (item_id item = "") || priority_falsy (item_priority item));
    [done|].
  case_bool_decide as Hhas; [done|].
  assert (itemsData c !! item_id item = None) as Hnone.
  { destruct (itemsData c !! item_id item); [|done]. destruct Hhas. by eexists. }
  intros H. split; [done|]. change (add_effect c item res c').
  destruct (preferredOrientation opts) as [o|]; [|by apply (addItem_search_inv c item opts)].
  destruct (preferredPosition opts) as [pos|]; [|by apply (addItem_search_inv c item opts)].
  destruct (isSpaceFree c pos (getEffectiveDimensions o (item_dimensions item)))
    eqn:Hfree; [|by apply (addItem_search_inv c item opts)].
  pose proof (placeItem_free c item pos o Hfree) as Hok.
  destruct (placeItem c item pos o) as [success c1] eqn:Hplace. simpl in Hok. subst success.
  by apply (added_effect c item pos o c1).
Qed.

(** X27. A preferred position and orientation at which the box is free are
    honoured in every mode: addItem places the item exactly there, without
    consulting the search or the choosers.  The call then reports that
    position and orientation, with the used volume raised by the item's
    volume, unless the metrics update throws (a TypeError for a priority
    that names an inherited property of the priority index, a RangeError for
    an invalid expiry date): the exception leaves the call with the item
    placed and the used volume not updated. *)
Theorem addItem_preferred c item opts o pos :
  item_id item ≠ "" → priority_falsy (item_priority item) = false →
  itemsData c !! item_id item = None →
  preferredOrientation opts = Some o → preferredPosition opts = Some pos →
  isSpaceFree c pos (getEffectiveDimensions o (item_dimensions item)) = true →
  ∃ c1 c',
    placeItem c item pos o = (true, c1) ∧
    addItem findEmptySpaces findBestAccessiblePlacement recommendPlacement c item opts
    = (match metrics_error item with
       | None => Ok (Added pos o)
       | Some msg => Throw msg
       end, c') ∧
    updateContainerMetricsAfterAdd c1 item = (completes (metrics_error item), c') ∧
    grid c' = grid c1 ∧ itemsData c' = itemsData c1 ∧
    usedVolume c' = match metrics_error item with
                    | None => usedVolume c + volume (item_dimensions item)
                    | Some _ => usedVolume c
                    end.
Proof.
  intros Hid Hprio Hnone Ho Hpos Hfree. unfold addItem.
  rewrite (bool_decide_eq_false_2 (item_id item = "")) by done. rewrite Hprio. simpl.
  rewrite bool_decide_eq_false_2 by (rewrite Hnone; by intros [? ?]).
  rewrite Ho, Hpos, Hfree.
  pose proof (placeItem_free c item pos o Hfree) as Hok.
  pose proof (placeItem_usedVolume c item pos o) as Hu.
  destruct (placeItem c item pos o) as [success c1]. simpl in Hok, Hu. subst success.
  destruct (added_inv c1 item pos o)
    as (c' & Hadded & Hupd & (_ & _ & _ & _ & Hg & Hm & _) & Hvol).
  exists c1, c'. split; [done|]. split; [done|]. split; [done|].
  split; [done|]. split; [done|]. by rewrite Hvol, Hu.
Qed.

(** X28. removeItem keeps the catalogue record of the item it removes, so
    after a successful removeItem every addItem of an item with that id
    throws the already-in-the-container error and changes nothing. *)
Theorem addItem_after_removeItem c itemId it c' item opts :
  removeItem c itemId = (Ok (Removed it), c') →
  item_id item = itemId → itemId ≠ "" →
  priority_falsy (item_priority item) = false →
  addItem findEmptySpaces findBestAccessiblePlacement recommendPlacement c' item opts
  = (Throw ("Item with ID " +:+ itemId +:+ " is already in the container"), c').
Proof.
  intros [[_ Hr]|(it' & Hit & _ & Hrem)]%removeItem_inv <- Hid Hprio;
    [by destruct (Hr it)|].
  apply removed_grid in Hrem as (_ & Hm & _).
  unfold addItem.
  rewrite (bool_decide_eq_false_2 (item_id item = "")) by done. rewrite Hprio. simpl.
  rewrite Hm, Hit. by rewrite bool_decide_eq_true_2 by by eexists.
Qed.

End AddItemProofs.

Lemma addItem_outcome_witness :
  itemsData ex_container !! item_id ex_item1 = None ∧
  ∃ c1, placeItem ex_container ex_item1 (mkPosition 0 0 0) (mkOrientation 0 1 2)
        = (true, c1) ∧
        updateContainerMetricsAfterAdd c1 ex_item1
        = (Ok (), (updateContainerMetricsAfterAdd ex_container1 ex_item1).2) ∧
        usedVolume (updateContainerMetricsAfterAdd ex_container1 ex_item1).2
        = usedVolume ex_container + volume (item_dimensions ex_item1).
Proof.
  apply (addItem_outcome ex_findEmptySpaces ex_chooser ex_chooser ex_container ex_item1
           defaultOptions (Added (mkPosition 0 0 0) (mkOrientation 0 1 2))
           (updateContainerMetricsAfterAdd ex_container1 ex_item1).2).
  vm_compute; reflexivity.
Defined.

Lemma addItem_preferred_witness :
  ∃ c1 c',
    placeItem ex_container ex_item1 (mkPosition 1 1 1) (mkOrientation 2 0 1)
    = (true, c1) ∧
    addItem ex_findEmptySpaces ex_chooser ex_chooser ex_container ex_item1 ex_preferred
    = (Ok (Added (mkPosition 1 1 1) (mkOrientation 2 0 1)), c') ∧
    updateContainerMetricsAfterAdd c1 ex_item1 = (Ok (), c') ∧
    grid c' = grid c1 ∧ itemsData c' = itemsData c1 ∧
    usedVolume c' = usedVolume ex_container + volume (item_dimensions ex_item1).
Proof.
  apply (addItem_preferred ex_findEmptySpaces ex_chooser ex_chooser ex_container ex_item1
           ex_preferred (mkOrientation 2 0 1) (mkPosition 1 1 1));
    [discriminate | reflexivity | vm_compute; reflexivity | reflexivity | reflexivity
    | vm_compute; reflexivity].
Defined.

(** An item whose priority is the string "constructor", added at a
    preferred position: the call throws a TypeError and leaves the item in
    the grid and in the catalogue, with the used volume still 0. *)
Example add_inherited_priority :
  ∃ c', addItem ex_findEmptySpaces ex_chooser ex_chooser ex_small ex_itemK ex_preferred
        = (Throw "TypeError", c') ∧
        cellAt (grid c') (mkPosition 1 1 1) = Some (Some "ITEM_K") ∧
        is_Some (itemsData c' !! "ITEM_K") ∧
        usedVolume c' = 0.
Proof.
  eexists. split; [vm_compute; reflexivity|].
  split; [reflexivity|]. split; [by eexists | reflexivity].
Qed.

Lemma addItem_after_removeItem_witness :
  addItem ex_findEmptySpaces ex_chooser ex_chooser ex_smallAB_removed ex_itemA
    defaultOptions
  = (Throw "Item with ID ITEM_A is already in the container", ex_smallAB_removed).
Proof.
  apply (addItem_after_removeItem ex_findEmptySpaces ex_chooser ex_chooser ex_smallAB
           "ITEM_A" ex_placedA ex_smallAB_removed ex_itemA defaultOptions);
    [vm_compute; reflexivity | reflexivity | discriminate | reflexivity].
Defined.
